(** * Glaze: the colour resolution engine and its WCAG contrast solver

    A shallow embedding of [contrast-solver.ts] and of the resolution
    engine of [glaze.ts] (validation, topological ordering, the four
    evaluation passes, dark mapping, the theme object), with the
    properties of the specification stated and proved over it.

    Modelling conventions.
    - A JavaScript [number] is an exact rational in canonical form ([Qc]):
      rounding error, [NaN] and the infinities are outside the model.
    - The colour mathematics ([okhsl-color-math]) is an external
      collaborator: it is the interface [ColorMath], and the engine is
      written against that interface.
    - The luminance cache is module state.  Code that reaches it is written
      in the monad [Prog], whose only effects are a call of
      [cachedLuminance] and a thrown error; [run] gives the program its
      meaning over an explicit cache, [eval] over no cache at all.
    - A JavaScript object used as a dictionary ([ColorMap]) is an
      association list in key order; a [Map] is a [gmap]. *)

From Stdlib Require Import QArith Qcanon Qround Lqa ZArith.
From stdpp Require Import gmap strings list fin_maps numbers.

Open Scope Qc_scope.
Set Warnings "-clear-no-such-hyp".

(* ===================================================================== *)
(** * Numbers *)
(* ===================================================================== *)

(** The decimal literal [n/d]. *)
Definition qc (n : Z) (d : positive) : Qc := Q2Qc (n # d).

(** The comparison operators, as booleans. *)
Definition Qc_ltb (a b : Qc) : bool := bool_decide (a < b).
Definition Qc_leb (a b : Qc) : bool := bool_decide (a <= b).
Infix "<?" := Qc_ltb (at level 70) : Qc_scope.
Infix "<=?" := Qc_leb (at level 70) : Qc_scope.
Notation "a >? b" := (Qc_ltb b a) (at level 70) : Qc_scope.
Notation "a >=? b" := (Qc_leb b a) (at level 70) : Qc_scope.

(** [Math.max], [Math.min], [Math.abs]. *)
Definition Math_max (a b : Qc) : Qc := if a <? b then b else a.
Definition Math_min (a b : Qc) : Qc := if b <? a then b else a.
Definition Math_abs (a : Qc) : Qc := if a <? 0 then - a else a.

(** [Math.round]: the nearest integer, halves towards plus infinity. *)
Definition Math_round (a : Qc) : Qc :=
  Q2Qc (inject_Z (Qfloor (this a + (1 # 2)))).

(** The integer part, rounding towards zero. *)
Definition trunc (a : Qc) : Z := Z.quot (Qnum (this a)) (Zpos (Qden (this a))).

(** The remainder operator [a % b]: its sign is the sign of [a]. *)
Definition js_rem (a b : Qc) : Qc := a - b * Q2Qc (inject_Z (trunc (a / b))).

(** [clamp] of glaze.ts. *)
Definition clamp (v min max : Qc) : Qc := Math_max min (Math_min max v).

(* ===================================================================== *)
(** * Types (types.ts, contrast-solver.ts) *)
(* ===================================================================== *)

(** [HCPair<T> = T | [T, T]]. *)
Inductive HCPair (T : Type) : Type :=
| Single (v : T)
| Both (normal highContrast : T).
Arguments Single {T} v.
Arguments Both {T} normal highContrast.

Inductive AdaptationMode : Type := auto | fixed | static.

(** [number | RelativeValue]: a relative value is a signed string such as
    ['-52']; it is kept as the number [parseFloat] reads from it. *)
Inductive NumberOrRelative : Type :=
| Num (v : Qc)
| Rel (v : Qc).

Inductive ContrastPreset : Type := AA | AAA | AA_large | AAA_large.

(** [MinContrast = number | ContrastPreset]. *)
Inductive MinContrast : Type :=
| Ratio (v : Qc)
| Preset (p : ContrastPreset).

Record ColorDef : Type := mkColorDef {
  lightness : option (HCPair NumberOrRelative);
  saturation : option Qc;
  hue : option NumberOrRelative;
  base : option string;
  contrast : option (HCPair MinContrast);
  mode : option AdaptationMode
}.

(** A [ColorMap] object, in the order of [Object.keys]. *)
Definition ColorMap : Type := list (string * ColorDef).

Record ResolvedColorVariant : Type := mkVariant {
  v_h : Qc;
  v_s : Qc;
  v_l : Qc
}.

Record ResolvedColor : Type := mkResolved {
  rc_name : string;
  light : ResolvedColorVariant;
  dark : ResolvedColorVariant;
  lightContrast : ResolvedColorVariant;
  darkContrast : ResolvedColorVariant;
  rc_mode : AdaptationMode
}.

(** The part of [GlazeConfigResolved] the engine reads. *)
Record GlazeConfig : Type := mkConfig {
  darkLightness : Qc * Qc;
  darkDesaturation : Qc
}.

(** The configuration [globalConfig] starts with, and [resetConfig]
    restores. *)
Definition defaultConfig : GlazeConfig :=
  {| darkLightness := (qc 10 1, qc 90 1); darkDesaturation := qc 1 10 |}.

Definition Rgb : Type := Qc * Qc * Qc.

(** The collaborator [okhsl-color-math], as far as the engine uses it. *)
Class ColorMath : Type := {
  okhslToLinearSrgb : Qc -> Qc -> Qc -> Rgb;
  relativeLuminanceFromLinearRgb : Rgb -> Qc;
  contrastRatioFromLuminance : Qc -> Qc -> Qc
}.

(** The solver's options; an absent optional field takes its default in
    [findLightnessForContrast]. *)
Record FindLightnessForContrastOptions : Type := mkOptions {
  o_hue : Qc;
  o_saturation : Qc;
  o_preferredLightness : Qc;
  o_baseLinearRgb : Rgb;
  o_contrast : MinContrast;
  o_lightnessRange : option (Qc * Qc);
  o_epsilon : option Qc;
  o_maxIterations : option nat
}.

Inductive Branch : Type := lighter | darker | preferred.

Record FindLightnessForContrastResult : Type := mkResult {
  r_lightness : Qc;
  r_contrast : Qc;
  r_met : bool;
  r_branch : Branch
}.

Record BranchResult : Type := mkBranchResult {
  br_lightness : Qc;
  br_contrast : Qc;
  br_met : bool
}.

(** What the engine throws. *)
Inductive GlazeError : Type :=
| ContrastWithoutBase (name : string)
| RelativeLightnessWithoutBase (name : string)
| NonExistentBase (name b : string)
| MissingPosition (name : string)
| CircularBase (name : string)
| BaseNotResolved (b name : string)
| PropertyOfUndefined (name : string)
| StackOverflow.

Inductive Outcome (A : Type) : Type :=
| Returned (a : A)
| Thrown (e : GlazeError).
Arguments Returned {A} a.
Arguments Thrown {A} e.

(* ===================================================================== *)
(** * Dark scheme mapping (glaze.ts) *)
(* ===================================================================== *)

Definition mapLightnessDark (cfg : GlazeConfig) (l : Qc) (m : AdaptationMode) : Qc :=
  match m with
  | static => l
  | fixed =>
      let '(lo, hi) := darkLightness cfg in
      (l * (hi - lo)) / qc 100 1 + lo
  | auto =>
      let '(lo, hi) := darkLightness cfg in
      ((qc 100 1 - l) * (hi - lo)) / qc 100 1 + lo
  end.

Definition mapSaturationDark (cfg : GlazeConfig) (s : Qc) (m : AdaptationMode) : Qc :=
  match m with
  | static => s
  | _ => s * (1 - darkDesaturation cfg)
  end.

(* ===================================================================== *)
(** * Programs over the luminance cache *)
(* ===================================================================== *)

(** A computation of the engine: it returns, throws, or calls
    [cachedLuminance(h, s, l)] and goes on with the luminance it gets. *)
Inductive Prog (A : Type) : Type :=
| Ret (a : A)
| Throw (e : GlazeError)
| CallCachedLuminance (h s l : Qc) (k : Qc -> Prog A).
Arguments Ret {A} a.
Arguments Throw {A} e.
Arguments CallCachedLuminance {A} h s l k.

Fixpoint bind {A B : Type} (p : Prog A) (f : A -> Prog B) : Prog B :=
  match p with
  | Ret a => f a
  | Throw e => Throw e
  | CallCachedLuminance h s l k => CallCachedLuminance h s l (fun y => bind (k y) f)
  end.

#[global] Instance Prog_ret : MRet Prog := @Ret.
#[global] Instance Prog_bind : MBind Prog := fun A B f p => bind p f.
#[global] Instance Prog_fmap : FMap Prog := fun A B f p => bind p (fun a => Ret (f a)).

(** One call of [cachedLuminance], as a program. *)
Definition luminance (h s l : Qc) : Prog Qc := CallCachedLuminance h s l Ret.

(** [for (const x of xs) st = body(x, st)]. *)
Fixpoint forEach {A S : Type} (xs : list A) (body : A -> S -> Prog S) (st : S) : Prog S :=
  match xs with
  | [] => mret st
  | x :: rest => st' ← body x st; forEach rest body st'
  end.

(** [luminanceCache] and [cacheOrder].  A key is the string
    [`${h}|${s}|${lRounded}`]; it is kept as the three numbers it prints. *)
Record Cache : Type := mkCache {
  luminanceCache : gmap (Qc * Qc * Qc) Qc;
  cacheOrder : list (Qc * Qc * Qc)
}.

Definition CACHE_SIZE : nat := 512.

Definition emptyCache : Cache := {| luminanceCache := ∅; cacheOrder := [] |}.

(** [Math.round(l * 10000) / 10000]. *)
Definition round4 (l : Qc) : Qc := Math_round (l * qc 10000 1) / qc 10000 1.

Section Engine.
Context `{ColorMath}.

(** The luminance of the OKHSL colour [(h, s, l)], with no cache. *)
Definition luminanceOf (h s l : Qc) : Qc :=
  relativeLuminanceFromLinearRgb (okhslToLinearSrgb h s l).

Definition cachedLuminance (h s l : Qc) (c : Cache) : Qc * Cache :=
  let lRounded := round4 l in
  let key := (h, s, lRounded) in
  match luminanceCache c !! key with
  | Some cached => (cached, c)
  | None =>
      let linearRgb := okhslToLinearSrgb h s lRounded in
      let y := relativeLuminanceFromLinearRgb linearRgb in
      let c1 :=
        if bool_decide (CACHE_SIZE <= size (luminanceCache c))%nat then
          match cacheOrder c with
          | evict :: rest =>
              {| luminanceCache := delete evict (luminanceCache c); cacheOrder := rest |}
          | [] => c
          end
        else c in
      (y, {| luminanceCache := <[key := y]> (luminanceCache c1);
             cacheOrder := cacheOrder c1 ++ [key] |})
  end.

(** The meaning of a program over the cache. *)
Fixpoint run {A : Type} (p : Prog A) (c : Cache) : Outcome A * Cache :=
  match p with
  | Ret a => (Returned a, c)
  | Throw e => (Thrown e, c)
  | CallCachedLuminance h s l k =>
      let '(y, c') := cachedLuminance h s l c in run (k y) c'
  end.

(** The meaning of a program when every lookup is computed afresh. *)
Fixpoint eval {A : Type} (p : Prog A) : Outcome A :=
  match p with
  | Ret a => Returned a
  | Throw e => Thrown e
  | CallCachedLuminance h s l k => eval (k (luminanceOf h s (round4 l)))
  end.

(* ===================================================================== *)
(** * The contrast solver (contrast-solver.ts) *)
(* ===================================================================== *)

Definition CONTRAST_PRESETS (p : ContrastPreset) : Qc :=
  match p with
  | AA => qc 9 2
  | AAA => qc 7 1
  | AA_large => qc 3 1
  | AAA_large => qc 9 2
  end.

Definition resolveMinContrast (value : MinContrast) : Qc :=
  match value with
  | Ratio v => Math_max 1 v
  | Preset p => CONTRAST_PRESETS p
  end.

(** Binary search one branch [lo, hi] for the nearest passing lightness to
    [preferred]: the loop, [n] rounds at most. *)
Fixpoint bisect (h s yBase target epsilon preferred : Qc) (n : nat) (low high : Qc)
  : Prog (Qc * Qc) :=
  match n with
  | O => mret (low, high)
  | S n' =>
      if high - low <? epsilon then mret (low, high)
      else
        let mid := (low + high) / qc 2 1 in
        yMid ← luminance h s mid;
        let crMid := contrastRatioFromLuminance yMid yBase in
        if crMid >=? target then
          if mid <? preferred
          then bisect h s yBase target epsilon preferred n' mid high
          else bisect h s yBase target epsilon preferred n' low mid
        else
          if mid <? preferred
          then bisect h s yBase target epsilon preferred n' low mid
          else bisect h s yBase target epsilon preferred n' mid high
  end.

Definition STEPS : nat := 64.

Definition ofNat (i : nat) : Qc := Q2Qc (inject_Z (Z.of_nat i)).

(** One round of the sampling loop of [coarseScan], on
    [(bestL, bestCr, bestMet)]. *)
Definition scanStep (h s lo yBase target step : Qc) (i : nat) (st : Qc * Qc * bool)
  : Prog (Qc * Qc * bool) :=
  let '(bestL, bestCr, bestMet) := st in
  let l := lo + step * ofNat i in
  y ← luminance h s l;
  let cr := contrastRatioFromLuminance y yBase in
  if (cr >=? target) && negb bestMet then mret (l, cr, true)
  else if (cr >=? target) && bestMet then mret (l, cr, bestMet)
  else if negb bestMet && (cr >? bestCr) then mret (l, cr, bestMet)
  else mret (bestL, bestCr, bestMet).

(** The refining loop of [coarseScan], on [(rLo, rHi, bestL, bestCr)]. *)
Fixpoint refine (h s yBase target epsilon : Qc) (n : nat) (rLo rHi bestL bestCr : Qc)
  : Prog (Qc * Qc) :=
  match n with
  | O => mret (bestL, bestCr)
  | S n' =>
      if rHi - rLo <? epsilon then mret (bestL, bestCr)
      else
        let mid := (rLo + rHi) / qc 2 1 in
        y ← luminance h s mid;
        let cr := contrastRatioFromLuminance y yBase in
        if cr >=? target
        then refine h s yBase target epsilon n' rLo mid mid cr
        else refine h s yBase target epsilon n' mid rHi bestL bestCr
  end.

(** Fallback coarse scan when binary search is unstable near gamut edges. *)
Definition coarseScan (h s lo hi yBase target epsilon : Qc) (maxIter : nat)
  : Prog BranchResult :=
  let step := (hi - lo) / ofNat STEPS in
  '(bestL, bestCr, bestMet) ←
    forEach (seq 0 (S STEPS)) (scanStep h s lo yBase target step) (lo, 0, false);
  if bestMet && (bestL >? lo + step) then
    '(bestL', bestCr') ←
      refine h s yBase target epsilon maxIter (bestL - step) bestL bestL bestCr;
    mret {| br_lightness := bestL'; br_contrast := bestCr'; br_met := bestMet |}
  else
    mret {| br_lightness := bestL; br_contrast := bestCr; br_met := bestMet |}.

Definition searchBranch (h s lo hi yBase target epsilon : Qc) (maxIter : nat)
    (preferred : Qc) : Prog BranchResult :=
  yLo ← luminance h s lo;
  yHi ← luminance h s hi;
  let crLo := contrastRatioFromLuminance yLo yBase in
  let crHi := contrastRatioFromLuminance yHi yBase in
  if (crLo <? target) && (crHi <? target) then
    if crLo >=? crHi
    then mret {| br_lightness := lo; br_contrast := crLo; br_met := false |}
    else mret {| br_lightness := hi; br_contrast := crHi; br_met := false |}
  else
    '(low, high) ← bisect h s yBase target epsilon preferred maxIter lo hi;
    yLow ← luminance h s low;
    yHigh ← luminance h s high;
    let crLow := contrastRatioFromLuminance yLow yBase in
    let crHigh := contrastRatioFromLuminance yHigh yBase in
    let lowPasses := crLow >=? target in
    let highPasses := crHigh >=? target in
    if lowPasses && highPasses then
      if Math_abs (low - preferred) <=? Math_abs (high - preferred)
      then mret {| br_lightness := low; br_contrast := crLow; br_met := true |}
      else mret {| br_lightness := high; br_contrast := crHigh; br_met := true |}
    else if lowPasses
    then mret {| br_lightness := low; br_contrast := crLow; br_met := true |}
    else if highPasses
    then mret {| br_lightness := high; br_contrast := crHigh; br_met := true |}
    else coarseScan h s lo hi yBase target epsilon maxIter.

(** [{ ...r, branch: b }]. *)
Definition withBranch (r : BranchResult) (b : Branch) : FindLightnessForContrastResult :=
  {| r_lightness := br_lightness r; r_contrast := br_contrast r;
     r_met := br_met r; r_branch := b |}.

(** [candidates.sort((a, b) => b.contrast - a.contrast)]: a stable sort
    by falling contrast. *)
Fixpoint insertByContrast (x : FindLightnessForContrastResult)
    (xs : list FindLightnessForContrastResult) : list FindLightnessForContrastResult :=
  match xs with
  | [] => [x]
  | y :: rest =>
      if r_contrast x >=? r_contrast y then x :: y :: rest
      else y :: insertByContrast x rest
  end.

Definition sortByContrast (xs : list FindLightnessForContrastResult)
  : list FindLightnessForContrastResult :=
  foldr insertByContrast [] xs.

(** [r?.met ?? false]. *)
Definition metOf (r : option BranchResult) : bool :=
  match r with
  | Some r => br_met r
  | None => false
  end.

(** Find the OKHSL lightness that satisfies a WCAG 2 contrast target
    against a base color, staying as close to [preferredLightness] as
    possible. *)
Definition findLightnessForContrast (options : FindLightnessForContrastOptions)
  : Prog FindLightnessForContrastResult :=
  let hue := o_hue options in
  let saturation := o_saturation options in
  let preferredLightness := o_preferredLightness options in
  let lightnessRange := default (0, 1) (o_lightnessRange options) in
  let epsilon := default (qc 1 10000) (o_epsilon options) in
  let maxIterations := default 14%nat (o_maxIterations options) in
  let target := resolveMinContrast (o_contrast options) in
  let yBase := relativeLuminanceFromLinearRgb (o_baseLinearRgb options) in
  yPref ← luminance hue saturation preferredLightness;
  let crPref := contrastRatioFromLuminance yPref yBase in
  if crPref >=? target then
    mret {| r_lightness := preferredLightness; r_contrast := crPref;
            r_met := true; r_branch := preferred |}
  else
    let '(minL, maxL) := lightnessRange in
    darkerResult ←
      (if preferredLightness >? minL
       then Some <$> searchBranch hue saturation minL preferredLightness yBase target
                       epsilon maxIterations preferredLightness
       else mret None);
    lighterResult ←
      (if preferredLightness <? maxL
       then Some <$> searchBranch hue saturation preferredLightness maxL yBase target
                       epsilon maxIterations preferredLightness
       else mret None);
    let darkerPasses := metOf darkerResult in
    let lighterPasses := metOf lighterResult in
    if darkerPasses && lighterPasses then
      match darkerResult, lighterResult with
      | Some d, Some l =>
          let darkerDist := Math_abs (br_lightness d - preferredLightness) in
          let lighterDist := Math_abs (br_lightness l - preferredLightness) in
          if darkerDist <=? lighterDist
          then mret (withBranch d darker)
          else mret (withBranch l lighter)
      | _, _ => Throw (PropertyOfUndefined "lightness")
      end
    else if darkerPasses then
      match darkerResult with
      | Some d => mret (withBranch d darker)
      | None => Throw (PropertyOfUndefined "lightness")
      end
    else if lighterPasses then
      match lighterResult with
      | Some l => mret (withBranch l lighter)
      | None => Throw (PropertyOfUndefined "lightness")
      end
    else
      let candidates :=
        match darkerResult with Some d => [withBranch d darker] | None => [] end ++
        match lighterResult with Some l => [withBranch l lighter] | None => [] end in
      match sortByContrast candidates with
      | [] =>
          mret {| r_lightness := preferredLightness; r_contrast := crPref;
                  r_met := false; r_branch := preferred |}
      | best :: _ => mret best
      end.

(* ===================================================================== *)
(** * Validation and ordering (glaze.ts) *)
(* ===================================================================== *)

(** [Object.keys(defs)] and [defs[name]]. *)
Definition keys (defs : ColorMap) : list string := defs.*1.

Fixpoint lookupDef (defs : ColorMap) (name : string) : option ColorDef :=
  match defs with
  | [] => None
  | (k, d) :: rest => if String.eqb k name then Some d else lookupDef rest name
  end.

Definition pairNormal {T : Type} (p : HCPair T) : T :=
  match p with
  | Single v => v
  | Both n _ => n
  end.

Definition pairHC {T : Type} (p : HCPair T) : T :=
  match p with
  | Single v => v
  | Both _ hc => hc
  end.

(** Check whether a lightness value represents an absolute root
    definition (i.e. a number, not a relative string). *)
Definition isAbsoluteLightness (lightness : option (HCPair NumberOrRelative)) : bool :=
  match lightness with
  | None => false
  | Some p =>
      match pairNormal p with
      | Num _ => true
      | Rel _ => false
      end
  end.

(** [def.base] read as a condition: [undefined] and the empty string are
    false. *)
Definition truthy (b : option string) : bool :=
  match b with
  | Some s => negb (String.eqb s "")
  | None => false
  end.

Definition isDefined {A : Type} (o : option A) : bool :=
  match o with
  | Some _ => true
  | None => false
  end.

(** The base edge the searches follow from a definition, if any:
    [def.base && !isAbsoluteLightness(def.lightness)]. *)
Definition followedBase (def : ColorDef) : option string :=
  if truthy (base def) && negb (isAbsoluteLightness (lightness def))
  then base def else None.

(** The checks of the first loop of [validateColorDefs] on one entry (the
    warning it may print is not modelled). *)
Definition checkDef (names : gset string) (name : string) (def : ColorDef)
  : Outcome unit :=
  if isDefined (contrast def) && negb (truthy (base def)) then
    Thrown (ContrastWithoutBase name)
  else if isDefined (lightness def) && negb (isAbsoluteLightness (lightness def))
          && negb (truthy (base def)) then
    Thrown (RelativeLightnessWithoutBase name)
  else if truthy (base def) && negb (bool_decide (default "" (base def) ∈ names)) then
    Thrown (NonExistentBase name (default "" (base def)))
  else if negb (isAbsoluteLightness (lightness def)) && negb (isDefined (base def)) then
    Thrown (MissingPosition name)
  else Returned tt.

Fixpoint checkDefs (names : gset string) (entries : ColorMap) : Outcome unit :=
  match entries with
  | [] => Returned tt
  | (name, def) :: rest =>
      match checkDef names name def with
      | Returned _ => checkDefs names rest
      | Thrown e => Thrown e
      end
  end.

(** The inner function [dfs] of [validateColorDefs].  It returns the new
    [visited]; [inStack] is, on return, what it was at the call.  [fuel]
    bounds the depth of the recursion. *)
Fixpoint dfs (defs : ColorMap) (fuel : nat) (name : string)
    (visited inStack : gset string) : Outcome (gset string) :=
  match fuel with
  | O => Thrown StackOverflow
  | S fuel' =>
      if bool_decide (name ∈ inStack) then Thrown (CircularBase name)
      else if bool_decide (name ∈ visited) then Returned visited
      else
        match lookupDef defs name with
        | None => Thrown (PropertyOfUndefined name)
        | Some def =>
            match followedBase def with
            | Some b =>
                match dfs defs fuel' b visited ({[name]} ∪ inStack) with
                | Returned visited' => Returned ({[name]} ∪ visited')
                | Thrown e => Thrown e
                end
            | None => Returned ({[name]} ∪ visited)
            end
        end
  end.

(** [for (const name of names) dfs(name)]. *)
Fixpoint dfsAll (defs : ColorMap) (fuel : nat) (names : list string)
    (visited : gset string) : Outcome (gset string) :=
  match names with
  | [] => Returned visited
  | name :: rest =>
      match dfs defs fuel name visited ∅ with
      | Returned visited' => dfsAll defs fuel rest visited'
      | Thrown e => Thrown e
      end
  end.

Definition validateColorDefs (defs : ColorMap) : Outcome unit :=
  let names := keys defs in
  match checkDefs (list_to_set names) defs with
  | Thrown e => Thrown e
  | Returned _ =>
      match dfsAll defs (S (length defs)) names ∅ with
      | Returned _ => Returned tt
      | Thrown e => Thrown e
      end
  end.

(** The inner function [visit] of [topoSort], on [(visited, result)]. *)
Fixpoint visit (defs : ColorMap) (fuel : nat) (name : string)
    (st : gset string * list string) : Outcome (gset string * list string) :=
  match fuel with
  | O => Thrown StackOverflow
  | S fuel' =>
      let '(visited, result) := st in
      if bool_decide (name ∈ visited) then Returned st
      else
        let visited := {[name]} ∪ visited in
        match lookupDef defs name with
        | None => Thrown (PropertyOfUndefined name)
        | Some def =>
            match followedBase def with
            | Some b =>
                match visit defs fuel' b (visited, result) with
                | Returned (visited', result') => Returned (visited', result' ++ [name])
                | Thrown e => Thrown e
                end
            | None => Returned (visited, result ++ [name])
            end
        end
  end.

Fixpoint visitAll (defs : ColorMap) (fuel : nat) (names : list string)
    (st : gset string * list string) : Outcome (gset string * list string) :=
  match names with
  | [] => Returned st
  | name :: rest =>
      match visit defs fuel name st with
      | Returned st' => visitAll defs fuel rest st'
      | Thrown e => Thrown e
      end
  end.

Definition topoSort (defs : ColorMap) : Outcome (list string) :=
  match visitAll defs (S (length defs)) (keys defs) (∅, []) with
  | Returned (_, result) => Returned result
  | Thrown e => Thrown e
  end.

(* ===================================================================== *)
(** * The resolution engine (glaze.ts) *)
(* ===================================================================== *)

(** Parse a value that can be absolute (number) or relative (signed
    string): the numeric value and whether it is relative. *)
Definition parseRelativeOrAbsolute (value : NumberOrRelative) : Qc * bool :=
  match value with
  | Num v => (v, false)
  | Rel v => (v, true)
  end.

(** The effective hue for a color, given the theme seed hue and an
    optional per-color hue override. *)
Definition resolveEffectiveHue (seedHue : Qc) (defHue : option NumberOrRelative) : Qc :=
  match defHue with
  | None => seedHue
  | Some d =>
      let '(value, relative) := parseRelativeOrAbsolute d in
      if relative
      then js_rem (js_rem (seedHue + value) (qc 360 1) + qc 360 1) (qc 360 1)
      else js_rem (js_rem value (qc 360 1) + qc 360 1) (qc 360 1)
  end.

Record ResolveContext : Type := mkContext {
  ctx_hue : Qc;
  ctx_saturation : Qc;
  ctx_defs : ColorMap;
  ctx_resolved : gmap string ResolvedColor
}.

(** A value the code reads through a [!] assertion or a property access:
    reading through [undefined] throws. *)
Definition nonNull {A : Type} (what : string) (o : option A) : Prog A :=
  match o with
  | Some a => mret a
  | None => Throw (PropertyOfUndefined what)
  end.

Definition liftOutcome {A : Type} (o : Outcome A) : Prog A :=
  match o with
  | Returned a => mret a
  | Thrown e => Throw e
  end.

(** The variant of a resolved color for [(isDark, isHighContrast)]. *)
Definition variantFor (r : ResolvedColor) (isDark isHighContrast : bool)
  : ResolvedColorVariant :=
  if isDark && isHighContrast then darkContrast r
  else if isDark then dark r
  else if isHighContrast then lightContrast r
  else light r.

Definition modeOf (def : ColorDef) : AdaptationMode := default auto (mode def).

Definition isStatic (m : AdaptationMode) : bool :=
  match m with static => true | _ => false end.

Definition isAuto (m : AdaptationMode) : bool :=
  match m with auto => true | _ => false end.

(** The result is [(lightL, satFactor)]. *)
Definition resolveRootColor (def : ColorDef) (isHighContrast : bool) : Prog (Qc * Qc) :=
  rawL ← nonNull "lightness" (lightness def);
  let rawValue := if isHighContrast then pairHC rawL else pairNormal rawL in
  let parsed := parseRelativeOrAbsolute rawValue in
  let lightL := clamp parsed.1 0 (qc 100 1) in
  let satFactor := clamp (default 1 (saturation def)) 0 1 in
  mret (lightL, satFactor).

(** The result is [(l, satFactor)]. *)
Definition resolveDependentColor (cfg : GlazeConfig) (name : string) (def : ColorDef)
    (ctx : ResolveContext) (isHighContrast isDark : bool) (effectiveHue : Qc)
  : Prog (Qc * Qc) :=
  let baseName := default "undefined" (base def) in
  match (base def ≫= fun b => ctx_resolved ctx !! b) with
  | None => Throw (BaseNotResolved baseName name)
  | Some baseResolved =>
      let mode := modeOf def in
      let satFactor := clamp (default 1 (saturation def)) 0 1 in
      let baseL := v_l (variantFor baseResolved isDark isHighContrast) * qc 100 1 in
      let preferredL :=
        match lightness def with
        | None => baseL
        | Some rawLightness =>
            let rawValue :=
              if isHighContrast then pairHC rawLightness else pairNormal rawLightness in
            let '(value, relative) := parseRelativeOrAbsolute rawValue in
            if relative then
              let delta := if isDark && isAuto mode then - value else value in
              clamp (baseL + delta) 0 (qc 100 1)
            else if isDark then mapLightnessDark cfg value mode
            else clamp value 0 (qc 100 1)
        end in
      match contrast def with
      | Some rawContrast =>
          let minCr := if isHighContrast then pairHC rawContrast else pairNormal rawContrast in
          let effectiveSat :=
            if isDark
            then mapSaturationDark cfg ((satFactor * ctx_saturation ctx) / qc 100 1) mode
            else (satFactor * ctx_saturation ctx) / qc 100 1 in
          let baseVariant := variantFor baseResolved isDark isHighContrast in
          let baseLinearRgb :=
            okhslToLinearSrgb (v_h baseVariant) (v_s baseVariant) (v_l baseVariant) in
          result ← findLightnessForContrast
            {| o_hue := effectiveHue; o_saturation := effectiveSat;
               o_preferredLightness := preferredL / qc 100 1;
               o_baseLinearRgb := baseLinearRgb; o_contrast := minCr;
               o_lightnessRange := None; o_epsilon := None; o_maxIterations := None |};
          mret (r_lightness result * qc 100 1, satFactor)
      | None => mret (clamp preferredL 0 (qc 100 1), satFactor)
      end
  end.

Definition resolveColorForScheme (cfg : GlazeConfig) (name : string) (def : ColorDef)
    (ctx : ResolveContext) (isDark isHighContrast : bool) : Prog ResolvedColorVariant :=
  let mode := modeOf def in
  let isRoot := isAbsoluteLightness (lightness def) && negb (truthy (base def)) in
  let effectiveHue := resolveEffectiveHue (ctx_hue ctx) (hue def) in
  '(lightL, satFactor) ←
    (if isRoot then resolveRootColor def isHighContrast
     else resolveDependentColor cfg name def ctx isHighContrast isDark effectiveHue);
  let '(finalL, finalSat) :=
    if isDark && isRoot then
      (mapLightnessDark cfg lightL mode,
       mapSaturationDark cfg ((satFactor * ctx_saturation ctx) / qc 100 1) mode)
    else if isDark && negb isRoot then
      (lightL, mapSaturationDark cfg ((satFactor * ctx_saturation ctx) / qc 100 1) mode)
    else (lightL, (satFactor * ctx_saturation ctx) / qc 100 1) in
  mret {| v_h := effectiveHue;
          v_s := clamp finalSat 0 1;
          v_l := clamp (finalL / qc 100 1) 0 1 |}.

Definition setLightContrast (r : ResolvedColor) (v : ResolvedColorVariant) : ResolvedColor :=
  mkResolved (rc_name r) (light r) (dark r) v (darkContrast r) (rc_mode r).

Definition setDark (r : ResolvedColor) (v : ResolvedColorVariant) : ResolvedColor :=
  mkResolved (rc_name r) (light r) v (lightContrast r) (darkContrast r) (rc_mode r).

Definition setDarkContrast (r : ResolvedColor) (v : ResolvedColorVariant) : ResolvedColor :=
  mkResolved (rc_name r) (light r) (dark r) (lightContrast r) v (rc_mode r).

(** One round of an evaluating loop of [resolveAllColors]: evaluate
    [name] for the scheme, record the variant in the pass's own map, and
    store it in [ctx.resolved] with [store]. *)
Definition evaluatePass (cfg : GlazeConfig) (hue saturation : Qc) (defs : ColorMap)
    (isDark isHighContrast : bool)
    (store : string -> ColorDef -> ResolvedColorVariant ->
             gmap string ResolvedColor -> Prog ResolvedColor)
    (name : string)
    (st : gmap string ResolvedColorVariant * gmap string ResolvedColor)
  : Prog (gmap string ResolvedColorVariant * gmap string ResolvedColor) :=
  let '(passMap, resolved) := st in
  def ← nonNull name (lookupDef defs name);
  variant ← resolveColorForScheme cfg name def
              (mkContext hue saturation defs resolved) isDark isHighContrast;
  entry ← store name def variant resolved;
  mret (<[name := variant]> passMap, <[name := entry]> resolved).

Definition resolveAllColors (cfg : GlazeConfig) (hue saturation : Qc) (defs : ColorMap)
  : Prog (gmap string ResolvedColor) :=
  liftOutcome (validateColorDefs defs);;
  order ← liftOutcome (topoSort defs);
  (* Pass 1: Light normal *)
  '(lightMap, resolved) ←
    forEach order
      (evaluatePass cfg hue saturation defs false false
         (fun name def variant _ =>
            mret (mkResolved name variant variant variant variant (modeOf def))))
      (∅, ∅);
  (* Pass 2: Light high-contrast *)
  resolved ←
    forEach order
      (fun name resolved =>
         r ← nonNull name (resolved !! name);
         lv ← nonNull name (lightMap !! name);
         mret (<[name := setLightContrast r lv]> resolved))
      resolved;
  '(lightHCMap, resolved) ←
    forEach order
      (evaluatePass cfg hue saturation defs false true
         (fun name def variant resolved =>
            r ← nonNull name (resolved !! name);
            mret (setLightContrast r variant)))
      (∅, resolved);
  (* Pass 3: Dark normal *)
  resolved ←
    forEach order
      (fun name resolved =>
         def ← nonNull name (lookupDef defs name);
         lv ← nonNull name (lightMap !! name);
         hv ← nonNull name (lightHCMap !! name);
         mret (<[name := mkResolved name lv lv hv hv (modeOf def)]> resolved))
      resolved;
  '(darkMap, resolved) ←
    forEach order
      (evaluatePass cfg hue saturation defs true false
         (fun name def variant resolved =>
            r ← nonNull name (resolved !! name);
            mret (setDark r variant)))
      (∅, resolved);
  (* Pass 4: Dark high-contrast *)
  resolved ←
    forEach order
      (fun name resolved =>
         r ← nonNull name (resolved !! name);
         dv ← nonNull name (darkMap !! name);
         mret (<[name := setDarkContrast r dv]> resolved))
      resolved;
  '(darkHCMap, resolved) ←
    forEach order
      (evaluatePass cfg hue saturation defs true true
         (fun name def variant resolved =>
            r ← nonNull name (resolved !! name);
            mret (setDarkContrast r variant)))
      (∅, resolved);
  (* Build final result *)
  forEach order
    (fun name result =>
       def ← nonNull name (lookupDef defs name);
       lv ← nonNull name (lightMap !! name);
       dv ← nonNull name (darkMap !! name);
       lhv ← nonNull name (lightHCMap !! name);
       dhv ← nonNull name (darkHCMap !! name);
       mret (<[name := mkResolved name lv dv lhv dhv (modeOf def)]> result))
    ∅.

(** Every entry of the cache is the luminance of its key. *)
Definition coherent (c : Cache) : Prop :=
  forall h s l y, luminanceCache c !! (h, s, l) = Some y -> y = luminanceOf h s l.

(** The caches the module can hold: the empty one, and any cache left by a
    lookup. *)
Inductive reachable : Cache -> Prop :=
| reachable_empty : reachable emptyCache
| reachable_lookup h s l c : reachable c -> reachable (snd (cachedLuminance h s l c)).

End Engine.

(* ===================================================================== *)
(** * The theme object (glaze.ts, [createTheme]) *)
(* ===================================================================== *)

(** Objects live in a heap and are known by their address; a variable or a
    property that holds an object holds its address.  A [ColorDef] is never
    written to by the theme, so entries hold it as a value. *)
Inductive Obj : Type :=
| ColorMapObj (entries : ColorMap)
| ExportObj (e_hue e_saturation : Qc) (e_colors : positive).

(** The closure of [createTheme]: [hue], [saturation] and the variable
    [colorDefs]. *)
Record Theme : Type := mkTheme {
  t_hue : Qc;
  t_saturation : Qc;
  colorDefs : positive
}.

Definition alloc (o : Obj) (heap : gmap positive Obj) : positive * gmap positive Obj :=
  let a := fresh (dom heap) in (a, <[a := o]> heap).

(** The entries of the object at [a] (none when it is no [ColorMap]). *)
Definition entriesAt (heap : gmap positive Obj) (a : positive) : ColorMap :=
  match heap !! a with
  | Some (ColorMapObj entries) => entries
  | _ => []
  end.

(** [obj[name] = def]: an existing key keeps its place, a new one goes
    last. *)
Fixpoint setProperty (entries : ColorMap) (name : string) (def : ColorDef) : ColorMap :=
  match entries with
  | [] => [(name, def)]
  | (k, d) :: rest =>
      if String.eqb k name then (k, def) :: rest
      else (k, d) :: setProperty rest name def
  end.

(** [delete obj[name]]. *)
Definition deleteProperty (entries : ColorMap) (name : string) : ColorMap :=
  filter (fun kd => negb (String.eqb kd.1 name)) entries.

(** [{ ...a, ...b }]. *)
Definition spread (a b : ColorMap) : ColorMap :=
  foldl (fun acc kd => setProperty acc kd.1 kd.2) a b.

Definition createTheme (hue saturation : Qc) (initialColors : option ColorMap)
    (heap : gmap positive Obj) : Theme * gmap positive Obj :=
  let '(a, heap') := alloc (ColorMapObj (spread [] (default [] initialColors))) heap in
  (mkTheme hue saturation a, heap').

(** The calls on a theme that write. *)
Inductive ThemeCall : Type :=
| colors (defs : ColorMap)
| color (name : string) (def : ColorDef)
| remove (names : list string)
| reset.

Definition call (c : ThemeCall) (st : Theme * gmap positive Obj)
  : Theme * gmap positive Obj :=
  let '(theme, heap) := st in
  match c with
  | colors defs =>
      let '(a, heap') :=
        alloc (ColorMapObj (spread (entriesAt heap (colorDefs theme)) defs)) heap in
      (mkTheme (t_hue theme) (t_saturation theme) a, heap')
  | color name def =>
      (theme,
       <[colorDefs theme :=
           ColorMapObj (setProperty (entriesAt heap (colorDefs theme)) name def)]> heap)
  | remove names =>
      (theme,
       <[colorDefs theme :=
           ColorMapObj (foldl deleteProperty (entriesAt heap (colorDefs theme)) names)]> heap)
  | reset =>
      let '(a, heap') := alloc (ColorMapObj []) heap in
      (mkTheme (t_hue theme) (t_saturation theme) a, heap')
  end.

Definition calls (cs : list ThemeCall) (st : Theme * gmap positive Obj)
  : Theme * gmap positive Obj :=
  foldl (fun st c => call c st) st cs.

(** [export()]: the address of the returned object, and the heap. *)
Definition export (st : Theme * gmap positive Obj) : positive * gmap positive Obj :=
  let '(theme, heap) := st in
  let '(c, heap1) := alloc (ColorMapObj (spread [] (entriesAt heap (colorDefs theme)))) heap in
  alloc (ExportObj (t_hue theme) (t_saturation theme) c) heap1.

(** What can be read from an export object: its hue, its saturation and
    the entries of its [colors]. *)
Definition readExport (heap : gmap positive Obj) (e : positive)
  : option (Qc * Qc * ColorMap) :=
  match heap !! e with
  | Some (ExportObj h s c) =>
      match heap !! c with
      | Some (ColorMapObj entries) => Some (h, s, entries)
      | _ => None
      end
  | _ => None
  end.

(* ===================================================================== *)
(** * A collaborator to run the engine with *)
(* ===================================================================== *)

(** Modelled from the spec: [contrastRatioFromLuminance] of
    okhsl-color-math, which is not among the sources; section 6 gives it as
    (max(Y1,Y2)+0.05)/(min(Y1,Y2)+0.05). *)
Definition wcagContrastRatio (y1 y2 : Qc) : Qc :=
  (Math_max y1 y2 + qc 1 20) / (Math_min y1 y2 + qc 1 20).

(** A grey ramp standing in for the OKHSL conversion, which is not among
    the sources: the three linear channels are the lightness, and the
    luminance is their WCAG-weighted sum, so the luminance of [(h, s, l)]
    is [l]. *)
Definition greyMath : ColorMath := {|
  okhslToLinearSrgb := fun _ _ l => (l, l, l);
  relativeLuminanceFromLinearRgb := fun '(r, g, b) =>
    qc 2126 10000 * r + qc 7152 10000 * g + qc 722 10000 * b;
  contrastRatioFromLuminance := wcagContrastRatio
|}.



Definition black : Rgb := (0, 0, 0).

(** Options with the defaults, for a grey candidate. *)
Definition greyOptions (preferredLightness : Qc) (base : Rgb) (target : Qc)
  : FindLightnessForContrastOptions :=
  {| o_hue := 0; o_saturation := 0; o_preferredLightness := preferredLightness;
     o_baseLinearRgb := base; o_contrast := Ratio target;
     o_lightnessRange := None; o_epsilon := None; o_maxIterations := None |}.






(** A [ColorDef] with every property absent. *)
Definition noDef : ColorDef :=
  {| lightness := None; saturation := None; hue := None; base := None;
     contrast := None; mode := None |}.

(** [{ lightness: l }]. *)
Definition rootDef (l : Qc) : ColorDef :=
  {| lightness := Some (Single (Num l)); saturation := None; hue := None;
     base := None; contrast := None; mode := None |}.

(** [{ base: b, lightness: l }] with [l] a number or a relative string. *)
Definition dependentDef (b : string) (l : NumberOrRelative) : ColorDef :=
  {| lightness := Some (Single l); saturation := None; hue := None;
     base := Some b; contrast := None; mode := None |}.

(** The inputs the statements below are run on. *)
Definition surfaceAndText : ColorMap :=
  [("surface", rootDef (qc 97 1));
   ("text", {| lightness := Some (Single (Num (qc 45 1))); saturation := None;
               hue := None; base := Some "surface";
               contrast := Some (Single (Preset AAA)); mode := None |})].

(** [{ text: { base: 'surface', lightness: 45 }, surface: { lightness: 97 } }]:
    a dependent colour with an absolute lightness, declared before its
    base. *)
Definition textBeforeSurface : ColorMap :=
  [("text", dependentDef "surface" (Num (qc 45 1)));
   ("surface", rootDef (qc 97 1))].

(** Two colours that are each other's base, and a third with a contrast
    floor and no base. *)
Definition cycleAndOrphan : ColorMap :=
  [("a", dependentDef "b" (Rel (qc (-10) 1)));
   ("b", dependentDef "a" (Rel (qc (-10) 1)));
   ("c", {| lightness := Some (Single (Num (qc 50 1))); saturation := None;
            hue := None; base := None;
            contrast := Some (Single (Preset AA)); mode := None |})].

(** Two colours that are each other's base. *)
Definition twoCycle : ColorMap :=
  [("a", dependentDef "b" (Rel (qc (-10) 1)));
   ("b", dependentDef "a" (Rel (qc (-10) 1)))].

(* ===================================================================== *)
(** * The vocabulary of the statements *)
(* ===================================================================== *)

(** [a] has the declared base [b]. *)
Definition baseEdge (defs : ColorMap) (a b : string) : Prop :=
  exists def, lookupDef defs a = Some def /\ base def = Some b.

(** [a] has the base [b] and the searches follow it: [a] lacks absolute
    lightness. *)
Definition followedEdge (defs : ColorMap) (a b : string) : Prop :=
  exists def, lookupDef defs a = Some def /\ followedBase def = Some b.

(** The chain of followed edges that starts at a name comes to an end. *)
Inductive settles (defs : ColorMap) : string -> Prop :=
| settles_here name def :
    lookupDef defs name = Some def -> followedBase def = None -> settles defs name
| settles_next name def b :
    lookupDef defs name = Some def -> followedBase def = Some b ->
    settles defs b -> settles defs name.

(** The per-definition checks pass. *)
Definition definitionsChecked (defs : ColorMap) : Prop :=
  checkDefs (list_to_set (keys defs)) defs = Returned tt.

(** [a] is allocated and is not the object the theme writes to. *)
Definition apartFrom (a : positive) (st : Theme * gmap positive Obj) : Prop :=
  a ∈ dom st.2 /\ a ≠ colorDefs st.1.

(** The theme's [colorDefs] is an allocated object. *)
Definition themeAllocated (st : Theme * gmap positive Obj) : Prop :=
  colorDefs st.1 ∈ dom st.2.

(** Whatever luminances the lookups return, if the program returns, what
    it returns satisfies [Q]. *)
Fixpoint ensures {A : Type} (p : Prog A) (Q : A -> Prop) : Prop :=
  match p with
  | Ret a => Q a
  | Throw _ => True
  | CallCachedLuminance _ _ _ k => forall y, ensures (k y) Q
  end.

(** A variant within the ranges of [ResolvedColorVariant]. *)
Definition variantInRange (v : ResolvedColorVariant) : Prop :=
  (0 <= v_h v /\ v_h v < qc 360 1) /\
  (0 <= v_s v /\ v_s v <= 1) /\
  (0 <= v_l v /\ v_l v <= 1).

Definition colorInRange (r : ResolvedColor) : Prop :=
  variantInRange (light r) /\ variantInRange (lightContrast r) /\
  variantInRange (dark r) /\ variantInRange (darkContrast r).

(** The width of an interval of width [w] after [n] halvings. *)
Fixpoint halve (n : nat) (w : Qc) : Qc :=
  match n with
  | O => w
  | S n' => halve n' (w / qc 2 1)
  end.

Section SolverVocabulary.
Context `{ColorMath}.

(** The program returns, with no cache, a value that satisfies [Q]. *)
Definition returns {A : Type} (p : Prog A) (Q : A -> Prop) : Prop :=
  exists a, eval p = Returned a /\ Q a.

(** The WCAG contrast ratio of the colour [(h, s, l)] against a base of
    luminance [yBase]. *)
Definition contrastOf (h s yBase l : Qc) : Qc :=
  contrastRatioFromLuminance (luminanceOf h s l) yBase.

(** The contrast ratio the solver measures at [l]: its luminance lookup
    works at [l] rounded to four decimals. *)
Definition contrastAt (h s yBase l : Qc) : Qc := contrastOf h s yBase (round4 l).

(** The resolved inputs of a call. *)
Definition targetOf (options : FindLightnessForContrastOptions) : Qc :=
  resolveMinContrast (o_contrast options).

Definition yBaseOf (options : FindLightnessForContrastOptions) : Qc :=
  relativeLuminanceFromLinearRgb (o_baseLinearRgb options).

Definition rangeOf (options : FindLightnessForContrastOptions) : Qc * Qc :=
  default (0, 1) (o_lightnessRange options).




(** The contrast the solver measures at [l] for a call, and whether it
    meets the target. *)
Definition measured (options : FindLightnessForContrastOptions) (l : Qc) : Qc :=
  contrastAt (o_hue options) (o_saturation options) (yBaseOf options) l.


(** The contrast of the colour of lightness [l] itself, for a call. *)
Definition achieved (options : FindLightnessForContrastOptions) (l : Qc) : Qc :=
  contrastOf (o_hue options) (o_saturation options) (yBaseOf options) l.

(** The [i]-th sample of the coarse scan of [lo, hi]. *)
Definition sample (lo hi : Qc) (i : nat) : Qc :=
  lo + ((hi - lo) / ofNat STEPS) * ofNat i.

(** What the sampling loop of [coarseScan] holds after the samples before
    the [n]-th: the latest passing sample if one passed, else the first
    sample of highest contrast among those of positive contrast. *)
Definition scanned (h s lo hi yBase target : Qc) (n : nat) (st : Qc * Qc * bool) : Prop :=
  let '(bestL, bestCr, bestMet) := st in
  let cr i := contrastAt h s yBase (sample lo hi i) in
  if bestMet then
    exists j, (j < n)%nat /\ target <= cr j /\
      (forall i, (j < i < n)%nat -> cr i < target) /\
      bestL = sample lo hi j /\ bestCr = cr j
  else
    (forall i, (i < n)%nat -> cr i < target) /\
    ((bestL = lo /\ bestCr = 0 /\ forall i, (i < n)%nat -> cr i <= 0) \/
     (exists k, (k < n)%nat /\ bestL = sample lo hi k /\ bestCr = cr k /\ 0 < cr k /\
        forall i, (i < n)%nat -> cr i <= cr k)).

(** What the coarse scan of [lo, hi] returns: with [met], the latest
    passing sample, as it is when it is one of the first two samples, else
    refined: a passing lightness at or below the sample with, below it and
    closer than [epsilon] or than the step halved [maxIter] times, the
    sample's lower neighbour or a lightness that fails; without [met],
    when no sample passes, a sample of highest contrast, or [lo] with
    contrast 0 when no sample has a positive contrast. *)
Definition latestPassingOrBest (h s lo hi yBase target epsilon : Qc) (maxIter : nat)
    (r : BranchResult) : Prop :=
  let step := (hi - lo) / ofNat STEPS in
  let cr i := contrastAt h s yBase (sample lo hi i) in
  (forall j, (j <= STEPS)%nat -> target <= cr j ->
     (forall i, (j < i <= STEPS)%nat -> cr i < target) ->
     br_met r = true /\
     target <= br_contrast r /\
     br_contrast r = contrastAt h s yBase (br_lightness r) /\
     (sample lo hi j <= lo + step -> br_lightness r = sample lo hi j) /\
     (lo + step < sample lo hi j ->
        br_lightness r <= sample lo hi j /\
        exists f, sample lo hi j - step <= f /\ f <= br_lightness r /\
          (f = sample lo hi j - step \/ contrastAt h s yBase f < target) /\
          (br_lightness r - f < epsilon \/ br_lightness r - f = halve maxIter step))) /\
  ((forall i, (i <= STEPS)%nat -> cr i < target) ->
     br_met r = false /\
     ((br_lightness r = lo /\ br_contrast r = 0 /\ forall i, (i <= STEPS)%nat -> cr i <= 0) \/
      (exists k, (k <= STEPS)%nat /\ br_lightness r = sample lo hi k /\
         br_contrast r = cr k /\ 0 < cr k /\ forall i, (i <= STEPS)%nat -> cr i <= cr k))).











(** What the search of the darker side [minL, pref] gives: no result when
    the side is empty; a result with [met] that passes and is within
    [epsilon] of being the nearest passing lightness of the side; or a
    result without [met] when nothing of the side passes. *)
Definition darkerFound (h s yBase target epsilon pref minL : Qc)
    (o : option BranchResult) : Prop :=
  match o with
  | None => pref <= minL
  | Some d =>
      (br_met d = true ->
         target <= contrastAt h s yBase (br_lightness d) /\ br_lightness d <= pref /\
         forall l, minL <= l -> l <= pref -> target <= contrastAt h s yBase l ->
           pref - br_lightness d < pref - l + epsilon) /\
      (br_met d = false ->
         forall l, minL <= l -> l <= pref -> contrastAt h s yBase l < target)
  end.

(** The same for the lighter side [pref, maxL]. *)
Definition lighterFound (h s yBase target epsilon pref maxL : Qc)
    (o : option BranchResult) : Prop :=
  match o with
  | None => maxL <= pref
  | Some r =>
      (br_met r = true ->
         target <= contrastAt h s yBase (br_lightness r) /\ pref <= br_lightness r /\
         forall l, pref <= l -> l <= maxL -> target <= contrastAt h s yBase l ->
           br_lightness r - pref < l - pref + epsilon) /\
      (br_met r = false ->
         forall l, pref <= l -> l <= maxL -> contrastAt h s yBase l < target)
  end.

End SolverVocabulary.

(* ===================================================================== *)
(** * The vocabulary of the further properties *)
(* ===================================================================== *)

(** ** The luminance cache *)

(** The cache holds at most [CACHE_SIZE] entries, and [cacheOrder] lists
    the keys of [luminanceCache], each once. *)
Definition withinCapacity (c : Cache) : Prop :=
  (size (luminanceCache c) <= CACHE_SIZE)%nat /\
  NoDup (cacheOrder c) /\
  forall k, k ∈ cacheOrder c <-> is_Some (luminanceCache c !! k).

(** ** The solver *)

(** The options of a call with [preferredLightness] replaced. *)
Definition withPreferred (options : FindLightnessForContrastOptions) (l : Qc)
  : FindLightnessForContrastOptions :=
  {| o_hue := o_hue options; o_saturation := o_saturation options;
     o_preferredLightness := l; o_baseLinearRgb := o_baseLinearRgb options;
     o_contrast := o_contrast options; o_lightnessRange := o_lightnessRange options;
     o_epsilon := o_epsilon options; o_maxIterations := o_maxIterations options |}.

(** Where the branch named by a result lies. *)
Definition locatedByBranch (options : FindLightnessForContrastOptions)
    (r : FindLightnessForContrastResult) : Prop :=
  let pref := o_preferredLightness options in
  match r_branch r with
  | preferred => r_lightness r = pref
  | darker => (rangeOf options).1 <= r_lightness r /\ r_lightness r <= pref
  | lighter => pref <= r_lightness r /\ r_lightness r <= (rangeOf options).2
  end.

(** [met] tells whether the reported contrast meets the target. *)
Definition honest (options : FindLightnessForContrastOptions)
    (r : FindLightnessForContrastResult) : Prop :=
  r_met r = true <-> targetOf options <= r_contrast r.

(** The same of a branch result: it lies in [lo, hi], and [met] tells
    whether its contrast meets the target. *)
Definition insideAndHonest (lo hi target : Qc) (r : BranchResult) : Prop :=
  (lo <= br_lightness r /\ br_lightness r <= hi) /\
  (if br_met r then target <= br_contrast r else br_contrast r < target).

(** ** Validation and ordering *)

(** [def.base] names a colour: it is present and not the empty string. *)
Definition hasBase (def : ColorDef) : Prop :=
  exists b, base def = Some b /\ b <> "".

(** What the first loop of [validateColorDefs] asks of a definition: a
    contrast floor or a relative lightness needs a base, a base must be a
    declared name, and a colour has an absolute lightness or a base. *)
Definition wellFormed (defs : ColorMap) (def : ColorDef) : Prop :=
  (contrast def <> None -> hasBase def) /\
  (forall p v, lightness def = Some p -> pairNormal p = Rel v -> hasBase def) /\
  (forall b, base def = Some b -> b <> "" -> b ∈ keys defs) /\
  ((exists p v, lightness def = Some p /\ pairNormal p = Num v) \/ base def <> None).

(** [a] comes before [b] in the list. *)
Definition precedes (order : list string) (a b : string) : Prop :=
  exists l1 l2, order = l1 ++ b :: l2 /\ a ∈ l1.

(** What [visit] keeps of [(visited, result)]: [result] lists names once,
    all of them visited and declared, each after the base it follows. *)
Definition topologicallySorted (defs : ColorMap) (visited : gset string)
    (result : list string) : Prop :=
  NoDup result /\
  (forall x, x ∈ result -> x ∈ visited /\ x ∈ (list_to_set (keys defs) : gset string)) /\
  (forall x b, x ∈ result -> followedEdge defs x b -> precedes result b x).

(** ** The resolution engine *)

(** [isRoot] of [resolveColorForScheme]. *)
Definition isRoot (def : ColorDef) : bool :=
  isAbsoluteLightness (lightness def) && negb (truthy (base def)).

(** Every colour that is no root has a base that comes before it. *)
Definition basesFirst (defs : ColorMap) (order : list string) : Prop :=
  forall l1 x l2 def, order = l1 ++ x :: l2 -> lookupDef defs x = Some def ->
    isRoot def = false -> exists b, base def = Some b /\ b ∈ l1.

(** Every colour is a root or follows its base: none has both an absolute
    lightness and a base, and no base is the empty string. *)
Definition rootsAndFollowers (defs : ColorMap) : Prop :=
  forall x def, lookupDef defs x = Some def ->
    isRoot def = true \/ exists b, followedBase def = Some b.

(** The two halves of a pair, where there is one, are equal. *)
Definition samePair {T : Type} (o : option (HCPair T)) : Prop :=
  forall p, o = Some p -> pairHC p = pairNormal p.

(** What a root colour resolves to for a scheme: its lightness (the half
    of the pair for the contrast level, read as a number) clamped to
    [0, 100], its saturation factor clamped to [0, 1] times the seed
    saturation, both dark-mapped for a dark scheme, then brought to the
    unit range. *)
Definition rootVariant (cfg : GlazeConfig) (seedHue seedSaturation : Qc) (def : ColorDef)
    (isDark isHighContrast : bool) : ResolvedColorVariant :=
  let l :=
    match lightness def with
    | Some p =>
        match (if isHighContrast then pairHC p else pairNormal p) with
        | Num v | Rel v => clamp v 0 (qc 100 1)
        end
    | None => 0
    end in
  let s := (clamp (default 1 (saturation def)) 0 1 * seedSaturation) / qc 100 1 in
  {| v_h := resolveEffectiveHue seedHue (hue def);
     v_s := clamp (if isDark then mapSaturationDark cfg s (modeOf def) else s) 0 1;
     v_l := clamp ((if isDark then mapLightnessDark cfg l (modeOf def) else l) / qc 100 1) 0 1 |}.

Section EngineVocabulary.
Context `{ColorMath}.

(** What an evaluating pass leaves: for each colour of the order, the
    variant it recorded is the one the colour resolves to in the context
    the pass ends with, and that context holds it under the colour's
    name. *)
Definition passDone (cfg : GlazeConfig) (hue saturation : Qc) (defs : ColorMap)
    (d h : bool) (done : list string)
    (st : gmap string ResolvedColorVariant * gmap string ResolvedColor) : Prop :=
  (forall x, is_Some (st.1 !! x) -> x ∈ done) /\
  forall x, x ∈ done ->
    exists def v e, lookupDef defs x = Some def /\ st.1 !! x = Some v /\
      st.2 !! x = Some e /\ variantFor e d h = v /\
      eval (resolveColorForScheme cfg x def (mkContext hue saturation defs st.2) d h)
        = Returned v.

(** The contrast ratio the solver measures between a candidate variant
    and a base variant: the candidate's luminance is taken at its
    lightness rounded to four decimals. *)
Definition contrastBetween (v vb : ResolvedColorVariant) : Qc :=
  contrastRatioFromLuminance
    (luminanceOf (v_h v) (v_s v) (round4 (v_l v)))
    (relativeLuminanceFromLinearRgb (okhslToLinearSrgb (v_h vb) (v_s vb) (v_l vb))).

End EngineVocabulary.

(** ** Further inputs *)

(** [{ surface: { lightness: 97 }, border: { base: 'surface', lightness: '-10' } }]. *)
Definition surfaceAndBorder : ColorMap :=
  [("surface", rootDef (qc 97 1));
   ("border", dependentDef "surface" (Rel (qc (-10) 1)))].

(** [{ surface: { lightness: 97 },
       text: { base: 'surface', lightness: '-52', contrast: 'AAA' } }]. *)
Definition surfaceAndRelativeText : ColorMap :=
  [("surface", rootDef (qc 97 1));
   ("text", {| lightness := Some (Single (Rel (qc (-52) 1))); saturation := None;
               hue := None; base := Some "surface";
               contrast := Some (Single (Preset AAA)); mode := None |})].

(** [{ lightness: 52, mode: 'static' }]. *)
Definition staticDef : ColorDef :=
  {| lightness := Some (Single (Num (qc 52 1))); saturation := None; hue := None;
     base := None; contrast := None; mode := Some static |}.

(** Another dark window than the default. *)
Definition narrowConfig : GlazeConfig :=
  {| darkLightness := (qc 20 1, qc 80 1); darkDesaturation := qc 2 10 |}.

(** ** Hue overrides *)

(** The integer [k], as a number. *)
Definition ofZ (k : Z) : Qc := Q2Qc (inject_Z k).

(** What a hue override asks for, before it is brought into [0, 360): the
    number itself, or the seed hue plus the relative value. *)
Definition requestedHue (seedHue : Qc) (d : NumberOrRelative) : Qc :=
  match d with
  | Num v => v
  | Rel v => seedHue + v
  end.

(** ** The standalone colour token (glaze.ts, [createColorToken]) *)

(** [GlazeColorInput] (types.ts): the input of [glaze.color]. *)
Record GlazeColorInput : Type := mkColorInput {
  ci_hue : Qc;
  ci_saturation : Qc;
  ci_lightness : HCPair Qc;
  ci_saturationFactor : option Qc;
  ci_mode : option AdaptationMode
}.

(** A pair of numbers, as a pair of [number | RelativeValue]. *)
Definition asAbsolute (p : HCPair Qc) : HCPair NumberOrRelative :=
  match p with
  | Single v => Single (Num v)
  | Both n hc => Both (Num n) (Num hc)
  end.

(** [colorDef] and [defs] of [createColorToken]. *)
Definition colorTokenDef (input : GlazeColorInput) : ColorDef :=
  {| lightness := Some (asAbsolute (ci_lightness input));
     saturation := ci_saturationFactor input;
     hue := None; base := None; contrast := None;
     mode := ci_mode input |}.

Definition colorTokenDefs (input : GlazeColorInput) : ColorMap :=
  [("__color__", colorTokenDef input)].

Section ColorToken.
Context `{ColorMath}.

(** [resolve()] of the token [createColorToken] returns: the entry of
    ['__color__'], [undefined] were there none. *)
Definition colorTokenResolve (cfg : GlazeConfig) (input : GlazeColorInput)
  : Prog (option ResolvedColor) :=
  resolved ← resolveAllColors cfg (ci_hue input) (ci_saturation input) (colorTokenDefs input);
  mret (resolved !! "__color__").

End ColorToken.

(** ** The theme's readers, [extend] and [glaze.from] *)

(** The names every object inherits from [Object.prototype]; [name in obj]
    and [obj[name]] see them too. *)
Definition Object_prototype : list string :=
  ["constructor"; "__defineGetter__"; "__defineSetter__"; "hasOwnProperty";
   "__lookupGetter__"; "__lookupSetter__"; "isPrototypeOf"; "propertyIsEnumerable";
   "toString"; "valueOf"; "__proto__"; "toLocaleString"].

(** The definitions the theme holds. *)
Definition definitions (st : Theme * gmap positive Obj) : ColorMap :=
  entriesAt st.2 (colorDefs st.1).

(** [has(name)]: [name in colorDefs]. *)
Definition has (name : string) (st : Theme * gmap positive Obj) : bool :=
  bool_decide (name ∈ keys (definitions st)) || bool_decide (name ∈ Object_prototype).

(** [list()]: [Object.keys(colorDefs)]. *)
Definition listNames (st : Theme * gmap positive Obj) : list string :=
  keys (definitions st).

(** What [colorDefs[name]] evaluates to: a definition of the theme, a
    member of [Object.prototype], or [undefined]. *)
Inductive PropertyValue : Type :=
| OwnValue (def : ColorDef)
| InheritedValue
| UndefinedValue.

(** [color(name)], the getter. *)
Definition getColor (name : string) (st : Theme * gmap positive Obj) : PropertyValue :=
  match lookupDef (definitions st) name with
  | Some def => OwnValue def
  | None => if bool_decide (name ∈ Object_prototype) then InheritedValue else UndefinedValue
  end.

Record GlazeExtendOptions : Type := mkExtendOptions {
  x_hue : option Qc;
  x_saturation : option Qc;
  x_colors : option ColorMap
}.

(** [extend(options)]: the new theme, and the heap. *)
Definition extend (options : GlazeExtendOptions) (st : Theme * gmap positive Obj)
  : Theme * gmap positive Obj :=
  let '(theme, heap) := st in
  let newHue := default (t_hue theme) (x_hue options) in
  let newSat := default (t_saturation theme) (x_saturation options) in
  let '(mergedColors, heap1) :=
    alloc (ColorMapObj
             match x_colors options with
             | Some cs => spread (entriesAt heap (colorDefs theme)) cs
             | None => spread [] (entriesAt heap (colorDefs theme))
             end) heap in
  createTheme newHue newSat (Some (entriesAt heap1 mergedColors)) heap1.

(** [glaze.from(data)], of an export object. *)
Definition from (heap : gmap positive Obj) (data : positive)
  : option (Theme * gmap positive Obj) :=
  match readExport heap data with
  | Some (h, s, cs) => Some (createTheme h s (Some cs) heap)
  | None => None
  end.

(** A theme as a program makes it: created, then written to by calls. *)
Definition madeBy (hue saturation : Qc) (initialColors : option ColorMap)
    (heap0 : gmap positive Obj) (cs : list ThemeCall) : Theme * gmap positive Obj :=
  calls cs (createTheme hue saturation initialColors heap0).

Section ThemeResolve.
Context `{ColorMath}.

(** [resolve()] of a theme. *)
Definition resolve (cfg : GlazeConfig) (st : Theme * gmap positive Obj)
  : Prog (gmap string ResolvedColor) :=
  resolveAllColors cfg (t_hue st.1) (t_saturation st.1) (definitions st).

End ThemeResolve.

(** ** Token export (glaze.ts, token formatting) *)

Inductive GlazeColorFormat : Type := okhsl | rgb | hsl | oklch.

(** [Required<GlazeOutputModes>]. *)
Record GlazeOutputModes : Type := mkModes {
  m_dark : bool;
  m_highContrast : bool
}.

(** [GlazeOutputModes], each field optional. *)
Record GlazeOutputModesOverride : Type := mkModesOverride {
  om_dark : option bool;
  om_highContrast : option bool
}.

(** The state aliases, [{ dark: string; highContrast: string }]. *)
Record StateAliases : Type := mkStates {
  s_dark : string;
  s_highContrast : string
}.

(** [resolveModes], over [globalConfig.modes]. *)
Definition resolveModes (globalModes : GlazeOutputModes)
    (override : option GlazeOutputModesOverride) : GlazeOutputModes :=
  {| m_dark := default (m_dark globalModes) (override ≫= om_dark);
     m_highContrast := default (m_highContrast globalModes) (override ≫= om_highContrast) |}.

(** [result[a][b]], [undefined] where either is missing. *)
Definition at2 (result : gmap string (gmap string string)) (a b : string) : option string :=
  result !! a ≫= (.!! b).

(** The colour a [Map] holds under a key: the one set last. *)
Definition lastOf (resolved : list (string * ResolvedColor)) (name : string)
  : option ResolvedColor :=
  foldl (fun acc nc => if String.eqb nc.1 name then Some nc.2 else acc) None resolved.

(** The variant a key of an export names, where the modes include it. *)
Definition selected (modes : GlazeOutputModes) (variant : string)
  : option (ResolvedColor -> ResolvedColorVariant) :=
  if String.eqb variant "light" then Some light
  else if String.eqb variant "dark" then
    if m_dark modes then Some dark else None
  else if String.eqb variant "lightContrast" then
    if m_highContrast modes then Some lightContrast else None
  else if String.eqb variant "darkContrast" then
    if m_dark modes && m_highContrast modes then Some darkContrast else None
  else None.

Section Tokens.
(** The formatters of [okhsl-color-math], by format. *)
Variable formatters : GlazeColorFormat -> Qc -> Qc -> Qc -> string.

Definition formatVariant (v : ResolvedColorVariant) (format : option GlazeColorFormat)
  : string :=
  formatters (default okhsl format) (v_h v) (v_s v * qc 100 1) (v_l v * qc 100 1).

(** The loops run over the entries of the [Map], in its order; the
    objects they build are read by key. *)
Definition buildTokenMap (resolved : list (string * ResolvedColor)) (prefix : string)
    (states : StateAliases) (modes : GlazeOutputModes) (format : option GlazeColorFormat)
  : gmap string (gmap string string) :=
  foldl (fun tokens nc =>
    let key := "#" +:+ prefix +:+ nc.1 in
    let entry : gmap string string := {[ "" := formatVariant (light nc.2) format ]} in
    let entry :=
      if m_dark modes then <[s_dark states := formatVariant (dark nc.2) format]> entry
      else entry in
    let entry :=
      if m_highContrast modes
      then <[s_highContrast states := formatVariant (lightContrast nc.2) format]> entry
      else entry in
    let entry :=
      if m_dark modes && m_highContrast modes
      then <[s_dark states +:+ " & " +:+ s_highContrast states :=
               formatVariant (darkContrast nc.2) format]> entry
      else entry in
    <[key := entry]> tokens) ∅ resolved.

Definition buildFlatTokenMap (resolved : list (string * ResolvedColor)) (prefix : string)
    (modes : GlazeOutputModes) (format : option GlazeColorFormat)
  : gmap string (gmap string string) :=
  let result : gmap string (gmap string string) := {[ "light" := ∅ ]} in
  let result := if m_dark modes then <["dark" := ∅]> result else result in
  let result := if m_highContrast modes then <["lightContrast" := ∅]> result else result in
  let result :=
    if m_dark modes && m_highContrast modes then <["darkContrast" := ∅]> result
    else result in
  foldl (fun result nc =>
    let key := prefix +:+ nc.1 in
    let result := alter (insert key (formatVariant (light nc.2) format)) "light" result in
    let result :=
      if m_dark modes
      then alter (insert key (formatVariant (dark nc.2) format)) "dark" result
      else result in
    let result :=
      if m_highContrast modes
      then alter (insert key (formatVariant (lightContrast nc.2) format)) "lightContrast" result
      else result in
    let result :=
      if m_dark modes && m_highContrast modes
      then alter (insert key (formatVariant (darkContrast nc.2) format)) "darkContrast" result
      else result in
    result) result resolved.

Definition buildJsonMap (resolved : list (string * ResolvedColor))
    (modes : GlazeOutputModes) (format : option GlazeColorFormat)
  : gmap string (gmap string string) :=
  foldl (fun result nc =>
    let entry : gmap string string := {[ "light" := formatVariant (light nc.2) format ]} in
    let entry :=
      if m_dark modes then <["dark" := formatVariant (dark nc.2) format]> entry else entry in
    let entry :=
      if m_highContrast modes
      then <["lightContrast" := formatVariant (lightContrast nc.2) format]> entry
      else entry in
    let entry :=
      if m_dark modes && m_highContrast modes
      then <["darkContrast" := formatVariant (darkContrast nc.2) format]> entry
      else entry in
    <[nc.1 := entry]> result) ∅ resolved.

(** What a variant key reads of a colour. *)
Definition formatted (modes : GlazeOutputModes) (format : option GlazeColorFormat)
    (variant : string) (c : ResolvedColor) : option string :=
  (fun pick : ResolvedColor -> ResolvedColorVariant => formatVariant (pick c) format)
    <$> selected modes variant.

(** The colour a key of a flat map was last written for. *)
Definition keyed (prefix : string) (resolved : list (string * ResolvedColor)) (key : string)
  : option ResolvedColor :=
  foldl (fun acc nc => if String.eqb (prefix +:+ nc.1) key then Some nc.2 else acc)
        None resolved.

(** What the loop of [buildFlatTokenMap] keeps: the variants the modes
    include are there, each holding under every key the colour last
    written for it. *)
Definition flatDone (modes : GlazeOutputModes) (format : option GlazeColorFormat)
    (prefix : string) (resolved : list (string * ResolvedColor))
    (result : gmap string (gmap string string)) : Prop :=
  forall variant,
    match selected modes variant with
    | Some pick =>
        exists inner, result !! variant = Some inner /\
          forall key, inner !! key =
            (fun c => formatVariant (pick c) format) <$> keyed prefix resolved key
    | None => result !! variant = None
    end.

End Tokens.

(** ** The global configuration (glaze.ts, [configure]) *)

(** [GlazeConfigResolved]: the part the engine reads, the state aliases
    and the output modes. *)
Record GlazeConfigResolved : Type := mkConfigResolved {
  g_engine : GlazeConfig;
  g_states : StateAliases;
  g_modes : GlazeOutputModes
}.

(** The [states] of a [GlazeConfig], each alias optional. *)
Record StateAliasesOverride : Type := mkStatesOverride {
  so_dark : option string;
  so_highContrast : option string
}.

(** [GlazeConfig] (types.ts): what [configure] is given, every field
    optional. *)
Record GlazeConfigInput : Type := mkConfigInput {
  i_darkLightness : option (Qc * Qc);
  i_darkDesaturation : option Qc;
  i_states : option StateAliasesOverride;
  i_modes : option GlazeOutputModesOverride
}.

(** [configure(config)]: the new [globalConfig], from the current one. *)
Definition configure (config : GlazeConfigInput) (globalConfig : GlazeConfigResolved)
  : GlazeConfigResolved :=
  {| g_engine :=
       {| darkLightness :=
            default (darkLightness (g_engine globalConfig)) (i_darkLightness config);
          darkDesaturation :=
            default (darkDesaturation (g_engine globalConfig)) (i_darkDesaturation config) |};
     g_states :=
       {| s_dark := default (s_dark (g_states globalConfig)) (i_states config ≫= so_dark);
          s_highContrast :=
            default (s_highContrast (g_states globalConfig))
                    (i_states config ≫= so_highContrast) |};
     g_modes :=
       {| m_dark := default (m_dark (g_modes globalConfig)) (i_modes config ≫= om_dark);
          m_highContrast :=
            default (m_highContrast (g_modes globalConfig))
                    (i_modes config ≫= om_highContrast) |} |}.

(** The first of two optional values that is given: [a ?? b]. *)
Definition orElse {A : Type} (a b : option A) : option A :=
  match a with
  | Some v => Some v
  | None => b
  end.

(** Two configurations in one: each field is [later]'s where it gives
    one, else [earlier]'s. *)
Definition overlay (earlier later : GlazeConfigInput) : GlazeConfigInput :=
  {| i_darkLightness := orElse (i_darkLightness later) (i_darkLightness earlier);
     i_darkDesaturation := orElse (i_darkDesaturation later) (i_darkDesaturation earlier);
     i_states :=
       Some {| so_dark := orElse (i_states later ≫= so_dark) (i_states earlier ≫= so_dark);
               so_highContrast :=
                 orElse (i_states later ≫= so_highContrast)
                        (i_states earlier ≫= so_highContrast) |};
     i_modes :=
       Some {| om_dark := orElse (i_modes later ≫= om_dark) (i_modes earlier ≫= om_dark);
               om_highContrast :=
                 orElse (i_modes later ≫= om_highContrast)
                        (i_modes earlier ≫= om_highContrast) |} |}.

(** ** Inputs of the theme and of the token export *)

(** A formatter to run the builders with: it tells the lighter half from
    the darker. *)
Definition plainFormatters : GlazeColorFormat -> Qc -> Qc -> Qc -> string :=
  fun _ _ _ l => if l <? qc 50 1 then "dim" else "bright".

Definition greyVariant (l : Qc) : ResolvedColorVariant :=
  {| v_h := 0; v_s := 0; v_l := l |}.

Definition surfaceResolved : ResolvedColor :=
  {| rc_name := "surface"; light := greyVariant (qc 97 100);
     dark := greyVariant (qc 12 100); lightContrast := greyVariant 1;
     darkContrast := greyVariant 0; rc_mode := auto |}.

Definition textResolved : ResolvedColor :=
  {| rc_name := "text"; light := greyVariant (qc 20 100);
     dark := greyVariant (qc 90 100); lightContrast := greyVariant 0;
     darkContrast := greyVariant 1; rc_mode := auto |}.

(** A [Map] of two resolved colours. *)
Definition twoResolved : list (string * ResolvedColor) :=
  [("surface", surfaceResolved); ("text", textResolved)].

(** The default state aliases and modes of [globalConfig]. *)
Definition defaultStates : StateAliases :=
  {| s_dark := "@dark"; s_highContrast := "@high-contrast" |}.

Definition defaultModes : GlazeOutputModes :=
  {| m_dark := true; m_highContrast := false |}.

(** [{ hue: 280, saturation: 80, lightness: [52, 40], mode: 'fixed' }]. *)
Definition accentInput : GlazeColorInput :=
  {| ci_hue := qc 280 1; ci_saturation := qc 80 1;
     ci_lightness := Both (qc 52 1) (qc 40 1);
     ci_saturationFactor := None; ci_mode := Some fixed |}.

(* ===================================================================== *)
(** * Arithmetic on canonical rationals *)
(* ===================================================================== *)

Lemma Qc_eq_Qeq (a b : Qc) : a = b <-> (this a == this b)%Q.
Proof. split; [intros ->; reflexivity | apply Qc_is_canon]. Qed.

Lemma this_Q2Qc (q : Q) : (this (Q2Qc q) == q)%Q.
Proof. apply Qred_correct. Qed.

Lemma this_qc (n : Z) (d : positive) : (this (qc n d) == n # d)%Q.
Proof. apply Qred_correct. Qed.

Lemma this_plus (a b : Qc) : (this (a + b) == this a + this b)%Q.
Proof. apply Qred_correct. Qed.

Lemma this_mult (a b : Qc) : (this (a * b) == this a * this b)%Q.
Proof. apply Qred_correct. Qed.

Lemma this_opp (a : Qc) : (this (- a) == - this a)%Q.
Proof. apply Qred_correct. Qed.

Lemma this_minus (a b : Qc) : (this (a - b) == this a - this b)%Q.
Proof. unfold Qcminus. rewrite this_plus, this_opp. reflexivity. Qed.

Lemma this_inv (a : Qc) : (this (/ a) == / this a)%Q.
Proof. apply Qred_correct. Qed.

Lemma this_div (a b : Qc) : (this (a / b) == this a / this b)%Q.
Proof. unfold Qcdiv. rewrite this_mult, this_inv. reflexivity. Qed.

(** Linear arithmetic over [Qc]: the goal and the hypotheses that compare
    numbers are restated over [Q] and given to [lra]. *)
Ltac qc_arith :=
  repeat match goal with
  | H : @eq Qc _ _ |- _ => apply Qc_eq_Qeq in H; revert H
  | H : ~ @eq Qc _ _ |- _ => rewrite Qc_eq_Qeq in H; revert H
  | H : Qcle _ _ |- _ => revert H
  | H : Qclt _ _ |- _ => revert H
  | H : ~ Qcle _ _ |- _ => revert H
  | H : ~ Qclt _ _ |- _ => revert H
  end;
  rewrite ?Qc_eq_Qeq;
  unfold Qcle, Qclt;
  repeat (rewrite this_plus || rewrite this_minus || rewrite this_mult ||
          rewrite this_div || rewrite this_opp || rewrite this_inv ||
          rewrite this_qc || rewrite this_Q2Qc);
  unfold Qdiv; cbn [Qinv Qnum Qden]; intros; lra.

Lemma Qc_ltb_spec (a b : Qc) : reflect (a < b) (a <? b).
Proof. unfold Qc_ltb. case_bool_decide; constructor; assumption. Qed.

Lemma Qc_leb_spec (a b : Qc) : reflect (a <= b) (a <=? b).
Proof. unfold Qc_leb. case_bool_decide; constructor; assumption. Qed.

Lemma Qc_ltb_lt (a b : Qc) : (a <? b) = true <-> a < b.
Proof. unfold Qc_ltb. apply bool_decide_eq_true. Qed.

Lemma Qc_leb_le (a b : Qc) : (a <=? b) = true <-> a <= b.
Proof. unfold Qc_leb. apply bool_decide_eq_true. Qed.

Lemma Qc_ltb_ge (a b : Qc) : (a <? b) = false <-> b <= a.
Proof.
  unfold Qc_ltb. rewrite bool_decide_eq_false. split; intros Hab.
  - apply Qcnot_lt_le, Hab.
  - apply Qcle_not_lt, Hab.
Qed.

Lemma Qc_leb_gt (a b : Qc) : (a <=? b) = false <-> b < a.
Proof.
  unfold Qc_leb. rewrite bool_decide_eq_false. split; intros Hab.
  - apply Qcnot_le_lt, Hab.
  - apply Qclt_not_le, Hab.
Qed.

(** Turn the boolean comparisons of the context into propositions. *)
Ltac qc_bools :=
  repeat match goal with
  | H : (_ <? _) = true |- _ => apply Qc_ltb_lt in H
  | H : (_ <? _) = false |- _ => apply Qc_ltb_ge in H
  | H : (_ <=? _) = true |- _ => apply Qc_leb_le in H
  | H : (_ <=? _) = false |- _ => apply Qc_leb_gt in H
  end.

Lemma clamp_bounds (v lo hi : Qc) : lo <= hi -> lo <= clamp v lo hi /\ clamp v lo hi <= hi.
Proof.
  intros Hlh. unfold clamp, Math_max, Math_min.
  destruct (v <? hi) eqn:E1; destruct (lo <? _) eqn:E2; qc_bools; split; qc_arith.
Qed.

(* ===================================================================== *)
(** * Dark mapping *)
(* ===================================================================== *)

(** C6. With the default dark window [10, 90], [mapLightnessDark] returns
    [l] for mode static, [0.8 * l + 10] for mode fixed and
    [0.8 * (100 - l) + 10] for mode auto, for every lightness [l]. *)
Theorem C6_mapLightnessDark_default_window (l : Qc) :
  mapLightnessDark defaultConfig l static = l /\
  mapLightnessDark defaultConfig l fixed = qc 8 10 * l + qc 10 1 /\
  mapLightnessDark defaultConfig l auto = qc 8 10 * (qc 100 1 - l) + qc 10 1.
Proof.
  unfold mapLightnessDark, defaultConfig; cbn [darkLightness].
  repeat split; qc_arith.
Qed.

(* ===================================================================== *)
(** * The cache is transparent *)
(* ===================================================================== *)

Section CacheTransparency.
Context `{ColorMath}.

Lemma run_bind {A B : Type} (p : Prog A) (f : A -> Prog B) (c : Cache) :
  run (p ≫= f) c =
  match run p c with
  | (Returned a, c') => run (f a) c'
  | (Thrown e, c') => (Thrown e, c')
  end.
Proof.
  unfold mbind, Prog_bind. revert c.
  induction p as [a | e | h s l k IH]; intros c; cbn; try reflexivity.
  destruct (cachedLuminance h s l c) as [y c']. apply IH.
Qed.

Lemma eval_bind {A B : Type} (p : Prog A) (f : A -> Prog B) :
  eval (p ≫= f) =
  match eval p with
  | Returned a => eval (f a)
  | Thrown e => Thrown e
  end.
Proof.
  unfold mbind, Prog_bind.
  induction p as [a | e | h s l k IH]; cbn; try reflexivity. apply IH.
Qed.

Lemma coherent_empty : coherent emptyCache.
Proof. intros h s l y Hy. cbn in Hy. rewrite lookup_empty in Hy. discriminate. Qed.

Lemma coherent_insert (m : gmap (Qc * Qc * Qc) Qc) (o o' : list (Qc * Qc * Qc)) h s l :
  coherent (mkCache m o) ->
  coherent (mkCache (<[(h, s, l) := luminanceOf h s l]> m) o').
Proof.
  intros Hc h' s' l' y. cbn. rewrite lookup_insert. case_decide as Hk.
  - intros [= <-]. congruence.
  - apply (Hc h' s' l' y).
Qed.

Lemma coherent_delete (m : gmap (Qc * Qc * Qc) Qc) (o o' : list (Qc * Qc * Qc)) k :
  coherent (mkCache m o) -> coherent (mkCache (delete k m) o').
Proof.
  intros Hc h s l y. cbn. intros Hy.
  apply lookup_delete_Some in Hy as [_ Hy]. apply (Hc h s l y Hy).
Qed.

(** A lookup in a coherent cache gives the luminance at the rounded
    lightness, hit or miss, and leaves the cache coherent. *)
Lemma cachedLuminance_coherent (h s l : Qc) (c : Cache) :
  coherent c ->
  (cachedLuminance h s l c).1 = luminanceOf h s (round4 l) /\
  coherent (cachedLuminance h s l c).2.
Proof.
  intros Hc. unfold cachedLuminance.
  destruct (luminanceCache c !! (h, s, round4 l)) as [y |] eqn:Hhit; cbn.
  - split; [apply (Hc _ _ _ _ Hhit) | exact Hc].
  - split; [reflexivity |].
    destruct c as [m o]. case_bool_decide; cbn.
    + destruct o as [| evict rest]; cbn.
      * apply coherent_insert with (o := []), Hc.
      * apply coherent_insert with (o := rest).
        apply coherent_delete with (o := evict :: rest), Hc.
    + apply coherent_insert with (o := o), Hc.
Qed.

(** Over a coherent cache a program computes what it computes with no
    cache, and leaves the cache coherent. *)
Lemma run_eval {A : Type} (p : Prog A) (c : Cache) :
  coherent c -> (run p c).1 = eval p /\ coherent (run p c).2.
Proof.
  revert c. induction p as [a | e | h s l k IH]; intros c Hc; cbn; auto.
  destruct (cachedLuminance_coherent h s l c Hc) as [Hy Hc'].
  destruct (cachedLuminance h s l c) as [y c']. cbn in Hy, Hc'. subst y.
  apply IH, Hc'.
Qed.

Lemma reachable_coherent (c : Cache) : reachable c -> coherent c.
Proof.
  induction 1 as [| h s l c _ IH]; [apply coherent_empty |].
  apply cachedLuminance_coherent, IH.
Qed.

(** Running a program keeps the cache among the reachable ones. *)
Lemma run_reachable {A : Type} (p : Prog A) (c : Cache) :
  reachable c -> reachable (run p c).2.
Proof.
  revert c. induction p as [a | e | h s l k IH]; intros c Hc; cbn; auto.
  pose proof (reachable_lookup h s l c Hc) as Hc'.
  destruct (cachedLuminance h s l c) as [y c']. apply IH, Hc'.
Qed.

(** C7. Two [resolve] calls with the same seed, colour map and
    configuration return equal results whatever the luminance cache holds
    when they are called: the outcome does not depend on the cache. *)
Theorem C7_resolve_independent_of_cache (cfg : GlazeConfig) (hue saturation : Qc)
    (defs : ColorMap) (c1 c2 : Cache) :
  reachable c1 -> reachable c2 ->
  (run (resolveAllColors cfg hue saturation defs) c1).1 =
  (run (resolveAllColors cfg hue saturation defs) c2).1.
Proof.
  intros H1 H2.
  destruct (run_eval (resolveAllColors cfg hue saturation defs) c1) as [-> _];
    [apply reachable_coherent, H1 |].
  destruct (run_eval (resolveAllColors cfg hue saturation defs) c2) as [-> _];
    [apply reachable_coherent, H2 |].
  reflexivity.
Qed.

End CacheTransparency.

Lemma C7_witness :
  @reachable greyMath emptyCache /\
  @reachable greyMath (@cachedLuminance greyMath 0 0 (qc 1 2) emptyCache).2 /\
  (@run greyMath _ (@resolveAllColors greyMath defaultConfig 0 0 surfaceAndText) emptyCache).1 =
  (@run greyMath _ (@resolveAllColors greyMath defaultConfig 0 0 surfaceAndText)
     (@cachedLuminance greyMath 0 0 (qc 1 2) emptyCache).2).1.
Proof.
  assert (H0 : @reachable greyMath emptyCache) by constructor.
  assert (H1 : @reachable greyMath (@cachedLuminance greyMath 0 0 (qc 1 2) emptyCache).2)
    by (constructor; exact H0).
  split; [exact H0 |]. split; [exact H1 |].
  exact (@C7_resolve_independent_of_cache greyMath defaultConfig 0 0 surfaceAndText _ _ H0 H1).
Defined.

(* ===================================================================== *)
(** * The export of a theme is a snapshot *)
(* ===================================================================== *)

Lemma alloc_fresh (o : Obj) (heap : gmap positive Obj) :
  (alloc o heap).1 ∉ dom heap.
Proof. unfold alloc; cbn. apply is_fresh. Qed.

Lemma alloc_lookup_new (o : Obj) (heap : gmap positive Obj) :
  (alloc o heap).2 !! (alloc o heap).1 = Some o.
Proof. unfold alloc; cbn. apply lookup_insert_eq. Qed.

Lemma alloc_lookup_old (o : Obj) (heap : gmap positive Obj) (a : positive) :
  a ∈ dom heap -> (alloc o heap).2 !! a = heap !! a.
Proof.
  intros Ha. unfold alloc; cbn. apply lookup_insert_ne.
  intros <-. exact (is_fresh (dom heap) Ha).
Qed.

Lemma alloc_dom (o : Obj) (heap : gmap positive Obj) (a : positive) :
  a ∈ dom heap -> a ∈ dom (alloc o heap).2.
Proof. intros Ha. unfold alloc; cbn. rewrite dom_insert. set_solver. Qed.

Lemma alloc_new_dom (o : Obj) (heap : gmap positive Obj) :
  (alloc o heap).1 ∈ dom (alloc o heap).2.
Proof. unfold alloc; cbn. rewrite dom_insert. set_solver. Qed.

#[local] Arguments alloc : simpl never.

(** A call leaves every object apart from the theme's own as it was, and
    keeps it apart. *)
Lemma call_frame (c : ThemeCall) (st : Theme * gmap positive Obj) (a : positive) :
  apartFrom a st ->
  apartFrom a (call c st) /\ (call c st).2 !! a = st.2 !! a.
Proof.
  destruct st as [theme heap]. intros [Ha Hne]; cbn in Ha, Hne.
  destruct c as [defs | name def | names |]; cbn.
  - pose proof (alloc_fresh (ColorMapObj (spread (entriesAt heap (colorDefs theme)) defs)) heap) as Hf.
    pose proof (alloc_lookup_old (ColorMapObj (spread (entriesAt heap (colorDefs theme)) defs)) heap a Ha) as Hl.
    pose proof (alloc_dom (ColorMapObj (spread (entriesAt heap (colorDefs theme)) defs)) heap a Ha) as Hd.
    destruct (alloc _ heap) as [b heap']; cbn in *.
    repeat split; [exact Hd | cbn; intros <-; exact (Hf Ha) | exact Hl].
  - repeat split; cbn.
    + rewrite dom_insert. set_solver.
    + exact Hne.
    + apply lookup_insert_ne. congruence.
  - repeat split; cbn.
    + rewrite dom_insert. set_solver.
    + exact Hne.
    + apply lookup_insert_ne. congruence.
  - pose proof (alloc_fresh (ColorMapObj []) heap) as Hf.
    pose proof (alloc_lookup_old (ColorMapObj []) heap a Ha) as Hl.
    pose proof (alloc_dom (ColorMapObj []) heap a Ha) as Hd.
    destruct (alloc _ heap) as [b heap']; cbn in *.
    repeat split; [exact Hd | cbn; intros <-; exact (Hf Ha) | exact Hl].
Qed.

Lemma calls_frame (cs : list ThemeCall) (st : Theme * gmap positive Obj) (a : positive) :
  apartFrom a st -> (calls cs st).2 !! a = st.2 !! a.
Proof.
  revert st. induction cs as [| c cs IH]; intros st Ha; [reflexivity |].
  cbn. destruct (call_frame c st a Ha) as [Ha' Hl].
  unfold calls in IH. rewrite (IH _ Ha'). exact Hl.
Qed.

Lemma call_allocated (c : ThemeCall) (st : Theme * gmap positive Obj) :
  themeAllocated st ->
  themeAllocated (call c st) /\
  t_hue (call c st).1 = t_hue st.1 /\ t_saturation (call c st).1 = t_saturation st.1.
Proof.
  destruct st as [theme heap]. unfold themeAllocated; cbn. intros Ht.
  destruct c as [defs | name def | names |]; cbn.
  - pose proof (alloc_new_dom (ColorMapObj (spread (entriesAt heap (colorDefs theme)) defs)) heap) as Hn.
    destruct (alloc _ heap) as [b heap']; cbn in *. auto.
  - rewrite dom_insert. split; [set_solver | auto].
  - rewrite dom_insert. split; [set_solver | auto].
  - pose proof (alloc_new_dom (ColorMapObj []) heap) as Hn.
    destruct (alloc _ heap) as [b heap']; cbn in *. auto.
Qed.

Lemma calls_allocated (cs : list ThemeCall) (st : Theme * gmap positive Obj) :
  themeAllocated st ->
  themeAllocated (calls cs st) /\
  t_hue (calls cs st).1 = t_hue st.1 /\ t_saturation (calls cs st).1 = t_saturation st.1.
Proof.
  revert st. induction cs as [| c cs IH]; intros st Ht; [auto |].
  cbn. destruct (call_allocated c st Ht) as (Ht' & Hh & Hs).
  unfold calls in IH. destruct (IH _ Ht') as (Ht'' & Hh' & Hs').
  repeat split; [exact Ht'' | congruence | congruence].
Qed.

Lemma createTheme_allocated (hue saturation : Qc) (initialColors : option ColorMap)
    (heap : gmap positive Obj) :
  themeAllocated (createTheme hue saturation initialColors heap) /\
  t_hue (createTheme hue saturation initialColors heap).1 = hue /\
  t_saturation (createTheme hue saturation initialColors heap).1 = saturation.
Proof.
  unfold createTheme, themeAllocated.
  pose proof (alloc_new_dom (ColorMapObj (spread [] (default [] initialColors))) heap) as Hn.
  destruct (alloc _ heap) as [a heap']; cbn in *. auto.
Qed.

(** C10. The object [export()] returns is a snapshot: whatever calls of
    [colors], [color], [remove] and [reset] follow on the theme, its hue,
    its saturation and the entries of its [colors] stay what they were when
    [export()] returned, namely the theme's seed and a copy of its
    definitions at that moment. *)
Theorem C10_export_is_snapshot (hue saturation : Qc) (initialColors : option ColorMap)
    (heap0 : gmap positive Obj) (before after : list ThemeCall) :
  let st := calls before (createTheme hue saturation initialColors heap0) in
  let exported := export st in
  let snapshot := (hue, saturation, spread [] (entriesAt st.2 (colorDefs st.1))) in
  readExport exported.2 exported.1 = Some snapshot /\
  readExport (calls after (st.1, exported.2)).2 exported.1 = Some snapshot.
Proof.
  intros st exported snapshot.
  destruct (createTheme_allocated hue saturation initialColors heap0) as (Ht0 & Hh0 & Hs0).
  destruct (calls_allocated before _ Ht0) as (Ht & Hh & Hs).
  fold st in Ht, Hh, Hs. rewrite Hh0 in Hh. rewrite Hs0 in Hs.
  subst exported snapshot. destruct st as [theme heap]. cbn in *.
  unfold themeAllocated in Ht; cbn in Ht. unfold export.
  set (o1 := ColorMapObj (spread [] (entriesAt heap (colorDefs theme)))).
  pose proof (alloc_fresh o1 heap) as Hf1.
  pose proof (alloc_lookup_new o1 heap) as Hn1.
  pose proof (alloc_new_dom o1 heap) as Hd1.
  pose proof (alloc_dom o1 heap _ Ht) as Hdt.
  destruct (alloc o1 heap) as [c heap1]; cbn in *.
  set (o2 := ExportObj (t_hue theme) (t_saturation theme) c).
  pose proof (alloc_fresh o2 heap1) as Hf2.
  pose proof (alloc_lookup_new o2 heap1) as Hn2.
  pose proof (alloc_new_dom o2 heap1) as Hd2.
  pose proof (alloc_lookup_old o2 heap1 c Hd1) as Ho2.
  pose proof (alloc_dom o2 heap1 c Hd1) as Hdc.
  pose proof (alloc_dom o2 heap1 _ Hdt) as Hdt2.
  destruct (alloc o2 heap1) as [e heap2]; cbn in *.
  assert (Hread : readExport heap2 e =
                  Some (hue, saturation, spread [] (entriesAt heap (colorDefs theme)))).
  { unfold readExport. rewrite Hn2. subst o2. cbn. rewrite Ho2, Hn1. subst o1.
    rewrite Hh, Hs. reflexivity. }
  split; [exact Hread |].
  assert (Hc : apartFrom c (theme, heap2)).
  { split; cbn; [exact Hdc | intros ->; exact (Hf1 Ht)]. }
  assert (He : apartFrom e (theme, heap2)).
  { split; cbn; [exact Hd2 | intros ->; exact (Hf2 Hdt)]. }
  unfold readExport in *.
  rewrite (calls_frame after _ e He). cbn [snd]. rewrite Hn2 in Hread |- *.
  subst o2. cbv beta iota in Hread |- *.
  rewrite (calls_frame after _ c Hc). exact Hread.
Qed.

(* ===================================================================== *)
(** * Validation: cycles *)
(* ===================================================================== *)

Lemma lookupDef_Some_elem (defs : ColorMap) (name : string) (def : ColorDef) :
  lookupDef defs name = Some def -> (name, def) ∈ defs.
Proof.
  induction defs as [| [k d] rest IH]; cbn; [discriminate |].
  destruct (String.eqb_spec k name) as [-> | Hne].
  - intros [= ->]. apply list_elem_of_here.
  - intros Hl. apply list_elem_of_further, IH, Hl.
Qed.

Lemma lookupDef_is_Some (defs : ColorMap) (name : string) :
  name ∈ keys defs -> is_Some (lookupDef defs name).
Proof.
  unfold keys. induction defs as [| [k d] rest IH]; cbn.
  - intros Hin. inversion Hin.
  - intros Hin. destruct (String.eqb_spec k name) as [-> | Hne]; [eauto |].
    apply IH. apply elem_of_cons in Hin as [-> | Hin]; [contradiction | exact Hin].
Qed.

Lemma lookupDef_keys (defs : ColorMap) (name : string) (def : ColorDef) :
  lookupDef defs name = Some def -> name ∈ keys defs.
Proof.
  intros Hl. apply lookupDef_Some_elem in Hl. unfold keys.
  apply list_elem_of_fmap. exists (name, def). auto.
Qed.

Lemma checkDefs_elem (names : gset string) (entries : ColorMap) (name : string)
    (def : ColorDef) :
  checkDefs names entries = Returned tt -> (name, def) ∈ entries ->
  checkDef names name def = Returned tt.
Proof.
  induction entries as [| [k d] rest IH]; cbn; intros Hc Hin; [inversion Hin |].
  destruct (checkDef names k d) as [[] |] eqn:Hk; [| discriminate].
  apply elem_of_cons in Hin as [[= -> ->] | Hin]; [exact Hk | apply IH; assumption].
Qed.

(** After the per-definition checks, a followed base is a declared name. *)
Lemma checkDef_followed (names : gset string) (name : string) (def : ColorDef) (b : string) :
  checkDef names name def = Returned tt -> followedBase def = Some b -> b ∈ names.
Proof.
  intros Hc Hf. unfold followedBase in Hf.
  destruct (truthy (base def)) eqn:Ht; [| discriminate].
  destruct (isAbsoluteLightness (lightness def)) eqn:Ha; [discriminate |].
  cbn in Hf. unfold checkDef in Hc. rewrite Ht, Ha, Hf in Hc.
  rewrite !andb_false_r in Hc. cbn in Hc.
  case_bool_decide as Hin; [exact Hin | discriminate].
Qed.

Lemma followedEdge_functional (defs : ColorMap) (a b b' : string) :
  followedEdge defs a b -> followedEdge defs a b' -> b = b'.
Proof. intros (d & Hd & Hb) (d' & Hd' & Hb'). congruence. Qed.

(** A name whose chain comes to an end lies on no cycle. *)
Lemma settles_no_cycle (defs : ColorMap) (name : string) :
  settles defs name -> ~ tc (followedEdge defs) name name.
Proof.
  induction 1 as [name def Hl Hf | name def b Hl Hf _ IH]; intros Hc.
  - assert (exists y, followedEdge defs name y) as [y (d & Hd & Hy)]
      by (inversion Hc; eauto).
    congruence.
  - apply IH.
    assert (Hnb : followedEdge defs name b) by (exists def; auto).
    assert (Hrt : rtc (followedEdge defs) b name).
    { inversion Hc as [? ? Hxy | ? y ? Hxy Hyz]; subst.
      - rewrite (followedEdge_functional _ _ _ _ Hnb Hxy). apply rtc_refl.
      - rewrite (followedEdge_functional _ _ _ _ Hnb Hxy). apply tc_rtc, Hyz. }
    eapply tc_rtc_l; [exact Hrt | apply tc_once, Hnb].
Qed.

Lemma size_list_to_set_le (l : list string) :
  (size (list_to_set l : gset string) <= length l)%nat.
Proof.
  induction l as [| x l IH]; cbn; [rewrite size_empty; lia |].
  rewrite size_union_alt, size_singleton.
  assert (Hs : (size ((list_to_set l : gset string) ∖ {[x]}) <= size (list_to_set l : gset string))%nat)
    by (apply subseteq_size; set_solver).
  lia.
Qed.

Section DepthFirst.
Variable defs : ColorMap.

(** After the per-definition checks every followed base is declared. *)
Hypothesis closed :
  forall name def b, lookupDef defs name = Some def -> followedBase def = Some b ->
    b ∈ keys defs.

Let declared : gset string := list_to_set (keys defs).

(** [dfs] on a declared name, with fuel for the names not yet on the
    stack: it returns a larger [visited] whose names all settle, the name
    among them, or it reports a cycle.  It does not run out of fuel. *)
Lemma dfs_spec (fuel : nat) :
  forall (name : string) (visited inStack : gset string),
    name ∈ declared -> inStack ⊆ declared ->
    (size (declared ∖ inStack) < fuel)%nat ->
    (forall x, x ∈ visited -> settles defs x) ->
    (exists visited', dfs defs fuel name visited inStack = Returned visited' /\
        name ∈ visited' /\ forall x, x ∈ visited' -> settles defs x) \/
    (exists m, dfs defs fuel name visited inStack = Thrown (CircularBase m)).
Proof.
  induction fuel as [| fuel IH]; intros name visited inStack Hn Hs Hfuel Hv; [lia |].
  cbn. case_bool_decide as Hstack; [right; eauto |].
  case_bool_decide as Hvis; [left; eauto |].
  assert (Hk : name ∈ keys defs) by (unfold declared in Hn; set_solver).
  destruct (lookupDef_is_Some defs name Hk) as [def Hdef]. rewrite Hdef.
  destruct (followedBase def) as [b |] eqn:Hb.
  - assert (Hlt : (size (declared ∖ ({[name]} ∪ inStack)) < size (declared ∖ inStack))%nat).
    { apply subset_size. split; [set_solver |].
      intros Hsub. specialize (Hsub name). set_solver. }
    destruct (IH b visited ({[name]} ∪ inStack)) as [(v' & Hr & Hin & Hall) | (m & Hr)].
    + pose proof (closed name def b Hdef Hb). unfold declared. set_solver.
    + set_solver.
    + lia.
    + exact Hv.
    + left. exists ({[name]} ∪ v'). rewrite Hr. split; [reflexivity |].
      split; [set_solver |]. intros x Hx.
      apply elem_of_union in Hx as [Hx | Hx]; [| auto].
      apply elem_of_singleton in Hx as ->.
      eapply settles_next; eauto.
    + right. exists m. rewrite Hr. reflexivity.
  - left. exists ({[name]} ∪ visited). split; [reflexivity |].
    split; [set_solver |]. intros x Hx.
    apply elem_of_union in Hx as [Hx | Hx]; [| auto].
    apply elem_of_singleton in Hx as ->.
    eapply settles_here; eauto.
Qed.

Lemma dfsAll_spec (fuel : nat) (names : list string) :
  forall visited : gset string,
    (forall x, x ∈ names -> x ∈ declared) ->
    (size declared < fuel)%nat ->
    (forall x, x ∈ visited -> settles defs x) ->
    (exists visited', dfsAll defs fuel names visited = Returned visited' /\
        forall x, x ∈ names -> settles defs x) \/
    (exists m, dfsAll defs fuel names visited = Thrown (CircularBase m)).
Proof.
  induction names as [| name rest IH]; intros visited Hd Hfuel Hv; cbn.
  - left. exists visited. split; [reflexivity |]. intros x Hx. inversion Hx.
  - destruct (dfs_spec fuel name visited ∅) as [(v' & Hr & Hin & Hall) | (m & Hr)].
    + apply Hd. apply list_elem_of_here.
    + set_solver.
    + replace (declared ∖ ∅) with declared by set_solver. exact Hfuel.
    + exact Hv.
    + rewrite Hr.
      destruct (IH v') as [(v'' & Hr' & Hall') | (m & Hr')].
      * intros x Hx. apply Hd. apply list_elem_of_further, Hx.
      * exact Hfuel.
      * exact Hall.
      * left. exists v''. split; [exact Hr' |]. intros x Hx.
        apply elem_of_cons in Hx as [-> | Hx]; auto.
      * right. eauto.
    + right. exists m. rewrite Hr. reflexivity.
Qed.

End DepthFirst.

Lemma definitionsChecked_closed (defs : ColorMap) :
  definitionsChecked defs ->
  forall name def b, lookupDef defs name = Some def -> followedBase def = Some b ->
    b ∈ keys defs.
Proof.
  intros Hc name def b Hl Hf.
  pose proof (checkDefs_elem _ _ _ _ Hc (lookupDef_Some_elem _ _ _ Hl)) as Hd.
  pose proof (checkDef_followed _ _ _ _ Hd Hf) as Hin. set_solver.
Qed.

(** A cycle of followed edges makes the search of [validateColorDefs]
    report a circular reference. *)
Lemma validateColorDefs_cycle (defs : ColorMap) (name : string) :
  definitionsChecked defs ->
  tc (followedEdge defs) name name ->
  exists m, validateColorDefs defs = Thrown (CircularBase m).
Proof.
  intros Hc Hcyc. unfold validateColorDefs. rewrite Hc.
  destruct (dfsAll_spec defs (definitionsChecked_closed defs Hc)
              (S (length defs)) (keys defs) ∅) as [(v & Hr & Hall) | (m & Hr)].
  - intros x Hx. set_solver.
  - pose proof (size_list_to_set_le (keys defs)) as Hs.
    unfold keys in *. rewrite length_fmap in Hs. lia.
  - intros x Hx. set_solver.
  - exfalso. apply (settles_no_cycle defs name); [| exact Hcyc].
    apply Hall.
    assert (exists y, followedEdge defs name y) as [y (d & Hd & _)]
      by (inversion Hcyc; eauto).
    eapply lookupDef_keys, Hd.
  - exists m. rewrite Hr. reflexivity.
Qed.

(** The depth bound of the model is never met: neither search throws
    [StackOverflow]. *)
Lemma checkDefs_no_overflow (names : gset string) (entries : ColorMap) :
  checkDefs names entries ≠ Thrown StackOverflow.
Proof.
  induction entries as [| [k d] rest IH]; cbn; [discriminate |].
  destruct (checkDef names k d) as [[] | e] eqn:Hk; [exact IH |].
  unfold checkDef in Hk.
  repeat match type of Hk with
         | (if ?b then _ else _) = _ => destruct b
         end; congruence.
Qed.

Lemma validateColorDefs_no_overflow (defs : ColorMap) :
  validateColorDefs defs ≠ Thrown StackOverflow.
Proof.
  unfold validateColorDefs.
  destruct (checkDefs (list_to_set (keys defs)) defs) as [[] | e] eqn:Hc.
  - destruct (dfsAll_spec defs (definitionsChecked_closed defs Hc)
                (S (length defs)) (keys defs) ∅) as [(v & Hr & _) | (m & Hr)].
    + intros x Hx. set_solver.
    + pose proof (size_list_to_set_le (keys defs)) as Hs.
      unfold keys in *. rewrite length_fmap in Hs. lia.
    + intros x Hx. set_solver.
    + rewrite Hr. discriminate.
    + rewrite Hr. discriminate.
  - intros [= ->]. exact (checkDefs_no_overflow _ _ Hc).
Qed.

Section Ordering.
Variable defs : ColorMap.
Hypothesis closed :
  forall name def b, lookupDef defs name = Some def -> followedBase def = Some b ->
    b ∈ keys defs.

Local Abbreviation declared := (list_to_set (keys defs) : gset string).

Lemma visit_total (fuel : nat) :
  forall (name : string) (visited : gset string) (result : list string),
    name ∈ declared -> (size (declared ∖ visited) < fuel)%nat ->
    exists visited' result',
      visit defs fuel name (visited, result) = Returned (visited', result') /\
      visited ⊆ visited'.
Proof.
  induction fuel as [| fuel IH]; intros name visited result Hn Hfuel; [lia |].
  cbn. case_bool_decide as Hvis; [exists visited, result; split; [reflexivity | set_solver] |].
  assert (Hk : name ∈ keys defs) by set_solver.
  destruct (lookupDef_is_Some defs name Hk) as [def Hdef]. rewrite Hdef.
  destruct (followedBase def) as [b |] eqn:Hb.
  - assert (Hlt : (size (declared ∖ ({[name]} ∪ visited)) < size (declared ∖ visited))%nat).
    { apply subset_size. split; [set_solver |].
      intros Hsub. specialize (Hsub name). set_solver. }
    destruct (IH b ({[name]} ∪ visited) result) as (v' & r' & Hr & Hsub).
    + pose proof (closed name def b Hdef Hb). set_solver.
    + lia.
    + rewrite Hr. exists v', (r' ++ [name]). split; [reflexivity | set_solver].
  - exists ({[name]} ∪ visited), (result ++ [name]). split; [reflexivity | set_solver].
Qed.

Lemma visitAll_total (fuel : nat) (names : list string) :
  forall (visited : gset string) (result : list string),
    (forall x, x ∈ names -> x ∈ declared) -> (size declared < fuel)%nat ->
    exists st, visitAll defs fuel names (visited, result) = Returned st.
Proof.
  induction names as [| name rest IH]; intros visited result Hd Hfuel; cbn; [eauto |].
  destruct (visit_total fuel name visited result) as (v' & r' & Hr & _).
  - apply Hd, list_elem_of_here.
  - assert (Hle : (size (declared ∖ visited) <= size declared)%nat)
      by (apply subseteq_size; set_solver).
    lia.
  - rewrite Hr. apply IH; [| exact Hfuel].
    intros x Hx. apply Hd, list_elem_of_further, Hx.
Qed.

End Ordering.

(** After validation, [topoSort] returns an order. *)
Lemma topoSort_total (defs : ColorMap) :
  definitionsChecked defs -> exists order, topoSort defs = Returned order.
Proof.
  intros Hc. unfold topoSort.
  destruct (visitAll_total defs (definitionsChecked_closed defs Hc)
              (S (length defs)) (keys defs) ∅ []) as [[v order] Hr].
  - intros x Hx. set_solver.
  - pose proof (size_list_to_set_le (keys defs)) as Hs.
    unfold keys in *. rewrite length_fmap in Hs. lia.
  - rewrite Hr. eauto.
Qed.

Section Resolution.
Context `{ColorMath}.

(** C5, as amended.  When every definition passes the per-definition
    checks and the base references that are followed (those of colours
    without absolute lightness) contain a cycle, [resolve] is the throw of
    the circular-base-reference error and nothing else: no colour is
    evaluated, whatever the seed and the configuration. *)
Theorem C5_followed_cycle_is_reported (defs : ColorMap) (name : string) :
  definitionsChecked defs ->
  tc (followedEdge defs) name name ->
  exists m, forall (cfg : GlazeConfig) (hue saturation : Qc),
    resolveAllColors cfg hue saturation defs = Throw (CircularBase m).
Proof.
  intros Hc Hcyc.
  destruct (validateColorDefs_cycle defs name Hc Hcyc) as [m Hm].
  exists m. intros cfg hue saturation.
  unfold resolveAllColors. rewrite Hm. reflexivity.
Qed.

(** C4, at the failing input.  The map
    [{ text: { base: 'surface', lightness: 45 }, surface: { lightness: 97 } }]
    passes validation, and [resolve] throws on it: [text] is ordered before
    its base and is evaluated first. *)
Theorem C4_valid_map_throws (cfg : GlazeConfig) (hue saturation : Qc) (c : Cache) :
  validateColorDefs textBeforeSurface = Returned tt /\
  topoSort textBeforeSurface = Returned ["text"; "surface"] /\
  run (resolveAllColors cfg hue saturation textBeforeSurface) c =
    (Thrown (BaseNotResolved "surface" "text"), c).
Proof. repeat split; vm_compute; reflexivity. Qed.

End Resolution.

Lemma C5_witness :
  definitionsChecked twoCycle /\ tc (followedEdge twoCycle) "a" "a" /\
  exists m, forall (cfg : GlazeConfig) (hue saturation : Qc),
    @resolveAllColors greyMath cfg hue saturation twoCycle = Throw (CircularBase m).
Proof.
  assert (Hc : definitionsChecked twoCycle) by (vm_compute; reflexivity).
  assert (Hab : followedEdge twoCycle "a" "b")
    by (exists (dependentDef "b" (Rel (qc (-10) 1))); split; reflexivity).
  assert (Hba : followedEdge twoCycle "b" "a")
    by (exists (dependentDef "a" (Rel (qc (-10) 1))); split; reflexivity).
  assert (Hcyc : tc (followedEdge twoCycle) "a" "a")
    by (eapply tc_l; [exact Hab | apply tc_once, Hba]).
  split; [exact Hc |]. split; [exact Hcyc |].
  exact (@C5_followed_cycle_is_reported greyMath twoCycle "a" Hc Hcyc).
Defined.

(** C5, as stated, fails: the base references of this map contain the
    cycle a, b, and [resolve] aborts with the contrast-without-base error
    of its third colour, not with the circular-base-reference error. *)
Lemma C5_counterexample :
  ~ (forall defs : ColorMap,
       (exists a b, a ≠ b /\ tc (baseEdge defs) a b /\ tc (baseEdge defs) b a) ->
       forall (hue saturation : Qc) (c : Cache),
       exists m, (@run greyMath _ (@resolveAllColors greyMath defaultConfig hue saturation defs) c).1
                 = Thrown (CircularBase m)).
Proof.
  intros Hclaim.
  destruct (Hclaim cycleAndOrphan) with (hue := 0) (saturation := 0) (c := emptyCache)
    as [m Hm].
  - exists "a", "b". split; [discriminate |]. split; apply tc_once.
    + exists (dependentDef "b" (Rel (qc (-10) 1))). split; reflexivity.
    + exists (dependentDef "a" (Rel (qc (-10) 1))). split; reflexivity.
  - vm_compute in Hm. discriminate.
Qed.

(* ===================================================================== *)
(** * Ranges of the resolved variants *)
(* ===================================================================== *)

Lemma Qfloor_eq (q : Q) : Qfloor q = (Qnum q / Zpos (Qden q))%Z.
Proof. destruct q; reflexivity. Qed.

Lemma Qc_nonneg_num (y : Qc) : 0 <= y <-> (0 <= Qnum (this y))%Z.
Proof.
  unfold Qcle. change (this 0) with (0 # 1)%Q. unfold Qle. cbn. lia.
Qed.

Lemma Qc_nonpos_num (y : Qc) : y <= 0 <-> (Qnum (this y) <= 0)%Z.
Proof.
  unfold Qcle. change (this 0) with (0 # 1)%Q. unfold Qle. cbn. lia.
Qed.

Lemma trunc_nonneg (y : Qc) :
  0 <= y ->
  Q2Qc (inject_Z (trunc y)) <= y /\ y < Q2Qc (inject_Z (trunc y)) + 1.
Proof.
  intros Hy. apply Qc_nonneg_num in Hy. unfold trunc.
  rewrite Z.quot_div_nonneg by lia. rewrite <- Qfloor_eq.
  pose proof (Qfloor_le (this y)) as H1. pose proof (Qlt_floor (this y)) as H2.
  rewrite inject_Z_plus in H2. change (inject_Z 1) with 1%Q in H2.
  revert H1 H2. generalize (inject_Z (Qfloor (this y))). intros t H1 H2.
  split; unfold Qcle, Qclt, Qcplus, Q2Qc; cbn [this]; rewrite ?Qred_correct; lra.
Qed.

Lemma trunc_nonpos (y : Qc) :
  y <= 0 ->
  y <= Q2Qc (inject_Z (trunc y)) /\ Q2Qc (inject_Z (trunc y)) - 1 < y.
Proof.
  intros Hy. apply Qc_nonpos_num in Hy. unfold trunc.
  replace (Qnum (this y)) with (- - Qnum (this y))%Z by lia.
  rewrite Z.quot_opp_l by lia. rewrite Z.quot_div_nonneg by lia.
  replace (- Qnum (this y) / Z.pos (Qden (this y)))%Z with (Qfloor (- this y))
    by (rewrite Qfloor_eq; reflexivity).
  pose proof (Qfloor_le (- this y)) as H1. pose proof (Qlt_floor (- this y)) as H2.
  rewrite inject_Z_plus in H2. change (inject_Z 1) with 1%Q in H2.
  rewrite inject_Z_opp.
  revert H1 H2. generalize (inject_Z (Qfloor (- this y))). intros t H1 H2.
  split; unfold Qcle, Qclt, Qcminus, Qcplus, Qcopp, Q2Qc; cbn [this];
    rewrite ?Qred_correct; lra.
Qed.

(** [a % 360] lies strictly between -360 and 360, and is not negative when
    [a] is not. *)
Lemma js_rem_360 (a : Qc) :
  - qc 360 1 < js_rem a (qc 360 1) /\ js_rem a (qc 360 1) < qc 360 1 /\
  (0 <= a -> 0 <= js_rem a (qc 360 1)).
Proof.
  unfold js_rem.
  destruct (Qclt_le_dec a 0) as [Hneg | Hpos].
  - destruct (trunc_nonpos (a / qc 360 1)) as [H1 H2]; [qc_arith |].
    revert H1 H2. generalize (Q2Qc (inject_Z (trunc (a / qc 360 1)))). intros t H1 H2.
    repeat split; [qc_arith | qc_arith | intros; qc_arith].
  - destruct (trunc_nonneg (a / qc 360 1)) as [H1 H2]; [qc_arith |].
    revert H1 H2. generalize (Q2Qc (inject_Z (trunc (a / qc 360 1)))). intros t H1 H2.
    repeat split; [qc_arith | qc_arith | intros; qc_arith].
Qed.

(** [((a % 360) + 360) % 360] lies in [0, 360). *)
Lemma normalized_hue (a : Qc) :
  0 <= js_rem (js_rem a (qc 360 1) + qc 360 1) (qc 360 1) /\
  js_rem (js_rem a (qc 360 1) + qc 360 1) (qc 360 1) < qc 360 1.
Proof.
  destruct (js_rem_360 a) as (Hlo & _ & _).
  destruct (js_rem_360 (js_rem a (qc 360 1) + qc 360 1)) as (_ & Hhi & Hnn).
  split; [apply Hnn | exact Hhi].
  clear Hhi Hnn. revert Hlo. generalize (js_rem a (qc 360 1)). intros r Hlo. qc_arith.
Qed.

Lemma resolveEffectiveHue_range (seedHue : Qc) (defHue : option NumberOrRelative) :
  0 <= seedHue -> seedHue < qc 360 1 ->
  0 <= resolveEffectiveHue seedHue defHue /\ resolveEffectiveHue seedHue defHue < qc 360 1.
Proof.
  intros H0 H1. unfold resolveEffectiveHue.
  destruct defHue as [[v | v] |]; cbn; [apply normalized_hue | apply normalized_hue | auto].
Qed.

Lemma ensures_bind {A B : Type} (p : Prog A) (f : A -> Prog B)
    (P : A -> Prop) (Q : B -> Prop) :
  ensures p P -> (forall a, P a -> ensures (f a) Q) -> ensures (p ≫= f) Q.
Proof.
  unfold mbind, Prog_bind.
  induction p as [a | e | h s l k IH]; cbn; intros Hp Hf; auto.
Qed.

Lemma ensures_mono {A : Type} (p : Prog A) (P Q : A -> Prop) :
  ensures p P -> (forall a, P a -> Q a) -> ensures p Q.
Proof. induction p as [a | e | h s l k IH]; cbn; intros Hp Hf; eauto. Qed.

Lemma ensures_True {A : Type} (p : Prog A) : ensures p (fun _ => True).
Proof. induction p as [a | e | h s l k IH]; cbn; auto. Qed.

Lemma ensures_nonNull {A : Type} (what : string) (o : option A) :
  ensures (nonNull what o) (fun a => o = Some a).
Proof. destruct o; cbn; auto. Qed.

Lemma ensures_forEach {A S : Type} (xs : list A) (body : A -> S -> Prog S)
    (I : S -> Prop) (st : S) :
  I st -> (forall x st, I st -> ensures (body x st) I) ->
  ensures (forEach xs body st) I.
Proof.
  revert st. induction xs as [| x xs IH]; intros st Hst Hbody; cbn; [exact Hst |].
  eapply ensures_bind; [apply Hbody, Hst |]. intros st' Hst'. apply IH; assumption.
Qed.

Section Ranges.
Context `{ColorMath}.

Lemma ensures_run {A : Type} (p : Prog A) (Q : A -> Prop) (c : Cache) (a : A) :
  ensures p Q -> (run p c).1 = Returned a -> Q a.
Proof.
  revert c. induction p as [a' | e | h s l k IH]; intros c Hp Hr; cbn in *.
  - congruence.
  - discriminate.
  - destruct (cachedLuminance h s l c) as [y c']. eapply IH; eauto.
Qed.

Lemma resolveColorForScheme_range (cfg : GlazeConfig) (name : string) (def : ColorDef)
    (ctx : ResolveContext) (isDark isHighContrast : bool) :
  0 <= ctx_hue ctx -> ctx_hue ctx < qc 360 1 ->
  ensures (resolveColorForScheme cfg name def ctx isDark isHighContrast) variantInRange.
Proof.
  intros H0 H1. unfold resolveColorForScheme.
  eapply ensures_bind; [apply ensures_True |].
  intros [lightL satFactor] _.
  match goal with
  | |- ensures (let '(finalL, finalSat) := ?e in _) _ => destruct e as [finalL finalSat]
  end.
  cbn. unfold variantInRange; cbn.
  split; [apply resolveEffectiveHue_range; assumption |].
  split; apply clamp_bounds; qc_arith.
Qed.

(** Every variant of the map is within range. *)
Let variantsInRange (m : gmap string ResolvedColorVariant) : Prop :=
  forall name v, m !! name = Some v -> variantInRange v.

Lemma evaluatePass_range (cfg : GlazeConfig) (hue saturation : Qc) (defs : ColorMap)
    (isDark isHighContrast : bool)
    (store : string -> ColorDef -> ResolvedColorVariant ->
             gmap string ResolvedColor -> Prog ResolvedColor)
    (order : list string)
    (st : gmap string ResolvedColorVariant * gmap string ResolvedColor) :
  0 <= hue -> hue < qc 360 1 -> variantsInRange st.1 ->
  ensures (forEach order
             (evaluatePass cfg hue saturation defs isDark isHighContrast store) st)
          (fun st' => variantsInRange st'.1).
Proof.
  intros H0 H1 Hst. apply ensures_forEach; [exact Hst |].
  clear st Hst. intros name [passMap resolved] Hst. unfold evaluatePass.
  eapply ensures_bind; [apply ensures_True |]. intros def _.
  eapply ensures_bind; [apply resolveColorForScheme_range; assumption |].
  intros variant Hv.
  eapply ensures_bind; [apply ensures_True |]. intros entry _.
  cbn. intros n v. rewrite lookup_insert. case_decide; [intros [= <-]; exact Hv | apply Hst].
Qed.

(** C8. For a seed with hue in [0, 360) and saturation in [0, 100], every
    colour of the map [resolve] returns has its four variants (light,
    lightContrast, dark, darkContrast) within range: hue in [0, 360),
    saturation in [0, 1], lightness in [0, 1].  ([resolve] returns a map
    only for a colour map that passes validation.) *)
Theorem C8_resolved_variants_in_range (cfg : GlazeConfig) (hue saturation : Qc)
    (defs : ColorMap) (c : Cache) (result : gmap string ResolvedColor)
    (name : string) (r : ResolvedColor) :
  0 <= hue -> hue < qc 360 1 -> 0 <= saturation -> saturation <= qc 100 1 ->
  (run (resolveAllColors cfg hue saturation defs) c).1 = Returned result ->
  result !! name = Some r ->
  colorInRange r.
Proof.
  intros H0 H1 _ _ Hrun Hr.
  assert (Hempty : variantsInRange ∅) by (intros n v Hn; rewrite lookup_empty in Hn; discriminate).
  enough (Hens : ensures (resolveAllColors cfg hue saturation defs)
                   (fun m => forall n rc, m !! n = Some rc -> colorInRange rc))
    by exact (ensures_run _ _ c result Hens Hrun name r Hr).
  unfold resolveAllColors.
  eapply ensures_bind; [apply ensures_True |]. intros _ _.
  eapply ensures_bind; [apply ensures_True |]. intros order _.
  eapply ensures_bind; [apply evaluatePass_range; assumption |].
  intros [lightMap resolved1] Hlight; cbn in Hlight.
  eapply ensures_bind; [apply ensures_True |]. intros resolved2 _.
  eapply ensures_bind; [apply evaluatePass_range; assumption |].
  intros [lightHCMap resolved3] HlightHC; cbn in HlightHC.
  eapply ensures_bind; [apply ensures_True |]. intros resolved4 _.
  eapply ensures_bind; [apply evaluatePass_range; assumption |].
  intros [darkMap resolved5] Hdark; cbn in Hdark.
  eapply ensures_bind; [apply ensures_True |]. intros resolved6 _.
  eapply ensures_bind; [apply evaluatePass_range; assumption |].
  intros [darkHCMap resolved7] HdarkHC; cbn in HdarkHC.
  apply ensures_forEach.
  - intros n rc Hn. rewrite lookup_empty in Hn. discriminate.
  - intros n m Hm.
    eapply ensures_bind; [apply ensures_True |]. intros def _.
    eapply ensures_bind; [apply ensures_nonNull |]. intros lv Hlv.
    eapply ensures_bind; [apply ensures_nonNull |]. intros dv Hdv.
    eapply ensures_bind; [apply ensures_nonNull |]. intros lhv Hlhv.
    eapply ensures_bind; [apply ensures_nonNull |]. intros dhv Hdhv.
    cbn. intros n' rc. rewrite lookup_insert. case_decide; [| apply Hm].
    intros [= <-]. unfold colorInRange; cbn.
    split; [exact (Hlight _ _ Hlv) |]. split; [exact (HlightHC _ _ Hlhv) |].
    split; [exact (Hdark _ _ Hdv) | exact (HdarkHC _ _ Hdhv)].
Qed.

End Ranges.

Lemma C8_witness :
  (0 : Qc) <= 0 /\ (0 : Qc) < qc 360 1 /\ (0 : Qc) <= 0 /\ (0 : Qc) <= qc 100 1 /\
  exists result r,
    (@run greyMath _ (@resolveAllColors greyMath defaultConfig 0 0 surfaceAndText)
       emptyCache).1 = Returned result /\
    result !! "text" = Some r /\ colorInRange r.
Proof.
  assert (Ha : (0 : Qc) <= 0) by (vm_compute; discriminate).
  assert (Hb : (0 : Qc) < qc 360 1) by reflexivity.
  assert (Hc : (0 : Qc) <= qc 100 1) by (vm_compute; discriminate).
  repeat (split; [assumption |]).
  destruct (@run greyMath _ (@resolveAllColors greyMath defaultConfig 0 0 surfaceAndText)
              emptyCache).1 as [result | e] eqn:Hrun; [| vm_compute in Hrun; discriminate].
  destruct (result !! "text") as [r |] eqn:Hr.
  - exists result, r. split; [reflexivity |]. split; [exact Hr |].
    exact (@C8_resolved_variants_in_range greyMath defaultConfig 0 0 surfaceAndText
             emptyCache result "text" r Ha Hb Ha Hc Hrun Hr).
  - exfalso. vm_compute in Hrun. injection Hrun as <-. vm_compute in Hr. discriminate.
Defined.

(* ===================================================================== *)
(** * The contrast solver: what a result reports *)
(* ===================================================================== *)

Section SolverReports.
Context `{ColorMath}.

Lemma returns_ret {A : Type} (a : A) (Q : A -> Prop) : Q a -> returns (mret a) Q.
Proof. intros Ha. exists a. split; [reflexivity | exact Ha]. Qed.

Lemma returns_bind {A B : Type} (p : Prog A) (f : A -> Prog B)
    (P : A -> Prop) (Q : B -> Prop) :
  returns p P -> (forall a, P a -> returns (f a) Q) -> returns (p ≫= f) Q.
Proof.
  intros (a & Ha & HP) Hf. destruct (Hf a HP) as (b & Hb & HQ).
  exists b. split; [| exact HQ]. rewrite eval_bind, Ha. exact Hb.
Qed.

Lemma returns_mono {A : Type} (p : Prog A) (P Q : A -> Prop) :
  returns p P -> (forall a, P a -> Q a) -> returns p Q.
Proof. intros (a & Ha & HP) HPQ. exists a. auto. Qed.

Lemma returns_fmap {A B : Type} (g : A -> B) (p : Prog A) (P : A -> Prop) (Q : B -> Prop) :
  returns p P -> (forall a, P a -> Q (g a)) -> returns (g <$> p) Q.
Proof.
  intros Hp HPQ. unfold fmap, Prog_fmap.
  apply (returns_bind p (fun a => Ret (g a)) P Q Hp).
  intros a Ha. apply returns_ret. auto.
Qed.

Lemma returns_luminance (h s l : Qc) :
  returns (luminance h s l) (fun y => y = luminanceOf h s (round4 l)).
Proof. eexists. split; reflexivity. Qed.

Lemma returns_call {A : Type} (h s l : Qc) (k : Qc -> Prog A) (Q : A -> Prop) :
  returns (k (luminanceOf h s (round4 l))) Q -> returns (CallCachedLuminance h s l k) Q.
Proof. intros Hk. exact Hk. Qed.

Lemma returns_forEach {A S : Type} (xs : list A) (body : A -> S -> Prog S)
    (I : S -> Prop) (st : S) :
  I st -> (forall x st, I st -> returns (body x st) I) ->
  returns (forEach xs body st) I.
Proof.
  revert st. induction xs as [| x xs IH]; intros st Hst Hbody; cbn.
  - apply returns_ret, Hst.
  - eapply returns_bind; [apply Hbody, Hst |]. intros st' Hst'. apply IH; assumption.
Qed.

(** What a run over a reachable cache returns is what the program returns
    with no cache. *)
Lemma returns_run {A : Type} (p : Prog A) (Q : A -> Prop) (c : Cache) :
  reachable c -> returns p Q -> exists a, (run p c).1 = Returned a /\ Q a.
Proof.
  intros Hc (a & Ha & HQ). exists a. split; [| exact HQ].
  destruct (run_eval p c (reachable_coherent c Hc)) as [-> _]. exact Ha.
Qed.

Variables h s yBase target epsilon : Qc.

(** A branch result that claims [met] reports the contrast measured at
    its lightness, and that contrast meets the target. *)
Let sound (r : BranchResult) : Prop :=
  br_met r = true ->
  target <= br_contrast r /\ br_contrast r = contrastAt h s yBase (br_lightness r).

Lemma bisect_returns (preferred : Qc) (n : nat) (low high : Qc) :
  returns (bisect h s yBase target epsilon preferred n low high) (fun _ => True).
Proof.
  revert low high. induction n as [| n IH]; intros low high; cbn.
  - apply returns_ret. exact I.
  - destruct (high - low <? epsilon); [apply returns_ret; exact I |].
    apply returns_call.
    destruct (_ >=? target); destruct (_ <? preferred); apply IH.
Qed.

Lemma scanStep_sound (lo step : Qc) (i : nat) (st : Qc * Qc * bool) :
  (st.2 = true -> target <= st.1.2 /\ st.1.2 = contrastAt h s yBase st.1.1) ->
  returns (scanStep h s lo yBase target step i st)
    (fun st' => st'.2 = true ->
       target <= st'.1.2 /\ st'.1.2 = contrastAt h s yBase st'.1.1).
Proof.
  destruct st as [[bestL bestCr] bestMet]; cbn. intros Hst.
  apply returns_call.
  fold (contrastOf h s yBase (round4 (lo + step * ofNat i))).
  fold (contrastAt h s yBase (lo + step * ofNat i)).
  destruct (contrastAt h s yBase (lo + step * ofNat i) >=? target) eqn:Hpass;
    destruct bestMet; cbn.
  - apply returns_ret; cbn. intros _. qc_bools. auto.
  - apply returns_ret; cbn. intros _. qc_bools. auto.
  - apply returns_ret; cbn. exact Hst.
  - destruct (_ >? bestCr); apply returns_ret; cbn; discriminate.
Qed.

Lemma refine_sound (n : nat) (rLo rHi bestL bestCr : Qc) :
  (target <= bestCr /\ bestCr = contrastAt h s yBase bestL) ->
  returns (refine h s yBase target epsilon n rLo rHi bestL bestCr)
    (fun r => target <= r.2 /\ r.2 = contrastAt h s yBase r.1).
Proof.
  revert rLo rHi bestL bestCr. induction n as [| n IH]; intros rLo rHi bestL bestCr Hb; cbn.
  - apply returns_ret. exact Hb.
  - destruct (rHi - rLo <? epsilon); [apply returns_ret; exact Hb |].
    apply returns_call.
    fold (contrastOf h s yBase (round4 ((rLo + rHi) / qc 2 1))).
    fold (contrastAt h s yBase ((rLo + rHi) / qc 2 1)).
    destruct (contrastAt h s yBase ((rLo + rHi) / qc 2 1) >=? target) eqn:Hpass.
    + apply IH. qc_bools. auto.
    + apply IH. exact Hb.
Qed.

Lemma coarseScan_sound (lo hi : Qc) (maxIter : nat) :
  returns (coarseScan h s lo hi yBase target epsilon maxIter) sound.
Proof.
  unfold coarseScan.
  eapply returns_bind.
  - apply returns_forEach with
      (I := fun st : Qc * Qc * bool => st.2 = true ->
              target <= st.1.2 /\ st.1.2 = contrastAt h s yBase st.1.1).
    + cbn. discriminate.
    + intros i st Hst. apply scanStep_sound, Hst.
  - intros [[bestL bestCr] bestMet] Hst; cbn in Hst.
    destruct bestMet; cbn [andb].
    + destruct (bestL >? _).
      * eapply returns_bind; [apply refine_sound; auto |].
        intros [bestL' bestCr'] Hr. apply returns_ret. intros _. exact Hr.
      * apply returns_ret. intros _. cbn. auto.
    + apply returns_ret. unfold sound; cbn. discriminate.
Qed.

Lemma searchBranch_sound (lo hi : Qc) (maxIter : nat) (preferred : Qc) :
  returns (searchBranch h s lo hi yBase target epsilon maxIter preferred) sound.
Proof.
  unfold searchBranch.
  eapply returns_bind; [apply returns_luminance |]. intros yLo ->.
  eapply returns_bind; [apply returns_luminance |]. intros yHi ->.
  destruct (_ && _).
  - destruct (_ >=? _); apply returns_ret; unfold sound; cbn; discriminate.
  - eapply returns_bind; [apply bisect_returns |]. intros [low high] _.
    eapply returns_bind; [apply returns_luminance |]. intros yLow ->.
    eapply returns_bind; [apply returns_luminance |]. intros yHigh ->.
    cbv zeta.
    fold (contrastOf h s yBase (round4 low)). fold (contrastAt h s yBase low).
    fold (contrastOf h s yBase (round4 high)). fold (contrastAt h s yBase high).
    destruct (contrastAt h s yBase low >=? target) eqn:Hlow;
      destruct (contrastAt h s yBase high >=? target) eqn:Hhigh; cbn [andb].
    + destruct (Math_abs _ <=? Math_abs _); apply returns_ret; intros _; cbn; qc_bools; auto.
    + apply returns_ret; intros _; cbn; qc_bools; auto.
    + apply returns_ret; intros _; cbn; qc_bools; auto.
    + apply coarseScan_sound.
Qed.

(** The search of a side that may be absent. *)
Lemma optional_branch_sound (present : bool) (lo hi : Qc) (maxIter : nat) (preferred : Qc) :
  returns (if present
           then Some <$> searchBranch h s lo hi yBase target epsilon maxIter preferred
           else mret None)
    (fun o => forall r, o = Some r -> sound r).
Proof.
  destruct present.
  - eapply returns_fmap; [apply searchBranch_sound |].
    intros r Hr r' [= <-]. exact Hr.
  - apply returns_ret. discriminate.
Qed.

End SolverReports.

Section SolverReportsCall.
Context `{ColorMath}.

Lemma findLightnessForContrast_sound (options : FindLightnessForContrastOptions) :
  returns (findLightnessForContrast options)
    (fun r => r_met r = true ->
       targetOf options <= r_contrast r /\
       r_contrast r = measured options (r_lightness r)).
Proof.
  unfold findLightnessForContrast, measured, targetOf, yBaseOf.
  set (h := o_hue options). set (s := o_saturation options).
  set (yBase := relativeLuminanceFromLinearRgb (o_baseLinearRgb options)).
  set (target := resolveMinContrast (o_contrast options)).
  set (pref := o_preferredLightness options).
  cbv zeta.
  eapply returns_bind; [apply returns_luminance |]. intros yPref ->.
  fold (contrastOf h s yBase (round4 pref)). fold (contrastAt h s yBase pref).
  destruct (contrastAt h s yBase pref >=? target) eqn:Hpref.
  { apply returns_ret. intros _. cbn. qc_bools. auto. }
  destruct (default (0, 1) (o_lightnessRange options)) as [minL maxL].
  eapply returns_bind; [apply optional_branch_sound |]. intros darkerResult Hd.
  eapply returns_bind; [apply optional_branch_sound |]. intros lighterResult Hl.
  destruct darkerResult as [d |]; destruct lighterResult as [l |]; cbn [metOf andb].
  - specialize (Hd d eq_refl). specialize (Hl l eq_refl).
    destruct (br_met d) eqn:Hmd; destruct (br_met l) eqn:Hml; cbn [andb].
    + destruct (Math_abs _ <=? Math_abs _); apply returns_ret; cbn; auto.
    + apply returns_ret; cbn; auto.
    + apply returns_ret; cbn; auto.
    + cbn. destruct (br_contrast d >=? br_contrast l); apply returns_ret; cbn; congruence.
  - specialize (Hd d eq_refl).
    destruct (br_met d) eqn:Hmd; cbn [andb].
    + apply returns_ret; cbn; auto.
    + cbn. apply returns_ret; cbn; congruence.
  - specialize (Hl l eq_refl).
    destruct (br_met l) eqn:Hml; cbn [andb].
    + apply returns_ret; cbn; auto.
    + cbn. apply returns_ret; cbn; congruence.
  - cbn. apply returns_ret; cbn; discriminate.
Qed.

(** C9, as amended.  A result with [met = true] has a [contrast] that
    meets the resolved target (preset mapped, raw number floored at 1) and
    equals the contrast ratio the solver measures for the returned
    lightness, which is the WCAG contrast ratio, against the base, of the
    colour at that lightness rounded to four decimals. *)
Theorem C9_met_contrast_is_measured (options : FindLightnessForContrastOptions)
    (c : Cache) :
  reachable c ->
  exists r, (run (findLightnessForContrast options) c).1 = Returned r /\
    (r_met r = true ->
       targetOf options <= r_contrast r /\
       r_contrast r = achieved options (round4 (r_lightness r))).
Proof.
  intros Hc. apply (returns_run _ _ c Hc), findLightnessForContrast_sound.
Qed.

End SolverReportsCall.

Lemma C9_witness :
  @reachable greyMath emptyCache /\
  exists r,
    (@run greyMath _ (@findLightnessForContrast greyMath (greyOptions (qc 1 2) black (qc 15 1)))
       emptyCache).1 = Returned r /\
    (r_met r = true ->
       @targetOf (greyOptions (qc 1 2) black (qc 15 1)) <= r_contrast r /\
       r_contrast r =
         @achieved greyMath (greyOptions (qc 1 2) black (qc 15 1)) (round4 (r_lightness r))).
Proof.
  assert (H0 : @reachable greyMath emptyCache) by constructor.
  split; [exact H0 |].
  exact (@C9_met_contrast_is_measured greyMath (greyOptions (qc 1 2) black (qc 15 1))
           emptyCache H0).
Defined.

(** C9, as stated, fails: for a grey candidate of preferred lightness 0.5
    on black with target 15, the solver returns the lightness 2867/4096
    with [met = true] and [contrast = 15], measured at 0.7, while the
    contrast ratio of the colour at the returned lightness is below 15. *)
Lemma C9_counterexample :
  ~ (forall (options : FindLightnessForContrastOptions) (c : Cache)
            (r : FindLightnessForContrastResult),
       @reachable greyMath c ->
       (@run greyMath _ (@findLightnessForContrast greyMath options) c).1 = Returned r ->
       r_met r = true ->
       @targetOf options <= r_contrast r /\
       r_contrast r = @achieved greyMath options (r_lightness r) /\
       @targetOf options <= @achieved greyMath options (r_lightness r)).
Proof.
  intros Hclaim.
  destruct (@run greyMath _
              (@findLightnessForContrast greyMath (greyOptions (qc 1 2) black (qc 15 1)))
              emptyCache).1 as [r | e] eqn:Hrun; [| vm_compute in Hrun; discriminate].
  assert (Hl : r_lightness r = qc 2867 4096 /\ r_met r = true).
  { vm_compute in Hrun. injection Hrun as <-. split; [apply Qc_is_canon |]; reflexivity. }
  destruct Hl as [Hl Hm].
  destruct (Hclaim _ emptyCache r (@reachable_empty greyMath) Hrun Hm) as (_ & _ & Hfail).
  rewrite Hl in Hfail. vm_compute in Hfail. apply Hfail. reflexivity.
Qed.

Lemma halve_nonneg (n : nat) (w : Qc) : 0 <= w -> 0 <= halve n w.
Proof.
  revert w. induction n as [| n IH]; intros w Hw; cbn; [exact Hw |].
  apply IH. qc_arith.
Qed.

Lemma halve_step (n : nat) (low high : Qc) :
  halve (S n) (high - low) = halve n (high - (low + high) / qc 2 1) /\
  halve (S n) (high - low) = halve n ((low + high) / qc 2 1 - low).
Proof. cbn. split; f_equal; qc_arith. Qed.

(* ===================================================================== *)
(** * The coarse scan *)
(* ===================================================================== *)

Section CoarseScan.
Context `{ColorMath}.
Variables h s lo hi yBase target epsilon : Qc.

Local Abbreviation step := ((hi - lo) / ofNat STEPS).
Local Abbreviation cr i := (contrastAt h s yBase (sample lo hi i)).

Lemma scanStep_scanned (n : nat) (st : Qc * Qc * bool) :
  scanned h s lo hi yBase target n st ->
  returns (scanStep h s lo yBase target step n st)
    (scanned h s lo hi yBase target (S n)).
Proof.
  destruct st as [[bestL bestCr] bestMet]. intros Hst. cbn.
  apply returns_call.
  fold (contrastOf h s yBase (round4 (lo + step * ofNat n))).
  fold (contrastAt h s yBase (lo + step * ofNat n)).
  change (contrastAt h s yBase (lo + step * ofNat n)) with (cr n).
  change (lo + step * ofNat n) with (sample lo hi n).
  destruct (cr n >=? target) eqn:Hpass; destruct bestMet; cbn [andb negb]; qc_bools.
  - apply returns_ret. cbn. exists n. repeat split; auto; intros; lia.
  - apply returns_ret. cbn. exists n. repeat split; auto; intros; lia.
  - apply returns_ret. cbn in *. destruct Hst as (j & Hj & Hpj & Hlater & HL & HC).
    exists j. repeat split; auto. intros i Hi.
    destruct (decide (i = n)) as [-> | Hne]; [exact Hpass | apply Hlater; lia].
  - cbn in Hst. destruct Hst as (Hnone & Hbest).
    assert (Hnone' : forall i, (i < S n)%nat -> cr i < target).
    { intros i Hi. destruct (decide (i = n)) as [-> | Hne]; [exact Hpass | apply Hnone; lia]. }
    destruct (cr n >? bestCr) eqn:Hgt; qc_bools; apply returns_ret; cbn;
      (split; [exact Hnone' |]).
    + right. exists n. split; [lia |]. split; [reflexivity |]. split; [reflexivity |].
      destruct Hbest as [(HL & HC & Hle) | (k & Hk & HL & HC & Hpos & Hle)].
      * subst bestCr. split; [exact Hgt |]. intros i Hi.
        destruct (decide (i = n)) as [-> | Hne]; [apply Qcle_refl |].
        specialize (Hle i ltac:(lia)). qc_arith.
      * subst bestCr. split; [qc_arith |]. intros i Hi.
        destruct (decide (i = n)) as [-> | Hne]; [apply Qcle_refl |].
        specialize (Hle i ltac:(lia)). qc_arith.
    + destruct Hbest as [(HL & HC & Hle) | (k & Hk & HL & HC & Hpos & Hle)].
      * left. split; [exact HL |]. split; [exact HC |]. intros i Hi.
        destruct (decide (i = n)) as [-> | Hne]; [subst bestCr; exact Hgt | apply Hle; lia].
      * right. exists k. split; [lia |]. split; [exact HL |]. split; [exact HC |].
        split; [exact Hpos |]. intros i Hi.
        destruct (decide (i = n)) as [-> | Hne]; [subst bestCr; exact Hgt | apply Hle; lia].
Qed.

Lemma scan_scanned (len start : nat) (st : Qc * Qc * bool) :
  scanned h s lo hi yBase target start st ->
  returns (forEach (seq start len) (scanStep h s lo yBase target step) st)
    (scanned h s lo hi yBase target (start + len)).
Proof.
  revert start st. induction len as [| len IH]; intros start st Hst; cbn.
  - apply returns_ret. replace (start + 0)%nat with start by lia. exact Hst.
  - eapply returns_bind; [apply scanStep_scanned, Hst |]. intros st' Hst'.
    replace (start + S len)%nat with (S start + len)%nat by lia. apply IH, Hst'.
Qed.

(** The refining loop keeps [bestL = rHi] and ends on a lightness that
    passes, inside the interval it starts with; below it, closer than
    [epsilon] or than the interval halved [n] times, lies the lower end
    of that interval or a lightness that fails. *)
Lemma refine_located (n : nat) (rLo rHi bestCr : Qc) :
  rLo <= rHi -> target <= bestCr -> bestCr = contrastAt h s yBase rHi ->
  returns (refine h s yBase target epsilon n rLo rHi rHi bestCr)
    (fun r => r.1 <= rHi /\ target <= r.2 /\ r.2 = contrastAt h s yBase r.1 /\
              exists f, rLo <= f /\ f <= r.1 /\
                (f = rLo \/ contrastAt h s yBase f < target) /\
                (r.1 - f < epsilon \/ r.1 - f = halve n (rHi - rLo))).
Proof.
  revert rLo rHi bestCr. induction n as [| n IH]; intros rLo rHi bestCr Hle Hp Hc.
  - apply returns_ret. cbn. split; [apply Qcle_refl |]. split; [exact Hp |].
    split; [exact Hc |]. exists rLo. split; [apply Qcle_refl |]. split; [exact Hle |]. auto.
  - cbn [refine]. destruct (rHi - rLo <? epsilon) eqn:Hw; qc_bools.
    { apply returns_ret. cbn. split; [apply Qcle_refl |]. split; [exact Hp |].
      split; [exact Hc |]. exists rLo. split; [apply Qcle_refl |]. split; [exact Hle |]. auto. }
    apply returns_call.
    fold (contrastOf h s yBase (round4 ((rLo + rHi) / qc 2 1))).
    fold (contrastAt h s yBase ((rLo + rHi) / qc 2 1)).
    destruct (halve_step n rLo rHi) as [Hup Hdown].
    destruct (contrastAt h s yBase ((rLo + rHi) / qc 2 1) >=? target) eqn:Hpass; qc_bools.
    + eapply returns_mono; [apply IH; [qc_arith | exact Hpass | reflexivity] |].
      intros [l c] (H1 & H2 & H3 & f & Hf1 & Hf2 & Hf3 & Hf4); cbn in *.
      split; [qc_arith |]. split; [exact H2 |]. split; [exact H3 |].
      exists f. split; [exact Hf1 |]. split; [exact Hf2 |]. split; [exact Hf3 |].
      rewrite Hdown. exact Hf4.
    + eapply returns_mono; [apply IH; [qc_arith | exact Hp | exact Hc] |].
      intros [l c] (H1 & H2 & H3 & f & Hf1 & Hf2 & Hf3 & Hf4); cbn in *.
      split; [exact H1 |]. split; [exact H2 |]. split; [exact H3 |].
      exists f. split; [qc_arith |]. split; [exact Hf2 |]. split.
      * right. destruct Hf3 as [-> | Hf3]; [exact Hpass | exact Hf3].
      * rewrite Hup. exact Hf4.
Qed.

Lemma ofNat_STEPS : ofNat STEPS = qc 64 1.
Proof. apply Qc_is_canon. reflexivity. Qed.

(** X30. The coarse scan of a branch [lo <= hi] samples it at 64 equal
    steps (65 samples).  If a sample passes it returns, with [met = true],
    the latest passing sample in scan order: as it is when that is one of
    the first two samples, else refined by the bounded bisection against
    its lower neighbour, to a passing lightness at or below the sample
    that has, below it and closer than [epsilon] or than the step halved
    [maxIter] times, the lower neighbour or a lightness that fails.  If no
    sample passes it returns, with [met = false], a sample of highest
    contrast, or [lo] with contrast 0 when no sample has a positive
    contrast. *)
Theorem X30_coarseScan_keeps_the_latest_passing_sample (maxIter : nat) (c : Cache) :
  lo <= hi -> reachable c ->
  exists r, (run (coarseScan h s lo hi yBase target epsilon maxIter) c).1 = Returned r /\
    latestPassingOrBest h s lo hi yBase target epsilon maxIter r.
Proof.
  intros Hlohi Hc. apply (returns_run _ _ c Hc). unfold coarseScan, latestPassingOrBest.
  eapply returns_bind.
  { apply (scan_scanned (S STEPS) 0 (lo, 0, false)). cbn.
    split; [intros i Hi; lia |]. left. repeat split. intros i Hi. lia. }
  intros [[bestL bestCr] bestMet] Hst. cbn in Hst.
  destruct bestMet; cbn [andb].
  - destruct Hst as (j0 & Hj0 & Hp0 & Hlater & HL & HC).
    assert (Huniq : forall j, (j <= STEPS)%nat -> target <= cr j ->
              (forall i, (j < i <= STEPS)%nat -> cr i < target) -> j = j0).
    { intros j Hj Hpj Hlj. destruct (lt_eq_lt_dec j j0) as [[Hlt | Heq] | Hgt]; [| exact Heq |].
      - specialize (Hlj j0 ltac:(lia)). exfalso. qc_arith.
      - specialize (Hlater j ltac:(unfold STEPS in *; lia)). exfalso. qc_arith. }
    destruct (bestL >? lo + step) eqn:Hbeyond; qc_bools.
    + eapply returns_bind.
      { apply (refine_located maxIter (bestL - step) bestL bestCr).
        - rewrite ofNat_STEPS. qc_arith.
        - subst bestCr. exact Hp0.
        - subst bestCr bestL. reflexivity. }
      intros [l cr'] (H1 & H2 & H3 & f & Hf1 & Hf2 & Hf3 & Hf4). cbn in H1, H2, H3, Hf2, Hf4.
      apply returns_ret. cbn. split.
      * intros j Hj Hpj Hlj. rewrite (Huniq j Hj Hpj Hlj). subst bestL.
        split; [reflexivity |]. split; [exact H2 |]. split; [exact H3 |]. split.
        { intros Hle. exfalso. qc_arith. }
        intros _. split; [exact H1 |]. exists f.
        split; [exact Hf1 |]. split; [exact Hf2 |]. split; [exact Hf3 |].
        replace (sample lo hi j0 - (sample lo hi j0 - step)) with step in Hf4 by ring.
        exact Hf4.
      * intros Hnone. specialize (Hnone j0 ltac:(unfold STEPS in *; lia)). exfalso. qc_arith.
    + apply returns_ret. cbn. split.
      * intros j Hj Hpj Hlj. rewrite (Huniq j Hj Hpj Hlj). subst bestL bestCr.
        split; [reflexivity |]. split; [exact Hp0 |]. split; [reflexivity |]. split.
        { intros _. reflexivity. }
        intros Hlt. exfalso. qc_arith.
      * intros Hnone. specialize (Hnone j0 ltac:(unfold STEPS in *; lia)). exfalso. qc_arith.
  - destruct Hst as (Hnone & Hbest). apply returns_ret. cbn. split.
    + intros j Hj Hpj _. specialize (Hnone j ltac:(unfold STEPS in *; lia)). exfalso. qc_arith.
    + intros _. split; [reflexivity |].
      destruct Hbest as [(HL & HC & Hle) | (k & Hk & HL & HC & Hposk & Hle)].
      * left. split; [exact HL |]. split; [exact HC |]. intros i Hi. apply Hle.
        unfold STEPS in *. lia.
      * right. exists k. split; [unfold STEPS in *; lia |]. split; [exact HL |].
        split; [exact HC |]. split; [exact Hposk |].
        intros i Hi. apply Hle. unfold STEPS in *. lia.
Qed.

End CoarseScan.

Lemma X30_witness :
  qc 1 2 <= 1 /\ @reachable greyMath emptyCache /\
  exists r,
    (@run greyMath _ (@coarseScan greyMath 0 0 (qc 1 2) 1 0 (qc 15 1) (qc 1 10000) 14)
       emptyCache).1 = Returned r /\
    @latestPassingOrBest greyMath 0 0 (qc 1 2) 1 0 (qc 15 1) (qc 1 10000) 14 r.
Proof.
  assert (H0 : qc 1 2 <= 1) by (vm_compute; discriminate).
  assert (H1 : @reachable greyMath emptyCache) by constructor.
  split; [exact H0 |]. split; [exact H1 |].
  exact (@X30_coarseScan_keeps_the_latest_passing_sample greyMath 0 0 (qc 1 2) 1 0
           (qc 15 1) (qc 1 10000) 14 emptyCache H0 H1).
Defined.

(* ===================================================================== *)
(** * The search of one branch *)
(* ===================================================================== *)

Section SearchBranch.
Context `{ColorMath}.
Variables h s yBase target epsilon : Qc.

Local Abbreviation cr l := (contrastAt h s yBase l).


End SearchBranch.

Section NothingPasses.
Context `{ColorMath}.




End NothingPasses.

(* ===================================================================== *)
(** * Running the solver on the grey ramp *)
(* ===================================================================== *)












Lemma Math_max_l (a b : Qc) : a <= Math_max a b.
Proof. unfold Math_max. destruct (a <? b) eqn:E; qc_bools; [qc_arith | apply Qcle_refl]. Qed.












(* ===================================================================== *)
(** * The bisection *)
(* ===================================================================== *)

Section Bisection.
Context `{ColorMath}.
Variables h s yBase target epsilon preferred : Qc.

Local Abbreviation cr l := (contrastAt h s yBase l).





End Bisection.

(* ===================================================================== *)
(** * The fallback is out of reach *)
(* ===================================================================== *)

Section Fallback.
Context `{ColorMath}.
Variables h s yBase target epsilon : Qc.

Local Abbreviation cr l := (contrastAt h s yBase l).




End Fallback.



(* ===================================================================== *)
(** * The solver finds the passing lightness nearest to the preferred one *)
(* ===================================================================== *)


Section NearestPassing.
Context `{ColorMath}.
Variables h s yBase target epsilon pref minL maxL : Qc.
Variable maxIter : nat.

Local Abbreviation cr l := (contrastAt h s yBase l).

Hypothesis prefFails : cr pref < target.
Hypothesis downwards :
  forall l l', minL <= l -> l <= l' -> l' <= pref -> target <= cr l' -> target <= cr l.
Hypothesis upwards :
  forall l l', pref <= l -> l <= l' -> l' <= maxL -> target <= cr l -> target <= cr l'.
Hypothesis narrowDarker : halve maxIter (pref - minL) < epsilon.
Hypothesis narrowLighter : halve maxIter (maxL - pref) < epsilon.

Local Abbreviation darkerPost := (darkerFound h s yBase target epsilon pref minL).
Local Abbreviation lighterPost := (lighterFound h s yBase target epsilon pref maxL).




End NearestPassing.

Section NearestPassingCall.
Context `{ColorMath}.



End NearestPassingCall.





(* ===================================================================== *)
(** * The luminance cache keeps its bound *)
(* ===================================================================== *)

Section CacheBound.
Context `{ColorMath}.

Lemma withinCapacity_empty : withinCapacity emptyCache.
Proof.
  split; [cbn; rewrite map_size_empty; unfold CACHE_SIZE; lia |].
  split; [constructor |].
  intros k; cbn. rewrite lookup_empty. split; [intros Hk; inversion Hk | intros [? [=]]].
Qed.

Lemma cachedLuminance_withinCapacity (h s l : Qc) (c : Cache) :
  withinCapacity c -> withinCapacity (cachedLuminance h s l c).2.
Proof.
  intros (Hsize & Hnd & Hsync). unfold cachedLuminance.
  destruct (luminanceCache c !! (h, s, round4 l)) as [y |] eqn:Hhit; cbn;
    [repeat split; auto; apply Hsync |].
  destruct c as [m o]; cbn in *.
  assert (Hfresh : (h, s, round4 l) ∉ o).
  { intros Hin. apply Hsync in Hin as [? Hin]. congruence. }
  case_bool_decide as Hfull; cbn.
  - destruct o as [| evict rest]; cbn.
    + exfalso.
      assert (Hm : m = ∅).
      { apply map_empty. intros k. destruct (m !! k) eqn:Hk; [| reflexivity].
        assert (Hin : k ∈ @nil (Qc * Qc * Qc)) by (apply Hsync; eauto). inversion Hin. }
      subst m. rewrite map_size_empty in Hfull. unfold CACHE_SIZE in Hfull. lia.
    + apply list.NoDup_cons in Hnd as [Hne Hnd].
      assert (Hev : is_Some (m !! evict)) by (apply Hsync; left).
      assert (Hkey : (h, s, round4 l) ≠ evict) by (intros <-; apply Hfresh; left).
      unfold withinCapacity; cbn. split; [| split].
      * rewrite map_size_insert_None by (rewrite lookup_delete_ne; auto).
        pose proof (map_size_delete_Some evict m Hev). unfold CACHE_SIZE in *. lia.
      * apply list.NoDup_app. split; [exact Hnd |]. split; [| apply NoDup_singleton].
        intros k Hk Hk'. apply list_elem_of_singleton in Hk' as ->.
        apply Hfresh. right. exact Hk.
      * intros k. rewrite elem_of_app, list_elem_of_singleton, lookup_insert_is_Some.
        rewrite lookup_delete_is_Some. rewrite <- Hsync, elem_of_cons.
        split.
        -- intros [Hk | ->]; [right | left; reflexivity].
           split; [intros Heq; apply Hfresh; rewrite Heq; right; exact Hk |].
           split; [intros Heq; apply Hne; rewrite Heq; exact Hk | auto].
        -- intros [<- | (Hn & Hn' & [-> | Hk])]; [right; reflexivity | contradiction | left; exact Hk].
  - unfold withinCapacity; cbn. split; [| split].
    + rewrite map_size_insert_None by exact Hhit. lia.
    + apply list.NoDup_app. split; [exact Hnd |]. split; [| apply NoDup_singleton].
      intros k Hk Hk'. apply list_elem_of_singleton in Hk' as ->. contradiction.
    + intros k. rewrite elem_of_app, list_elem_of_singleton, lookup_insert_is_Some.
      rewrite <- Hsync. split.
      * intros [Hk | ->]; [right | left; reflexivity].
        split; [intros Heq; apply Hfresh; rewrite Heq; exact Hk | exact Hk].
      * intros [<- | [_ Hk]]; [right; reflexivity | left; exact Hk].
Qed.

(** X1. The luminance cache never outgrows its capacity: every cache the
    module can hold has at most [CACHE_SIZE] (512) entries, and
    [cacheOrder] lists exactly the keys of [luminanceCache], each once. *)
Theorem X1_cache_within_capacity (c : Cache) : reachable c -> withinCapacity c.
Proof.
  induction 1 as [| h s l c _ IH]; [apply withinCapacity_empty | apply cachedLuminance_withinCapacity, IH].
Qed.

(** X2. After a lookup, a lookup for the same hue and saturation and a
    lightness that rounds to the same four decimals is a hit: it returns
    the same luminance and leaves the cache as it is, the eviction order
    included. *)
Theorem X2_cache_hit_repeats (h s l l' : Qc) (c : Cache) :
  round4 l' = round4 l ->
  cachedLuminance h s l' (cachedLuminance h s l c).2 = cachedLuminance h s l c.
Proof.
  intros Hl. unfold cachedLuminance at 2 3.
  destruct (luminanceCache c !! (h, s, round4 l)) as [y |] eqn:Hhit; cbn.
  - unfold cachedLuminance. rewrite Hl, Hhit. reflexivity.
  - unfold cachedLuminance; cbn. rewrite Hl, lookup_insert_eq. reflexivity.
Qed.

End CacheBound.

(* ===================================================================== *)
(** * The solver: where a result lies, and what [met] tells *)
(* ===================================================================== *)


Lemma ensures_forEach_elem {A S : Type} (xs : list A) (body : A -> S -> Prog S)
    (I : S -> Prop) (st : S) :
  I st -> (forall x st, x ∈ xs -> I st -> ensures (body x st) I) ->
  ensures (forEach xs body st) I.
Proof.
  revert st. induction xs as [| x xs IH]; intros st Hst Hbody; cbn; [exact Hst |].
  eapply ensures_bind; [apply Hbody; [left | exact Hst] |].
  intros st' Hst'. apply IH; [exact Hst' |].
  intros y st'' Hy. apply Hbody. right. exact Hy.
Qed.

Lemma ofNat_le (i j : nat) : (i <= j)%nat -> ofNat i <= ofNat j.
Proof.
  intros Hij. unfold ofNat, Qcle. rewrite !this_Q2Qc.
  rewrite <- Zle_Qle. lia.
Qed.

Lemma ofNat_0 : ofNat 0 = 0.
Proof. apply Qc_is_canon. reflexivity. Qed.

Lemma resolveMinContrast_ge_1 (value : MinContrast) : 1 <= resolveMinContrast value.
Proof.
  destruct value as [v | []]; cbn; try (vm_compute; discriminate).
  unfold Math_max. destruct (1 <? v) eqn:E; qc_bools; qc_arith.
Qed.

Lemma Qc_mult_nonneg (a b : Qc) : 0 <= a -> 0 <= b -> 0 <= a * b.
Proof.
  unfold Qcle. rewrite this_mult. apply Qmult_le_0_compat.
Qed.

(** A sample of the coarse scan lies in the branch. *)
Lemma sample_inside (lo hi : Qc) (i : nat) :
  lo <= hi -> (i <= STEPS)%nat ->
  lo <= lo + (hi - lo) / ofNat STEPS * ofNat i /\
  lo + (hi - lo) / ofNat STEPS * ofNat i <= hi.
Proof.
  intros Hle Hi. rewrite ofNat_STEPS.
  pose proof (ofNat_le 0 i ltac:(lia)) as H0. rewrite ofNat_0 in H0.
  pose proof (ofNat_le i STEPS Hi) as H1. rewrite ofNat_STEPS in H1.
  generalize dependent (ofNat i). intros t H0 H1.
  assert (Hp : 0 <= (hi - lo) * t) by (apply Qc_mult_nonneg; [qc_arith | exact H0]).
  assert (Hq : 0 <= (hi - lo) * (qc 64 1 - t)) by (apply Qc_mult_nonneg; qc_arith).
  replace ((hi - lo) / qc 64 1 * t) with ((hi - lo) * t / qc 64 1) by (unfold Qcdiv; ring).
  replace ((hi - lo) * (qc 64 1 - t)) with ((hi - lo) * qc 64 1 - (hi - lo) * t) in Hq by ring.
  revert Hp Hq. generalize ((hi - lo) * t). intros p Hp Hq.
  split; qc_arith.
Qed.

Section SolverInside.
Context `{ColorMath}.
Variables h s yBase target epsilon : Qc.

Lemma bisect_between (preferred : Qc) (n : nat) :
  forall low high, low <= high ->
    ensures (bisect h s yBase target epsilon preferred n low high)
      (fun lh => low <= lh.1 /\ lh.1 <= lh.2 /\ lh.2 <= high).
Proof.
  induction n as [| n IH]; intros low high Hle; cbn.
  - repeat split; auto; apply Qcle_refl.
  - destruct (high - low <? epsilon); [cbn; repeat split; auto; apply Qcle_refl |].
    cbn. intros y.
    destruct (_ >=? target); destruct (_ <? preferred);
      (eapply ensures_mono; [apply IH; qc_arith |]);
      intros [l1 h1] (H1 & H2 & H3); cbn in *; repeat split; qc_arith.
Qed.

Lemma refine_between (n : nat) :
  forall rLo rHi bestCr, rLo <= rHi -> target <= bestCr ->
    ensures (refine h s yBase target epsilon n rLo rHi rHi bestCr)
      (fun r => (rLo <= r.1 /\ r.1 <= rHi) /\ target <= r.2).
Proof.
  induction n as [| n IH]; intros rLo rHi bestCr Hle Hcr; cbn.
  - repeat split; auto; apply Qcle_refl.
  - destruct (rHi - rLo <? epsilon); [cbn; repeat split; auto; apply Qcle_refl |].
    cbn. intros y.
    destruct (_ >=? target) eqn:Hp; qc_bools.
    + eapply ensures_mono; [apply IH; [qc_arith | exact Hp] |].
      intros [l c] ((H1 & H2) & H3); cbn in *. repeat split; auto. qc_arith.
    + eapply ensures_mono; [apply IH; [qc_arith | exact Hcr] |].
      intros [l c] ((H1 & H2) & H3); cbn in *. repeat split; auto. qc_arith.
Qed.

Lemma scanStep_inside (lo hi : Qc) (i : nat) (st : Qc * Qc * bool) :
  lo <= hi -> (i <= STEPS)%nat ->
  insideAndHonest lo hi target (mkBranchResult st.1.1 st.1.2 st.2) ->
  ensures (scanStep h s lo yBase target ((hi - lo) / ofNat STEPS) i st)
    (fun st' => insideAndHonest lo hi target (mkBranchResult st'.1.1 st'.1.2 st'.2)).
Proof.
  destruct st as [[bestL bestCr] bestMet]. intros Hle Hi [Hin Hmet]; cbn in Hin, Hmet.
  pose proof (sample_inside lo hi i Hle Hi) as Hs.
  cbn. intros y.
  destruct (_ >=? target) eqn:Hp; destruct bestMet; cbn [andb negb]; qc_bools.
  - split; cbn; auto.
  - split; cbn; auto.
  - split; cbn; auto.
  - destruct (_ >? bestCr); split; cbn; auto.
Qed.

Lemma coarseScan_inside (lo hi : Qc) (maxIter : nat) :
  lo <= hi -> 0 < target ->
  ensures (coarseScan h s lo hi yBase target epsilon maxIter) (insideAndHonest lo hi target).
Proof.
  intros Hle Hpos. unfold coarseScan.
  eapply ensures_bind.
  - apply ensures_forEach_elem
      with (I := fun st => insideAndHonest lo hi target (mkBranchResult st.1.1 st.1.2 st.2)).
    + split; cbn; [split; [apply Qcle_refl | exact Hle] | exact Hpos].
    + intros i st Hi Hst. apply scanStep_inside; auto.
      apply elem_of_seq in Hi. unfold STEPS in *. lia.
  - intros [[bestL bestCr] bestMet] [Hin Hmet]; cbn in Hin, Hmet.
    destruct bestMet; cbn [andb]; [| split; cbn; auto].
    destruct (bestL >? _) eqn:Hgt; qc_bools; [| split; cbn; auto].
    eapply ensures_bind; [apply refine_between; [| exact Hmet] |].
    + pose proof (sample_inside lo hi 1 Hle ltac:(unfold STEPS; lia)) as Hs.
      revert Hs Hgt. generalize ((hi - lo) / ofNat STEPS). intros st Hs Hgt.
      replace (ofNat 1) with (1 : Qc) in Hs by (apply Qc_is_canon; reflexivity).
      destruct Hs as [Hs1 Hs2]. qc_arith.
    + intros [l c] ((H1 & H2) & H3); cbn in *. split; cbn; [| exact H3].
      pose proof (sample_inside lo hi 1 Hle ltac:(unfold STEPS; lia)) as Hs.
      revert Hs Hgt H1. generalize ((hi - lo) / ofNat STEPS). intros st Hs Hgt H1.
      replace (ofNat 1) with (1 : Qc) in Hs by (apply Qc_is_canon; reflexivity).
      destruct Hs as [Hs1 Hs2]. destruct Hin as [Hin1 Hin2]. split; qc_arith.
Qed.

Lemma searchBranch_inside (lo hi : Qc) (maxIter : nat) (preferred : Qc) :
  lo <= hi -> 0 < target ->
  ensures (searchBranch h s lo hi yBase target epsilon maxIter preferred)
    (insideAndHonest lo hi target).
Proof.
  intros Hle Hpos. unfold searchBranch. cbn. intros yLo yHi.
  destruct (_ <? target) eqn:HLo; destruct (contrastRatioFromLuminance yHi yBase <? target) eqn:HHi;
    cbn [andb]; qc_bools.
  1: { destruct (_ >=? _); split; cbn; auto; split; auto; apply Qcle_refl. }
  all: (eapply ensures_bind; [apply bisect_between, Hle |]);
    intros [low high] (H1 & H2 & H3); cbn in H1, H2, H3; cbn; intros yLow yHigh;
    destruct (contrastRatioFromLuminance yLow yBase >=? target) eqn:HpL;
    destruct (contrastRatioFromLuminance yHigh yBase >=? target) eqn:HpH;
    cbn [andb]; qc_bools;
    try (destruct (Math_abs _ <=? Math_abs _));
    try (split; cbn; [split; qc_arith | auto]; fail);
    apply coarseScan_inside; assumption.
Qed.

End SolverInside.

Lemma ensures_fmap {A B : Type} (g : A -> B) (p : Prog A) (P : A -> Prop) (Q : B -> Prop) :
  ensures p P -> (forall a, P a -> Q (g a)) -> ensures (g <$> p) Q.
Proof.
  intros Hp Hg. unfold fmap, Prog_fmap.
  change (bind p (fun a => Ret (g a))) with (p ≫= fun a => Ret (g a)).
  eapply ensures_bind; [exact Hp |]. intros a Ha. cbn. auto.
Qed.

Section SolverInsideCall.
Context `{ColorMath}.

Lemma findLightnessForContrast_inside (options : FindLightnessForContrastOptions) :
  ensures (findLightnessForContrast options)
    (fun r => locatedByBranch options r /\ honest options r).
Proof.
  pose proof (resolveMinContrast_ge_1 (o_contrast options)) as Hge.
  assert (Hpos : 0 < resolveMinContrast (o_contrast options)) by qc_arith.
  unfold findLightnessForContrast, locatedByBranch, honest, targetOf, rangeOf.
  cbv zeta. cbn [mbind Prog_bind bind luminance]. intros yPref.
  generalize dependent (resolveMinContrast (o_contrast options)). intros target _ Hpos.
  destruct (_ >=? target) eqn:Hpref; qc_bools.
  { cbn. split; [reflexivity | split; auto]. }
  destruct (default (0, 1) (o_lightnessRange options)) as [minL maxL]. cbn [fst snd].
  set (pref := o_preferredLightness options).
  set (yBase := relativeLuminanceFromLinearRgb (o_baseLinearRgb options)).
  eapply ensures_bind with
    (P := fun o => match o with
                   | Some d => insideAndHonest minL pref target d
                   | None => True
                   end).
  { destruct (pref >? minL) eqn:Hd; qc_bools; [| cbn; auto].
    eapply ensures_fmap; [apply searchBranch_inside; [qc_arith | exact Hpos] |].
    auto. }
  intros darkerResult Hdark.
  eapply ensures_bind with
    (P := fun o => match o with
                   | Some d => insideAndHonest pref maxL target d
                   | None => True
                   end).
  { destruct (pref <? maxL) eqn:Hl; qc_bools; [| cbn; auto].
    eapply ensures_fmap; [apply searchBranch_inside; [qc_arith | exact Hpos] |].
    auto. }
  intros lighterResult Hlight.
  assert (Hd : forall d, insideAndHonest minL pref target d ->
             (minL <= br_lightness d /\ br_lightness d <= pref) /\
             (br_met d = true <-> target <= br_contrast d)).
  { intros d [Hin Hm]. split; [exact Hin |]. destruct (br_met d); split; auto; try discriminate.
    intros Hc. exfalso. qc_arith. }
  assert (Hl : forall d, insideAndHonest pref maxL target d ->
             (pref <= br_lightness d /\ br_lightness d <= maxL) /\
             (br_met d = true <-> target <= br_contrast d)).
  { intros d [Hin Hm]. split; [exact Hin |]. destruct (br_met d); split; auto; try discriminate.
    intros Hc. exfalso. qc_arith. }
  destruct darkerResult as [d |]; destruct lighterResult as [l |]; cbn [metOf].
  - destruct (Hd _ Hdark) as [HinD HhD]. destruct (Hl _ Hlight) as [HinL HhL].
    destruct (br_met d); destruct (br_met l); cbn [andb].
    + destruct (Math_abs _ <=? Math_abs _); cbn; auto.
    + cbn. auto.
    + cbn. auto.
    + cbn. destruct (br_contrast d >=? br_contrast l); cbn; auto.
  - destruct (Hd _ Hdark) as [HinD HhD]. destruct (br_met d); cbn; auto.
  - destruct (Hl _ Hlight) as [HinL HhL]. destruct (br_met l); cbn; auto.
  - cbn. split; [reflexivity |]. split; [discriminate |]. intros Hc. exfalso.
    subst pref yBase. qc_arith.
Qed.

End SolverInsideCall.

Section SolverExtras.
Context `{ColorMath}.

Lemma findLightnessForContrast_run (options : FindLightnessForContrastOptions) (c : Cache) :
  reachable c ->
  exists r, (run (findLightnessForContrast options) c).1 = Returned r /\
    locatedByBranch options r /\ honest options r /\
    (r_met r = true -> r_contrast r = measured options (r_lightness r)).
Proof.
  intros Hc.
  destruct (returns_run _ _ c Hc (findLightnessForContrast_sound options)) as (r & Hr & Hs).
  exists r. split; [exact Hr |].
  destruct (ensures_run _ _ c r (findLightnessForContrast_inside options) Hr) as [Hl Hh].
  split; [exact Hl |]. split; [exact Hh |]. intros Hm. apply Hs, Hm.
Qed.

(** X3. The lightness [findLightnessForContrast] returns lies where its
    [branch] says: it is [preferredLightness] for 'preferred', between the
    lower end of the range and [preferredLightness] for 'darker', between
    [preferredLightness] and the upper end of the range for 'lighter'. *)
Theorem X3_solver_result_lies_in_its_branch (options : FindLightnessForContrastOptions)
    (c : Cache) :
  reachable c ->
  exists r, (run (findLightnessForContrast options) c).1 = Returned r /\
    match r_branch r with
    | preferred => r_lightness r = o_preferredLightness options
    | darker =>
        (rangeOf options).1 <= r_lightness r /\
        r_lightness r <= o_preferredLightness options
    | lighter =>
        o_preferredLightness options <= r_lightness r /\
        r_lightness r <= (rangeOf options).2
    end.
Proof.
  intros Hc. destruct (findLightnessForContrast_run options c Hc) as (r & Hr & Hl & _).
  exists r. split; [exact Hr | exact Hl].
Qed.

(** X4. [met] is true exactly when the reported [contrast] reaches the
    resolved target. *)
Theorem X4_solver_met_iff_target_reached (options : FindLightnessForContrastOptions)
    (c : Cache) :
  reachable c ->
  exists r, (run (findLightnessForContrast options) c).1 = Returned r /\
    (r_met r = true <-> targetOf options <= r_contrast r).
Proof.
  intros Hc. destruct (findLightnessForContrast_run options c Hc) as (r & Hr & _ & Hh & _).
  exists r. split; [exact Hr | exact Hh].
Qed.

(** X5. The solver keeps its own result: called again with the lightness
    of a result that met the target as [preferredLightness], it returns
    that lightness and contrast, with [met] and the branch 'preferred'. *)
Theorem X5_solver_keeps_its_own_result (options : FindLightnessForContrastOptions)
    (c c' : Cache) :
  reachable c -> reachable c' ->
  exists r, (run (findLightnessForContrast options) c).1 = Returned r /\
    (r_met r = true ->
     (run (findLightnessForContrast (withPreferred options (r_lightness r))) c').1 =
     Returned {| r_lightness := r_lightness r; r_contrast := r_contrast r;
                 r_met := true; r_branch := preferred |}).
Proof.
  intros Hc Hc'.
  destruct (findLightnessForContrast_run options c Hc) as (r & Hr & _ & Hh & Hm).
  exists r. split; [exact Hr |]. intros Hmet.
  specialize (Hm Hmet). apply Hh in Hmet.
  destruct (run_eval (findLightnessForContrast (withPreferred options (r_lightness r))) c')
    as [-> _]; [apply reachable_coherent, Hc' |].
  unfold findLightnessForContrast, withPreferred. cbn.
  unfold measured, contrastAt, contrastOf, yBaseOf in Hm. rewrite <- Hm.
  unfold targetOf in Hmet. apply Qc_leb_le in Hmet. rewrite Hmet. reflexivity.
Qed.

End SolverExtras.


(* ===================================================================== *)
(** * Validation accepts the well-formed acyclic maps; the order puts bases first *)
(* ===================================================================== *)

Lemma truthy_hasBase (def : ColorDef) : truthy (base def) = true <-> hasBase def.
Proof.
  unfold truthy, hasBase. destruct (base def) as [b |].
  - destruct (String.eqb_spec b "") as [-> | Hne]; cbn.
    + split; [discriminate | intros (b & [= <-] & Hb); contradiction].
    + split; [eauto | reflexivity].
  - split; [discriminate | intros (b & [=] & _)].
Qed.

Lemma isAbsoluteLightness_true (l : option (HCPair NumberOrRelative)) :
  isAbsoluteLightness l = true <-> exists p v, l = Some p /\ pairNormal p = Num v.
Proof.
  unfold isAbsoluteLightness. destruct l as [p |].
  - destruct (pairNormal p) as [v | v] eqn:Hp.
    + split; [eauto | reflexivity].
    + split; [discriminate | intros (p' & v' & [= <-] & Hp'); congruence].
  - split; [discriminate | intros (p' & v' & [=] & _)].
Qed.

Lemma checkDef_wellFormed (defs : ColorMap) (name : string) (def : ColorDef) :
  checkDef (list_to_set (keys defs)) name def = Returned tt <-> wellFormed defs def.
Proof.
  unfold checkDef, wellFormed.
  pose proof (truthy_hasBase def) as Ht.
  pose proof (isAbsoluteLightness_true (lightness def)) as Ha.
  destruct (truthy (base def)) eqn:Etr; destruct (isAbsoluteLightness (lightness def)) eqn:Eab;
    cbn [negb andb]; rewrite ?andb_false_r, ?andb_true_r; cbn [negb andb].
  - (* base, absolute *)
    destruct Ht as [Ht _]. destruct (Ht eq_refl) as (b & Hb & Hne).
    rewrite Hb. cbn. case_bool_decide as Hin; cbn.
    + split; [intros _ | reflexivity]. repeat split.
      * intros _. exists b; auto.
      * intros p v _ _. exists b; auto.
      * intros b' [= <-] _. set_solver.
      * left. apply Ha. reflexivity.
    + split; [discriminate |]. intros (_ & _ & Hdecl & _). exfalso. apply Hin.
      specialize (Hdecl b eq_refl Hne). set_solver.
  - destruct Ht as [Ht _]. destruct (Ht eq_refl) as (b & Hb & Hne).
    rewrite Hb. cbn. case_bool_decide as Hin; cbn.
    + split; [intros _ | reflexivity]. repeat split.
      * intros _. exists b; auto.
      * intros p v _ _. exists b; auto.
      * intros b' [= <-] _. set_solver.
      * right. discriminate.
    + split; [discriminate |]. intros (_ & _ & Hdecl & _). exfalso. apply Hin.
      specialize (Hdecl b eq_refl Hne). set_solver.
  - (* no base, absolute *)
    assert (Hnb : ~ hasBase def) by (intros Hb; apply Ht in Hb; discriminate).
    destruct (contrast def) as [c |] eqn:Hc; cbn.
    + split; [discriminate |]. intros (Hcon & _). exfalso. apply Hnb, Hcon. discriminate.
    + split; [intros _ | reflexivity]. repeat split.
      * intros Hcon. contradiction.
      * intros p v Hp Hv. exfalso.
        destruct Ha as [Ha _]. destruct (Ha eq_refl) as (p' & v' & Hp' & Hv'). congruence.
      * intros b Hb Hne. exfalso. apply Hnb. exists b; auto.
      * left. apply Ha. reflexivity.
  - (* no base, not absolute *)
    assert (Hnb : ~ hasBase def) by (intros Hb; apply Ht in Hb; discriminate).
    destruct (contrast def) as [c |] eqn:Hc; cbn.
    { split; [discriminate |]. intros (Hcon & _). exfalso. apply Hnb, Hcon. discriminate. }
    destruct (lightness def) as [p |] eqn:Hl; cbn.
    { split; [discriminate |]. intros (_ & Hrel & _). exfalso.
      destruct (pairNormal p) as [v | v] eqn:Hp.
      - assert (Habs : isAbsoluteLightness (Some p) = true) by (apply isAbsoluteLightness_true; eauto).
        congruence.
      - apply Hnb. eapply Hrel; eauto. }
    destruct (base def) as [b |] eqn:Hb; cbn.
    + split; [intros _ | reflexivity]. repeat split.
      * intros Hcon. contradiction.
      * intros p v [=].
      * intros b' [= <-] Hne. exfalso. apply Hnb. exists b; auto.
      * right. discriminate.
    + split; [discriminate |]. intros (_ & _ & _ & [(p & v & [=] & _) | Hn]). contradiction.
Qed.

Lemma checkDefs_all (names : gset string) (entries : ColorMap) :
  checkDefs names entries = Returned tt <->
  forall name def, (name, def) ∈ entries -> checkDef names name def = Returned tt.
Proof.
  split; [intros Hc name def Hin; eapply checkDefs_elem; eauto |].
  induction entries as [| [k d] rest IH]; cbn; intros Hall; [reflexivity |].
  rewrite (Hall k d) by left. apply IH. intros name def Hin. apply Hall. right. exact Hin.
Qed.

Section Cycles.
Variable defs : ColorMap.

(** A circular reference is reported only where there is one. *)
Lemma dfs_thrown (fuel : nat) :
  forall (name : string) (visited inStack : gset string) (m : string),
    (forall x, x ∈ inStack -> tc (followedEdge defs) x name) ->
    dfs defs fuel name visited inStack = Thrown (CircularBase m) ->
    tc (followedEdge defs) m m.
Proof.
  induction fuel as [| fuel IH]; intros name visited inStack m Hst; cbn; [discriminate |].
  case_bool_decide as Hin; [intros [= <-]; apply Hst, Hin |].
  case_bool_decide as Hvis; [discriminate |].
  destruct (lookupDef defs name) as [def |] eqn:Hdef; [| discriminate].
  destruct (followedBase def) as [b |] eqn:Hb; [| discriminate].
  destruct (dfs defs fuel b visited ({[name]} ∪ inStack)) as [v | e] eqn:Hr; [discriminate |].
  intros [= ->]. eapply IH; [| exact Hr].
  assert (He : followedEdge defs name b) by (exists def; auto).
  intros x Hx. apply elem_of_union in Hx as [Hx | Hx].
  - apply elem_of_singleton in Hx as ->. apply tc_once, He.
  - eapply tc_r; [apply Hst, Hx | exact He].
Qed.

Lemma dfsAll_thrown (fuel : nat) (names : list string) :
  forall (visited : gset string) (m : string),
    dfsAll defs fuel names visited = Thrown (CircularBase m) ->
    tc (followedEdge defs) m m.
Proof.
  induction names as [| name rest IH]; intros visited m; cbn; [discriminate |].
  destruct (dfs defs fuel name visited ∅) as [v | e] eqn:Hr.
  - apply IH.
  - intros [= ->]. eapply dfs_thrown; [| exact Hr]. intros x Hx. set_solver.
Qed.

End Cycles.

(** X6. [validateColorDefs] returns without an error exactly for the
    maps in which every definition is well formed (a contrast floor or a
    relative lightness comes with a base, a base is a declared name, a
    colour has an absolute lightness or a base) and the base references
    it follows contain no cycle. *)
Theorem X6_validation_accepts_exactly (defs : ColorMap) :
  validateColorDefs defs = Returned tt <->
  (forall name def, (name, def) ∈ defs -> wellFormed defs def) /\
  (forall name, ~ tc (followedEdge defs) name name).
Proof.
  split.
  - intros Hv.
    assert (Hc : definitionsChecked defs).
    { unfold validateColorDefs in Hv. unfold definitionsChecked.
      destruct (checkDefs (list_to_set (keys defs)) defs) as [[] | e]; [reflexivity | discriminate]. }
    split.
    + intros name def Hin. apply (checkDef_wellFormed defs name).
      eapply checkDefs_elem; eauto.
    + intros name Hcyc. destruct (validateColorDefs_cycle defs name Hc Hcyc) as [m Hm].
      congruence.
  - intros [Hwf Hacyc].
    assert (Hc : definitionsChecked defs).
    { apply checkDefs_all. intros name def Hin. apply checkDef_wellFormed, (Hwf name def Hin). }
    unfold validateColorDefs. rewrite Hc.
    destruct (dfsAll_spec defs (definitionsChecked_closed defs Hc)
                (S (length defs)) (keys defs) ∅) as [(v & Hr & _) | (m & Hr)].
    + intros x Hx. set_solver.
    + pose proof (size_list_to_set_le (keys defs)) as Hs.
      unfold keys in *. rewrite length_fmap in Hs. lia.
    + intros x Hx. set_solver.
    + rewrite Hr. reflexivity.
    + exfalso. apply (Hacyc m). eapply dfsAll_thrown, Hr.
Qed.

Lemma precedes_app (l l' : list string) (a b : string) :
  precedes l a b -> precedes (l ++ l') a b.
Proof.
  intros (l1 & l2 & -> & Ha). exists l1, (l2 ++ l'). split; [| exact Ha].
  rewrite <- app_assoc. reflexivity.
Qed.

Lemma precedes_last (l : list string) (a b : string) :
  a ∈ l -> precedes (l ++ [b]) a b.
Proof. intros Ha. exists l, []. auto. Qed.

Section TopologicalOrder.
Variable defs : ColorMap.
Hypothesis closed :
  forall name def b, lookupDef defs name = Some def -> followedBase def = Some b ->
    b ∈ keys defs.

Local Abbreviation declared := (list_to_set (keys defs) : gset string).
Local Abbreviation E := (followedEdge defs).

Lemma visit_sorted (fuel : nat) :
  forall (name : string) (visited : gset string) (result : list string),
    name ∈ declared -> (size (declared ∖ visited) < fuel)%nat ->
    settles defs name ->
    topologicallySorted defs visited result ->
    (forall y, rtc E name y -> y ∈ visited -> y ∈ result) ->
    exists visited' extra,
      visit defs fuel name (visited, result) = Returned (visited', result ++ extra) /\
      topologicallySorted defs visited' (result ++ extra) /\
      name ∈ result ++ extra /\
      visited ⊆ visited' /\
      (forall y, y ∈ visited' -> y ∈ visited \/ y ∈ extra) /\
      (forall y, y ∈ extra -> y ∉ visited).
Proof.
  induction fuel as [| fuel IH]; intros name visited result Hn Hfuel Hset Hsorted Hchain; [lia |].
  cbn. case_bool_decide as Hvis.
  { exists visited, []. rewrite app_nil_r. split; [reflexivity |].
    split; [exact Hsorted |]. split; [apply Hchain; [apply rtc_refl | exact Hvis] |].
    split; [set_solver |]. split; [auto |]. intros y Hy. inversion Hy. }
  destruct Hsorted as (Hnd & Hsub & Hord).
  assert (Hfresh : name ∉ result) by (intros Hin; apply Hvis, Hsub, Hin).
  destruct Hset as [name def Hdef Hnone | name def b Hdef Hb Hsetb]; rewrite Hdef, ?Hnone, ?Hb.
  - exists ({[name]} ∪ visited), [name]. split; [reflexivity |].
    split; [| split; [set_solver | split; [set_solver | split]]].
    + split; [| split].
      * apply list.NoDup_app. split; [exact Hnd |]. split; [| apply NoDup_singleton].
        intros x Hx Hx'. apply list_elem_of_singleton in Hx' as ->. contradiction.
      * intros x Hx. apply elem_of_app in Hx as [Hx | Hx].
        -- destruct (Hsub x Hx). set_solver.
        -- apply list_elem_of_singleton in Hx as ->. set_solver.
      * intros x b Hx Hxb. apply elem_of_app in Hx as [Hx | Hx].
        -- apply precedes_app, Hord; assumption.
        -- apply list_elem_of_singleton in Hx as ->.
           destruct Hxb as (d & Hd & Hf). congruence.
    + intros y Hy. apply elem_of_union in Hy as [Hy | Hy]; [right | left; exact Hy].
      apply elem_of_singleton in Hy as ->. left.
    + intros y Hy. apply list_elem_of_singleton in Hy as ->. exact Hvis.
  - assert (He : E name b) by (exists def; auto).
    assert (Hlt : (size (declared ∖ ({[name]} ∪ visited)) < size (declared ∖ visited))%nat).
    { apply subset_size. split; [set_solver |].
      intros Hs. specialize (Hs name). set_solver. }
    destruct (IH b ({[name]} ∪ visited) result) as (v' & extra & Hr & Hs' & Hb' & Hv' & Hnew & Hdisj).
    + pose proof (closed name def b Hdef Hb). set_solver.
    + lia.
    + exact Hsetb.
    + split; [exact Hnd |]. split; [| exact Hord].
      intros x Hx. destruct (Hsub x Hx). set_solver.
    + intros y Hby Hy. apply elem_of_union in Hy as [Hy | Hy].
      * apply elem_of_singleton in Hy as ->. exfalso.
        apply (settles_no_cycle defs name); [econstructor 2; eauto |].
        eapply tc_rtc_r; [apply tc_once, He | exact Hby].
      * apply Hchain; [| exact Hy]. eapply rtc_l; eauto.
    + rewrite Hr. exists v', (extra ++ [name]). rewrite app_assoc.
      split; [reflexivity |].
      destruct Hs' as (Hnd' & Hsub' & Hord').
      assert (Hfresh' : name ∉ result ++ extra).
      { intros Hin. apply elem_of_app in Hin as [Hin | Hin]; [contradiction |].
        apply (Hdisj name Hin). set_solver. }
      split; [| split; [set_solver | split; [set_solver | split]]].
      * split; [| split].
        -- apply list.NoDup_app. split; [exact Hnd' |]. split; [| apply NoDup_singleton].
           intros x Hx Hx'. apply list_elem_of_singleton in Hx' as ->. contradiction.
        -- intros x Hx. apply elem_of_app in Hx as [Hx | Hx]; [apply Hsub', Hx |].
           apply list_elem_of_singleton in Hx as ->. set_solver.
        -- intros x b' Hx Hxb. apply elem_of_app in Hx as [Hx | Hx].
           ++ apply precedes_app, Hord'; assumption.
           ++ apply list_elem_of_singleton in Hx as ->.
              rewrite (followedEdge_functional _ _ _ _ Hxb He).
              apply precedes_last, Hb'.
      * intros y Hy. destruct (Hnew y Hy) as [Hy' | Hy'].
        -- apply elem_of_union in Hy' as [Hy' | Hy']; [| left; exact Hy'].
           apply elem_of_singleton in Hy' as ->. right. set_solver.
        -- right. set_solver.
      * intros y Hy. apply elem_of_app in Hy as [Hy | Hy].
        -- intros Hyv. apply (Hdisj y Hy). set_solver.
        -- apply list_elem_of_singleton in Hy as ->. exact Hvis.
Qed.

Lemma visitAll_sorted (fuel : nat) (names : list string) :
  forall (visited : gset string) (result : list string),
    (forall x, x ∈ names -> x ∈ declared /\ settles defs x) ->
    (size declared < fuel)%nat ->
    topologicallySorted defs visited result -> (forall y, y ∈ visited -> y ∈ result) ->
    exists visited' result',
      visitAll defs fuel names (visited, result) = Returned (visited', result') /\
      topologicallySorted defs visited' result' /\
      (forall x, x ∈ names \/ x ∈ result -> x ∈ result').
Proof.
  induction names as [| name rest IH]; intros visited result Hnames Hfuel Hs Hfull; cbn.
  - exists visited, result. split; [reflexivity |]. split; [exact Hs |]. intros x [Hx | Hx]; [inversion Hx | exact Hx].
  - destruct (Hnames name ltac:(left)) as [Hd Hset].
    destruct (visit_sorted fuel name visited result) as (v' & extra & Hr & Hs' & Hin & Hv' & Hnew & _); auto.
    { assert (Hle : (size (declared ∖ visited) <= size declared)%nat)
        by (apply subseteq_size; set_solver).
      lia. }
    rewrite Hr.
    destruct (IH v' (result ++ extra)) as (v'' & r'' & Hr' & Hs'' & Hall); auto.
    { intros x Hx. apply Hnames. right. exact Hx. }
    { intros y Hy. destruct (Hnew y Hy) as [Hy' | Hy']; set_solver. }
    exists v'', r''. split; [exact Hr' |]. split; [exact Hs'' |].
    intros x [Hx | Hx].
    + apply elem_of_cons in Hx as [-> | Hx]; [apply Hall; right; exact Hin | apply Hall; left; exact Hx].
    + apply Hall. right. set_solver.
Qed.

End TopologicalOrder.

(** After validation [topoSort] returns an order: the declared names,
    each once, every followed base before the colours that follow it. *)
Lemma topoSort_sorted (defs : ColorMap) :
  validateColorDefs defs = Returned tt ->
  exists order, topoSort defs = Returned order /\
    NoDup order /\
    (forall x, x ∈ order <-> x ∈ keys defs) /\
    (forall x b, followedEdge defs x b -> precedes order b x).
Proof.
  intros Hv.
  assert (Hc : definitionsChecked defs).
  { unfold validateColorDefs in Hv. unfold definitionsChecked.
    destruct (checkDefs (list_to_set (keys defs)) defs) as [[] | e]; [reflexivity | discriminate]. }
  assert (Hset : forall x, x ∈ keys defs -> settles defs x).
  { unfold validateColorDefs in Hv. rewrite Hc in Hv.
    destruct (dfsAll_spec defs (definitionsChecked_closed defs Hc)
                (S (length defs)) (keys defs) ∅) as [(v & Hr & Hall) | (m & Hr)].
    - intros x Hx. set_solver.
    - pose proof (size_list_to_set_le (keys defs)) as Hs.
      unfold keys in *. rewrite length_fmap in Hs. lia.
    - intros x Hx. set_solver.
    - exact Hall.
    - rewrite Hr in Hv. discriminate. }
  unfold topoSort.
  destruct (visitAll_sorted defs (definitionsChecked_closed defs Hc)
              (S (length defs)) (keys defs) ∅ []) as (v & order & Hr & (Hnd & Hsub & Hord) & Hall).
  - intros x Hx. split; [set_solver | apply Hset, Hx].
  - pose proof (size_list_to_set_le (keys defs)) as Hs.
    unfold keys in *. rewrite length_fmap in Hs. lia.
  - split; [constructor |]. split; [intros x Hx; inversion Hx |]. intros x b Hx. inversion Hx.
  - intros y Hy. set_solver.
  - rewrite Hr. exists order. split; [reflexivity |]. split; [exact Hnd |].
    split.
    + intros x. split; [intros Hx; destruct (Hsub x Hx); set_solver | intros Hx; apply Hall; left; exact Hx].
    + intros x b Hxb. apply Hord; [| exact Hxb].
      apply Hall. left. destruct Hxb as (d & Hd & _). eapply lookupDef_keys, Hd.
Qed.

(** X7. On a map that passes validation [topoSort] returns the declared
    names, each once, with every base that is followed before the colour
    that follows it. *)
Theorem X7_topoSort_bases_first (defs : ColorMap) :
  validateColorDefs defs = Returned tt ->
  exists order, topoSort defs = Returned order /\
    NoDup order /\
    (forall x, x ∈ order <-> x ∈ keys defs) /\
    (forall x b, followedEdge defs x b -> precedes order b x).
Proof. apply topoSort_sorted. Qed.

(* ===================================================================== *)
(** * The passes of [resolveAllColors], traced *)
(* ===================================================================== *)

Lemma app_snoc_split {A : Type} (done : list A) (x : A) (l1 : list A) (y : A) (l2 : list A) :
  done ++ [x] = l1 ++ y :: l2 ->
  (l1 = done /\ y = x /\ l2 = []) \/ (exists l2', l2 = l2' ++ [x] /\ done = l1 ++ y :: l2').
Proof.
  destruct l2 as [| z l2 _] using rev_ind; intros Heq.
  - left. apply app_inj_tail in Heq as [-> ->]. auto.
  - right. exists l2.
    change (l1 ++ y :: l2 ++ [z]) with (l1 ++ (y :: l2) ++ [z]) in Heq.
    rewrite app_assoc in Heq. apply app_inj_tail in Heq as [-> ->]. auto.
Qed.

Section Trace.
Context `{ColorMath}.

Lemma eval_bind_Returned {A B : Type} (p : Prog A) (f : A -> Prog B) (b : B) :
  eval (p ≫= f) = Returned b -> exists a, eval p = Returned a /\ eval (f a) = Returned b.
Proof.
  rewrite eval_bind. destruct (eval p) as [a | e]; [eauto | discriminate].
Qed.

Lemma eval_nonNull {A : Type} (what : string) (o : option A) (a : A) :
  eval (nonNull what o) = Returned a -> o = Some a.
Proof. destruct o; cbn; congruence. Qed.

Lemma eval_liftOutcome {A : Type} (o : Outcome A) (a : A) :
  eval (liftOutcome o) = Returned a -> o = Returned a.
Proof. destruct o; cbn; congruence. Qed.

(** A loop that returns has kept an invariant of the items done so far. *)
Lemma eval_forEach_prefix {A S : Type} (xs : list A) (body : A -> S -> Prog S)
    (I : list A -> S -> Prop) (st0 st : S) :
  eval (forEach xs body st0) = Returned st ->
  I [] st0 ->
  (forall done x rest s s', xs = done ++ x :: rest -> I done s ->
     eval (body x s) = Returned s' -> I (done ++ [x]) s') ->
  I xs st.
Proof.
  intros Hrun H0 Hstep.
  enough (Hgen : forall todo done s, xs = done ++ todo -> I done s ->
            eval (forEach todo body s) = Returned st -> I xs st)
    by (apply (Hgen xs [] st0); auto).
  induction todo as [| x todo IH]; intros done s Hxs Hs Hr; cbn in Hr.
  - injection Hr as <-. rewrite app_nil_r in Hxs. subst xs. exact Hs.
  - apply eval_bind_Returned in Hr as (s' & Hb & Hr).
    apply (IH (done ++ [x]) s'); [rewrite <- app_assoc; exact Hxs | | exact Hr].
    eapply Hstep; eauto.
Qed.

(** What one round of an evaluating loop does. *)
Lemma eval_evaluatePass (cfg : GlazeConfig) (hue saturation : Qc) (defs : ColorMap)
    (isDark isHighContrast : bool)
    (store : string -> ColorDef -> ResolvedColorVariant ->
             gmap string ResolvedColor -> Prog ResolvedColor)
    (name : string) (pm pm' : gmap string ResolvedColorVariant)
    (R R' : gmap string ResolvedColor) :
  eval (evaluatePass cfg hue saturation defs isDark isHighContrast store name (pm, R))
    = Returned (pm', R') ->
  exists def v e,
    lookupDef defs name = Some def /\
    eval (resolveColorForScheme cfg name def (mkContext hue saturation defs R)
            isDark isHighContrast) = Returned v /\
    eval (store name def v R) = Returned e /\
    pm' = <[name := v]> pm /\ R' = <[name := e]> R.
Proof.
  unfold evaluatePass. intros Hr.
  apply eval_bind_Returned in Hr as (def & Hdef & Hr). apply eval_nonNull in Hdef.
  apply eval_bind_Returned in Hr as (v & Hv & Hr).
  apply eval_bind_Returned in Hr as (e & He & Hr).
  cbn in Hr. injection Hr as <- <-. exists def, v, e. auto.
Qed.

Lemma resolveRootColor_congr (def : ColorDef) (h h' : bool) :
  (forall p, lightness def = Some p ->
     (if h then pairHC p else pairNormal p) = (if h' then pairHC p else pairNormal p)) ->
  resolveRootColor def h = resolveRootColor def h'.
Proof.
  intros Hl. unfold resolveRootColor. destruct (lightness def) as [p |]; [| reflexivity].
  cbn [nonNull mbind Prog_bind bind mret Prog_ret].
  rewrite (Hl p eq_refl). reflexivity.
Qed.

Lemma resolveDependentColor_congr (cfg : GlazeConfig) (name : string) (def : ColorDef)
    (hue saturation : Qc) (defs defs' : ColorMap) (R R' : gmap string ResolvedColor)
    (d h h' : bool) (effectiveHue : Qc) (b : string) (rb rb' : ResolvedColor) :
  (forall p, lightness def = Some p ->
     (if h then pairHC p else pairNormal p) = (if h' then pairHC p else pairNormal p)) ->
  (forall p, contrast def = Some p ->
     (if h then pairHC p else pairNormal p) = (if h' then pairHC p else pairNormal p)) ->
  base def = Some b -> R !! b = Some rb -> R' !! b = Some rb' ->
  variantFor rb d h = variantFor rb' d h' ->
  resolveDependentColor cfg name def (mkContext hue saturation defs R) h d effectiveHue =
  resolveDependentColor cfg name def (mkContext hue saturation defs' R') h' d effectiveHue.
Proof.
  intros Hl Hc Hb HR HR' Hvar. unfold resolveDependentColor.
  cbn [ctx_resolved ctx_saturation ctx_hue]. rewrite Hb.
  change (Some b ≫= (fun b0 : string => R !! b0)) with (R !! b).
  change (Some b ≫= (fun b0 : string => R' !! b0)) with (R' !! b).
  rewrite HR, HR', Hvar.
  destruct (lightness def) as [p |]; destruct (contrast def) as [q |];
    rewrite ?(Hl _ eq_refl), ?(Hc _ eq_refl); reflexivity.
Qed.

(** A colour that is no root is evaluated only once its base is in the
    context. *)
Lemma resolveColorForScheme_base (cfg : GlazeConfig) (name : string) (def : ColorDef)
    (ctx : ResolveContext) (d h : bool) (v : ResolvedColorVariant) :
  isRoot def = false ->
  eval (resolveColorForScheme cfg name def ctx d h) = Returned v ->
  exists b rb, base def = Some b /\ ctx_resolved ctx !! b = Some rb.
Proof.
  intros Hroot. unfold resolveColorForScheme. fold (isRoot def). rewrite Hroot.
  rewrite eval_bind. unfold resolveDependentColor.
  destruct (base def) as [b |].
  - change (Some b ≫= (fun b0 : string => ctx_resolved ctx !! b0)) with (ctx_resolved ctx !! b).
    destruct (ctx_resolved ctx !! b) as [rb |] eqn:HR; [eauto |].
    intros Hv. cbv beta iota in Hv. cbn [eval] in Hv. discriminate.
  - intros Hv. cbv beta iota in Hv. cbn [eval] in Hv. discriminate.
Qed.

(** The variant of a colour depends on the context through the variant
    of its base alone, and on the contrast level through the halves of
    its pairs alone. *)
Lemma resolveColorForScheme_congr (cfg : GlazeConfig) (name : string) (def : ColorDef)
    (hue saturation : Qc) (defs defs' : ColorMap) (R R' : gmap string ResolvedColor)
    (d h h' : bool) (v : ResolvedColorVariant) :
  (forall p, lightness def = Some p ->
     (if h then pairHC p else pairNormal p) = (if h' then pairHC p else pairNormal p)) ->
  (forall p, contrast def = Some p ->
     (if h then pairHC p else pairNormal p) = (if h' then pairHC p else pairNormal p)) ->
  (isRoot def = false -> forall b rb, base def = Some b -> R !! b = Some rb ->
     exists rb', R' !! b = Some rb' /\ variantFor rb d h = variantFor rb' d h') ->
  eval (resolveColorForScheme cfg name def (mkContext hue saturation defs R) d h)
    = Returned v ->
  eval (resolveColorForScheme cfg name def (mkContext hue saturation defs' R') d h')
    = Returned v.
Proof.
  intros Hl Hc Hb Hv.
  destruct (isRoot def) eqn:Hroot.
  - revert Hv. unfold resolveColorForScheme. fold (isRoot def). rewrite Hroot.
    rewrite (resolveRootColor_congr def h h' Hl). exact (fun Hv => Hv).
  - destruct (resolveColorForScheme_base _ _ _ _ _ _ _ Hroot Hv) as (b & rb & Hbase & HR).
    cbn [ctx_resolved] in HR.
    destruct (Hb eq_refl b rb Hbase HR) as (rb' & HR' & Hvar).
    revert Hv. unfold resolveColorForScheme. fold (isRoot def). rewrite Hroot.
    cbn [ctx_hue ctx_saturation].
    rewrite (resolveDependentColor_congr cfg name def hue saturation defs defs' R R'
               d h h' _ b rb rb' Hl Hc Hbase HR HR' Hvar).
    exact (fun Hv => Hv).
Qed.

End Trace.

Section Passes.
Context `{ColorMath}.
Variables (cfg : GlazeConfig) (hue saturation : Qc) (defs : ColorMap).

Local Abbreviation ctx R := (mkContext hue saturation defs R).

(** The first pass starts from an empty context: that it returns shows
    the order puts bases first. *)
Lemma firstPass_basesFirst (order : list string) (d h : bool)
    (store : string -> ColorDef -> ResolvedColorVariant ->
             gmap string ResolvedColor -> Prog ResolvedColor)
    (pm : gmap string ResolvedColorVariant) (R : gmap string ResolvedColor) :
  eval (forEach order (evaluatePass cfg hue saturation defs d h store) (∅, ∅))
    = Returned (pm, R) ->
  basesFirst defs order.
Proof.
  intros Hrun.
  apply (eval_forEach_prefix order _
           (fun done st => (forall n, is_Some (st.2 !! n) -> n ∈ done) /\ basesFirst defs done)
           _ _ Hrun).
  - split; [cbn; intros n [? Hn]; rewrite lookup_empty in Hn; discriminate |].
    intros l1 x l2 def Heq. destruct l1; discriminate.
  - intros done x rest [pm0 R0] [pm1 R1] Hxs [Hdom Hbf] Hstep. cbn in Hdom.
    apply eval_evaluatePass in Hstep as (def & v & e & Hdef & Hv & _ & -> & ->).
    split.
    + cbn. intros n Hn. apply lookup_insert_is_Some in Hn as [<- | [_ Hn]]; set_solver.
    + intros l1 y l2 def' Heq Hdef' Hroot.
      apply app_snoc_split in Heq as [(-> & -> & ->) | (l2' & -> & ->)].
      * assert (def' = def) as -> by congruence.
        destruct (resolveColorForScheme_base _ _ _ _ _ _ _ Hroot Hv) as (b & rb & Hb & HR).
        cbn [ctx_resolved] in HR.
        exists b. split; [exact Hb |]. apply Hdom. eauto.
      * eapply Hbf; eauto.
Qed.

Lemma pass_trace (order : list string) (d h : bool)
    (store : string -> ColorDef -> ResolvedColorVariant ->
             gmap string ResolvedColor -> Prog ResolvedColor)
    (R0 : gmap string ResolvedColor)
    (st : gmap string ResolvedColorVariant * gmap string ResolvedColor) :
  NoDup order -> basesFirst defs order ->
  (forall name def v R e, eval (store name def v R) = Returned e -> variantFor e d h = v) ->
  eval (forEach order (evaluatePass cfg hue saturation defs d h store) (∅, R0))
    = Returned st ->
  passDone cfg hue saturation defs d h order st.
Proof.
  intros Hnd Hbf Hstore Hrun.
  apply (eval_forEach_prefix order _ (passDone cfg hue saturation defs d h) _ _ Hrun).
  - split; [cbn; intros x [? Hx]; rewrite lookup_empty in Hx; discriminate |].
    intros x Hx. inversion Hx.
  - intros done x rest [pm0 R] [pm1 R1] Hxs [Hkeys Hdone] Hstep. cbn in Hkeys, Hdone.
    apply eval_evaluatePass in Hstep as (def & v & e & Hdef & Hv & He & -> & ->).
    assert (Hx : x ∉ done).
    { rewrite Hxs in Hnd. apply list.NoDup_app in Hnd as (_ & Hdisj & _).
      intros Hin. apply (Hdisj x Hin). left. }
    (* the variant of a colour done so far does not depend on the entry of [x] *)
    assert (Hkeep : forall n defn vn, (n ∈ done \/ n = x) -> lookupDef defs n = Some defn ->
              eval (resolveColorForScheme cfg n defn (ctx R) d h) = Returned vn ->
              eval (resolveColorForScheme cfg n defn (ctx (<[x := e]> R)) d h) = Returned vn).
    { intros n defn vn Hn Hdefn Hvn.
      eapply resolveColorForScheme_congr; [reflexivity | reflexivity | | exact Hvn].
      intros Hroot b rb Hb HR. exists rb. split; [| reflexivity].
      rewrite lookup_insert_ne; [exact HR |]. intros <-.
      destruct Hn as [Hn | ->].
      - apply list_elem_of_split in Hn as (l1 & l2 & ->).
        rewrite <- app_assoc in Hxs. cbn in Hxs.
        destruct (Hbf _ _ _ _ Hxs Hdefn Hroot) as (b' & Hb' & Hin).
        assert (b' = x) as -> by congruence.
        apply Hx. set_solver.
      - destruct (Hbf _ _ _ _ Hxs Hdefn Hroot) as (b' & Hb' & Hin).
        assert (b' = x) as -> by congruence. contradiction. }
    split; cbn.
    + intros n Hn. apply lookup_insert_is_Some in Hn as [<- | [_ Hn]]; set_solver.
    + intros n Hn. apply elem_of_app in Hn as [Hn | Hn].
      * destruct (Hdone n Hn) as (defn & vn & en & Hdefn & Hpm & HR & Hvar & Hvn).
        assert (Hne : x ≠ n) by (intros ->; contradiction).
        exists defn, vn, en. rewrite !lookup_insert_ne by exact Hne.
        repeat split; auto.
      * apply list_elem_of_singleton in Hn as ->.
        exists def, v, e. rewrite !lookup_insert_eq.
        repeat split; eauto.
Qed.

End Passes.

Section Result.
Context `{ColorMath}.
Variables (cfg : GlazeConfig) (hue saturation : Qc) (defs : ColorMap).

Local Abbreviation ctx R := (mkContext hue saturation defs R).

(** From the context a pass ends with to the map [resolve] returns. *)
Lemma pass_to_result (order : list string) (d h : bool)
    (st : gmap string ResolvedColorVariant * gmap string ResolvedColor)
    (M : gmap string ResolvedColor) :
  basesFirst defs order -> passDone cfg hue saturation defs d h order st ->
  (forall x, x ∈ order <-> is_Some (M !! x)) ->
  (forall x rc, M !! x = Some rc -> st.1 !! x = Some (variantFor rc d h)) ->
  forall x def rc, lookupDef defs x = Some def -> M !! x = Some rc ->
    eval (resolveColorForScheme cfg x def (ctx M) d h) = Returned (variantFor rc d h).
Proof.
  intros Hbf [_ Hdone] Hdom Hpm x def rc Hdef HM.
  assert (Hx : x ∈ order) by (apply Hdom; eauto).
  destruct (Hdone x Hx) as (def' & v & e & Hdef' & Hv & _ & _ & Heval).
  assert (def' = def) as -> by congruence.
  rewrite (Hpm x rc HM) in Hv. injection Hv as <-.
  eapply resolveColorForScheme_congr; [reflexivity | reflexivity | | exact Heval].
  intros Hroot b rb Hb HR.
  apply list_elem_of_split in Hx as (l1 & l2 & Hsplit).
  destruct (Hbf _ _ _ _ Hsplit Hdef Hroot) as (b' & Hb' & Hin).
  assert (b' = b) as -> by congruence.
  assert (Hbo : b ∈ order) by (rewrite Hsplit; set_solver).
  destruct (proj1 (Hdom b) Hbo) as [rb' HMb]. exists rb'. split; [exact HMb |].
  destruct (Hdone b Hbo) as (defb & vb & eb & _ & Hvb & HRb & Hvar & _).
  rewrite (Hpm b rb' HMb) in Hvb. injection Hvb as <-.
  cbn in HRb. congruence.
Qed.

(** The loop that builds the result. *)
Lemma final_trace (order : list string)
    (lightMap darkMap lightHCMap darkHCMap : gmap string ResolvedColorVariant)
    (M : gmap string ResolvedColor) :
  eval (forEach order
          (fun name result =>
             def ← nonNull name (lookupDef defs name);
             lv ← nonNull name (lightMap !! name);
             dv ← nonNull name (darkMap !! name);
             lhv ← nonNull name (lightHCMap !! name);
             dhv ← nonNull name (darkHCMap !! name);
             mret (<[name := mkResolved name lv dv lhv dhv (modeOf def)]> result))
          ∅) = Returned M ->
  (forall x, x ∈ order <-> is_Some (M !! x)) /\
  forall x rc, M !! x = Some rc ->
    exists def, lookupDef defs x = Some def /\
      rc_name rc = x /\ rc_mode rc = modeOf def /\
      lightMap !! x = Some (light rc) /\ darkMap !! x = Some (dark rc) /\
      lightHCMap !! x = Some (lightContrast rc) /\ darkHCMap !! x = Some (darkContrast rc).
Proof.
  intros Hrun.
  apply (eval_forEach_prefix order _
           (fun done M =>
              (forall x, x ∈ done <-> is_Some (M !! x)) /\
              forall x rc, M !! x = Some rc ->
                exists def, lookupDef defs x = Some def /\
                  rc_name rc = x /\ rc_mode rc = modeOf def /\
                  lightMap !! x = Some (light rc) /\ darkMap !! x = Some (dark rc) /\
                  lightHCMap !! x = Some (lightContrast rc) /\
                  darkHCMap !! x = Some (darkContrast rc))
           _ _ Hrun).
  - split.
    + intros x. rewrite lookup_empty. split; [intros Hx; inversion Hx | intros [? [=]]].
    + intros x rc Hx. rewrite lookup_empty in Hx. discriminate.
  - intros done x rest M0 M1 _ [Hdom Hall] Hstep.
    apply eval_bind_Returned in Hstep as (def & Hdef & Hstep). apply eval_nonNull in Hdef.
    apply eval_bind_Returned in Hstep as (lv & Hlv & Hstep). apply eval_nonNull in Hlv.
    apply eval_bind_Returned in Hstep as (dv & Hdv & Hstep). apply eval_nonNull in Hdv.
    apply eval_bind_Returned in Hstep as (lhv & Hlhv & Hstep). apply eval_nonNull in Hlhv.
    apply eval_bind_Returned in Hstep as (dhv & Hdhv & Hstep). apply eval_nonNull in Hdhv.
    cbn in Hstep. injection Hstep as <-. split.
    + intros n. rewrite elem_of_app, list_elem_of_singleton, lookup_insert_is_Some, Hdom.
      split; [intros [Hn | ->]; [| auto] | intros [<- | [_ Hn]]; auto].
      destruct (decide (x = n)); auto.
    + intros n rc. rewrite lookup_insert. case_decide as Hn; [| apply Hall].
      subst n. intros [= <-]. exists def. cbn. repeat split; auto.
Qed.

(** The result of [resolve] is consistent: each variant of each colour is
    what the colour resolves to against the returned map itself. *)
Lemma resolveAllColors_consistent (M : gmap string ResolvedColor) :
  eval (resolveAllColors cfg hue saturation defs) = Returned M ->
  validateColorDefs defs = Returned tt /\
  (exists order, NoDup order /\ basesFirst defs order /\
     forall x, x ∈ order <-> is_Some (M !! x)) /\
  (forall x, x ∈ keys defs <-> is_Some (M !! x)) /\
  forall x rc, M !! x = Some rc ->
    exists def, lookupDef defs x = Some def /\
      rc_name rc = x /\ rc_mode rc = modeOf def /\
      forall d h,
        eval (resolveColorForScheme cfg x def (ctx M) d h) = Returned (variantFor rc d h).
Proof.
  unfold resolveAllColors. intros Hrun.
  apply eval_bind_Returned in Hrun as ([] & Hval & Hrun). apply eval_liftOutcome in Hval.
  apply eval_bind_Returned in Hrun as (order & Hsort & Hrun). apply eval_liftOutcome in Hsort.
  apply eval_bind_Returned in Hrun as ([lightMap R1] & Hp1 & Hrun).
  apply eval_bind_Returned in Hrun as (R2 & _ & Hrun).
  apply eval_bind_Returned in Hrun as ([lightHCMap R3] & Hp2 & Hrun).
  apply eval_bind_Returned in Hrun as (R4 & _ & Hrun).
  apply eval_bind_Returned in Hrun as ([darkMap R5] & Hp3 & Hrun).
  apply eval_bind_Returned in Hrun as (R6 & _ & Hrun).
  apply eval_bind_Returned in Hrun as ([darkHCMap R7] & Hp4 & Hrun).
  destruct (topoSort_sorted defs Hval) as (order' & Hsort' & Hnd & Hkeys & _).
  assert (order' = order) as -> by congruence.
  pose proof (firstPass_basesFirst _ _ _ _ _ _ _ _ _ _ Hp1) as Hbf.
  apply final_trace in Hrun as [Hdom Hall].
  split; [exact Hval |]. split; [exists order; auto |].
  split; [intros x; rewrite <- Hkeys; apply Hdom |].
  intros x rc HM. destruct (Hall x rc HM) as (def & Hdef & Hname & Hmode & _).
  exists def. split; [exact Hdef |]. split; [exact Hname |]. split; [exact Hmode |].
  assert (Hstore : forall name (r : option ResolvedColor) (set : ResolvedColor -> ResolvedColorVariant -> ResolvedColor) v e,
            eval (r ← nonNull name r; mret (set r v)) = Returned e ->
            exists r0, e = set r0 v).
  { intros name r set v e He. apply eval_bind_Returned in He as (r0 & _ & He).
    cbn in He. injection He as <-. eauto. }
  intros [] [].
  - eapply (pass_to_result order true true (darkHCMap, R7)); eauto.
    + eapply pass_trace; [exact Hnd | exact Hbf | | exact Hp4].
      intros name def0 v R e He. apply Hstore in He as [r0 ->]. reflexivity.
    + intros n rcn Hn. destruct (Hall n rcn Hn) as (_ & _ & _ & _ & _ & _ & _ & Hv). exact Hv.
  - eapply (pass_to_result order true false (darkMap, R5)); eauto.
    + eapply pass_trace; [exact Hnd | exact Hbf | | exact Hp3].
      intros name def0 v R e He. apply Hstore in He as [r0 ->]. reflexivity.
    + intros n rcn Hn. destruct (Hall n rcn Hn) as (_ & _ & _ & _ & _ & Hv & _). exact Hv.
  - eapply (pass_to_result order false true (lightHCMap, R3)); eauto.
    + eapply pass_trace; [exact Hnd | exact Hbf | | exact Hp2].
      intros name def0 v R e He. apply Hstore in He as [r0 ->]. reflexivity.
    + intros n rcn Hn. destruct (Hall n rcn Hn) as (_ & _ & _ & _ & _ & _ & Hv & _). exact Hv.
  - eapply (pass_to_result order false false (lightMap, R1)); eauto.
    + eapply pass_trace; [exact Hnd | exact Hbf | | exact Hp1].
      intros name def0 v R e He. cbn in He. injection He as <-. reflexivity.
    + intros n rcn Hn. destruct (Hall n rcn Hn) as (_ & _ & _ & _ & Hv & _). exact Hv.
Qed.

End Result.

(* ===================================================================== *)
(** * What [resolve] returns *)
(* ===================================================================== *)

Section Corollaries.
Context `{ColorMath}.

Lemma resolveColorForScheme_root (cfg : GlazeConfig) (name : string) (def : ColorDef)
    (ctx : ResolveContext) (d h : bool) :
  isRoot def = true ->
  resolveColorForScheme cfg name def ctx d h =
  mret (rootVariant cfg (ctx_hue ctx) (ctx_saturation ctx) def d h).
Proof.
  intros Hroot. unfold resolveColorForScheme. fold (isRoot def). rewrite Hroot.
  unfold resolveRootColor, rootVariant.
  destruct (lightness def) as [p |] eqn:Hl.
  - cbn [nonNull mbind Prog_bind bind mret Prog_ret].
    destruct (if h then pairHC p else pairNormal p); destruct d; reflexivity.
  - unfold isRoot in Hroot. rewrite Hl in Hroot. discriminate.
Qed.

Lemma run_Returned_eval {A : Type} (p : Prog A) (c : Cache) (a : A) :
  reachable c -> (run p c).1 = Returned a -> eval p = Returned a.
Proof.
  intros Hc Hr. destruct (run_eval p c (reachable_coherent c Hc)) as [<- _]. exact Hr.
Qed.

(** X8. The map [resolve] returns has the declared names as its keys,
    and the entry of a name carries that name and the mode of its
    definition ('auto' when it gives none). *)
Theorem X8_resolve_returns_the_declared_names (cfg : GlazeConfig) (hue saturation : Qc)
    (defs : ColorMap) (c : Cache) (M : gmap string ResolvedColor) :
  reachable c ->
  (run (resolveAllColors cfg hue saturation defs) c).1 = Returned M ->
  (forall x, x ∈ keys defs <-> is_Some (M !! x)) /\
  forall x rc, M !! x = Some rc ->
    rc_name rc = x /\ exists def, lookupDef defs x = Some def /\ rc_mode rc = modeOf def.
Proof.
  intros Hc Hrun. apply run_Returned_eval in Hrun; [| exact Hc].
  destruct (resolveAllColors_consistent _ _ _ _ _ Hrun) as (_ & _ & Hkeys & Hall).
  split; [exact Hkeys |]. intros x rc Hx.
  destruct (Hall x rc Hx) as (def & Hdef & Hname & Hmode & _). eauto.
Qed.

(** X9. The map [resolve] returns is consistent with itself: each of the
    four variants of each colour is what [resolveColorForScheme] gives
    for the colour and that scheme when the context holds the returned
    map. *)
Theorem X9_resolve_result_is_consistent (cfg : GlazeConfig) (hue saturation : Qc)
    (defs : ColorMap) (c c' : Cache) (M : gmap string ResolvedColor)
    (x : string) (def : ColorDef) (rc : ResolvedColor) (isDark isHighContrast : bool) :
  reachable c -> reachable c' ->
  (run (resolveAllColors cfg hue saturation defs) c).1 = Returned M ->
  lookupDef defs x = Some def -> M !! x = Some rc ->
  (run (resolveColorForScheme cfg x def (mkContext hue saturation defs M)
          isDark isHighContrast) c').1 = Returned (variantFor rc isDark isHighContrast).
Proof.
  intros Hc Hc' Hrun Hdef Hx. apply run_Returned_eval in Hrun; [| exact Hc].
  destruct (resolveAllColors_consistent _ _ _ _ _ Hrun) as (_ & _ & _ & Hall).
  destruct (Hall x rc Hx) as (def' & Hdef' & _ & _ & Hvar).
  assert (def' = def) as -> by congruence.
  destruct (run_eval (resolveColorForScheme cfg x def (mkContext hue saturation defs M)
                        isDark isHighContrast) c' (reachable_coherent c' Hc')) as [-> _].
  apply Hvar.
Qed.

Lemma resolved_root (cfg : GlazeConfig) (hue saturation : Qc)
    (defs : ColorMap) (M : gmap string ResolvedColor)
    (x : string) (def : ColorDef) (rc : ResolvedColor) (d h : bool) :
  eval (resolveAllColors cfg hue saturation defs) = Returned M ->
  lookupDef defs x = Some def -> isRoot def = true -> M !! x = Some rc ->
  variantFor rc d h = rootVariant cfg hue saturation def d h.
Proof.
  intros Hrun Hdef Hroot Hx.
  destruct (resolveAllColors_consistent _ _ _ _ _ Hrun) as (_ & _ & _ & Hall).
  destruct (Hall x rc Hx) as (def' & Hdef' & _ & _ & Hvar).
  assert (def' = def) as -> by congruence.
  specialize (Hvar d h). rewrite resolveColorForScheme_root in Hvar by exact Hroot.
  cbn [eval mret Prog_ret ctx_hue ctx_saturation] in Hvar. congruence.
Qed.

(** X10. A root colour resolves by itself, whatever else the map holds.
    Its lightness is the half of its pair for the contrast level, read
    as a number even where it is a relative string, clamped to [0, 100];
    its saturation is its factor clamped to [0, 1] times the seed
    saturation; the dark variants are these dark-mapped by the mode; all
    are then clamped to the unit range. *)
Theorem X10_root_colour_resolves_by_itself (cfg : GlazeConfig) (hue saturation : Qc)
    (defs : ColorMap) (c : Cache) (M : gmap string ResolvedColor)
    (x : string) (def : ColorDef) :
  reachable c ->
  (run (resolveAllColors cfg hue saturation defs) c).1 = Returned M ->
  lookupDef defs x = Some def -> isRoot def = true ->
  exists rc, M !! x = Some rc /\
    light rc = rootVariant cfg hue saturation def false false /\
    lightContrast rc = rootVariant cfg hue saturation def false true /\
    dark rc = rootVariant cfg hue saturation def true false /\
    darkContrast rc = rootVariant cfg hue saturation def true true.
Proof.
  intros Hc Hrun Hdef Hroot. apply run_Returned_eval in Hrun; [| exact Hc].
  destruct (resolveAllColors_consistent _ _ _ _ _ Hrun) as (_ & _ & Hkeys & _).
  destruct (proj1 (Hkeys x) (lookupDef_keys _ _ _ Hdef)) as [rc Hx].
  exists rc. split; [exact Hx |].
  pose proof (fun d h => resolved_root cfg hue saturation defs M x def rc d h Hrun Hdef Hroot Hx)
    as Hv.
  split; [exact (Hv false false) |]. split; [exact (Hv false true) |].
  split; [exact (Hv true false) | exact (Hv true true)].
Qed.

(** X11. A root colour of mode 'static' has the same variant in the dark
    scheme as in the light one, at both contrast levels. *)
Theorem X11_static_root_keeps_its_colour (cfg : GlazeConfig) (hue saturation : Qc)
    (defs : ColorMap) (c : Cache) (M : gmap string ResolvedColor)
    (x : string) (def : ColorDef) (rc : ResolvedColor) :
  reachable c ->
  (run (resolveAllColors cfg hue saturation defs) c).1 = Returned M ->
  lookupDef defs x = Some def -> isRoot def = true -> mode def = Some static ->
  M !! x = Some rc ->
  dark rc = light rc /\ darkContrast rc = lightContrast rc.
Proof.
  intros Hc Hrun Hdef Hroot Hmode Hx. apply run_Returned_eval in Hrun; [| exact Hc].
  pose proof (fun d h => resolved_root cfg hue saturation defs M x def rc d h Hrun Hdef Hroot Hx)
    as Hv.
  assert (Hsame : forall h, rootVariant cfg hue saturation def true h =
                            rootVariant cfg hue saturation def false h).
  { intros h. unfold rootVariant, modeOf. rewrite Hmode. reflexivity. }
  split.
  - change (variantFor rc true false = variantFor rc false false). rewrite !Hv. apply Hsame.
  - change (variantFor rc true true = variantFor rc false true). rewrite !Hv. apply Hsame.
Qed.

Lemma order_ind (order : list string) (P : string -> Prop) :
  (forall l1 x l2, order = l1 ++ x :: l2 -> (forall y, y ∈ l1 -> P y) -> P x) ->
  forall x, x ∈ order -> P x.
Proof.
  intros Hstep.
  enough (Hgen : forall done rest, order = done ++ rest -> forall y, y ∈ done -> P y)
    by (intros x Hx; apply (Hgen order []); [rewrite app_nil_r; reflexivity | exact Hx]).
  induction done as [| x done IH] using rev_ind; intros rest Heq y Hy; [inversion Hy |].
  rewrite <- app_assoc in Heq. cbn in Heq.
  apply elem_of_app in Hy as [Hy | Hy]; [eapply IH; eauto |].
  apply list_elem_of_singleton in Hy as ->.
  eapply Hstep; [exact Heq |]. intros z Hz. eapply IH; eauto.
Qed.

(** X12. When no definition gives a pair with two different halves for
    [lightness] or [contrast], the high-contrast variants of every colour
    are its normal variants. *)
Theorem X12_without_pairs_high_contrast_is_normal (cfg : GlazeConfig) (hue saturation : Qc)
    (defs : ColorMap) (c : Cache) (M : gmap string ResolvedColor)
    (x : string) (rc : ResolvedColor) :
  reachable c ->
  (run (resolveAllColors cfg hue saturation defs) c).1 = Returned M ->
  (forall y def, lookupDef defs y = Some def ->
     samePair (lightness def) /\ samePair (contrast def)) ->
  M !! x = Some rc ->
  lightContrast rc = light rc /\ darkContrast rc = dark rc.
Proof.
  intros Hc Hrun Hsame Hx. apply run_Returned_eval in Hrun; [| exact Hc].
  destruct (resolveAllColors_consistent _ _ _ _ _ Hrun)
    as (_ & (order & Hnd & Hbf & Hdom) & _ & Hall).
  enough (HP : forall d, variantFor rc d true = variantFor rc d false)
    by (split; [exact (HP false) | exact (HP true)]).
  assert (Hin : x ∈ order) by (apply Hdom; eauto).
  revert rc Hx.
  apply (order_ind order
           (fun x => forall rc, M !! x = Some rc ->
                       forall d, variantFor rc d true = variantFor rc d false));
    [| exact Hin].
  clear x Hin. intros l1 x l2 Hsplit IH rc Hx d.
  destruct (Hall x rc Hx) as (def & Hdef & _ & _ & Hvar).
  destruct (Hsame x def Hdef) as [Hl Hq].
  pose proof (Hvar d true) as Ht. pose proof (Hvar d false) as Hf.
  eapply resolveColorForScheme_congr with (h' := false) (R' := M) (defs' := defs) in Ht.
  - congruence.
  - intros p Hp. cbn. apply Hl, Hp.
  - intros p Hp. cbn. apply Hq, Hp.
  - intros Hroot b rb Hb HM. exists rb. split; [exact HM |].
    destruct (Hbf _ _ _ _ Hsplit Hdef Hroot) as (b' & Hb' & Hb1).
    assert (b' = b) as -> by congruence.
    apply (IH b Hb1 rb HM).
Qed.

Lemma clamp_inside (v lo hi : Qc) : lo <= v -> v <= hi -> clamp v lo hi = v.
Proof.
  intros Hl Hh. unfold clamp, Math_max, Math_min.
  destruct (v <? hi) eqn:E1; qc_bools; [destruct (lo <? v) eqn:E2; qc_bools; qc_arith |].
  assert (v = hi) as -> by qc_arith.
  destruct (lo <? hi) eqn:E2; qc_bools; qc_arith.
Qed.

Lemma clamp_percent (v : Qc) :
  clamp (clamp (clamp v 0 (qc 100 1)) 0 (qc 100 1) / qc 100 1) 0 1 =
  clamp v 0 (qc 100 1) / qc 100 1.
Proof.
  destruct (clamp_bounds v 0 (qc 100 1)) as [H0 H1]; [qc_arith |].
  rewrite (clamp_inside (clamp v 0 (qc 100 1))) by assumption.
  apply clamp_inside; revert H0 H1; generalize (clamp v 0 (qc 100 1)); intros; qc_arith.
Qed.

(** X13. For a dependent colour with no contrast floor, a relative
    lightness is an offset from the lightness of its base in the same
    scheme: the lightness of the variant is that of the base (on the
    scale of 100) plus the offset, with the sign of the offset turned in
    a dark scheme when the mode is 'auto', clamped to [0, 100]. *)
Theorem X13_relative_lightness_offsets_the_base (cfg : GlazeConfig) (hue saturation : Qc)
    (defs : ColorMap) (c : Cache) (M : gmap string ResolvedColor)
    (x : string) (def : ColorDef) (rc : ResolvedColor)
    (p : HCPair NumberOrRelative) (delta : Qc) (isDark isHighContrast : bool) :
  reachable c ->
  (run (resolveAllColors cfg hue saturation defs) c).1 = Returned M ->
  lookupDef defs x = Some def -> M !! x = Some rc ->
  isRoot def = false -> contrast def = None ->
  lightness def = Some p ->
  (if isHighContrast then pairHC p else pairNormal p) = Rel delta ->
  exists b rb, base def = Some b /\ M !! b = Some rb /\
    v_l (variantFor rc isDark isHighContrast) =
    clamp (v_l (variantFor rb isDark isHighContrast) * qc 100 1 +
           (if isDark && isAuto (modeOf def) then - delta else delta)) 0 (qc 100 1)
    / qc 100 1.
Proof.
  intros Hc Hrun Hdef Hx Hroot Hq Hl Hhalf. apply run_Returned_eval in Hrun; [| exact Hc].
  destruct (resolveAllColors_consistent _ _ _ _ _ Hrun) as (_ & _ & _ & Hall).
  destruct (Hall x rc Hx) as (def' & Hdef' & _ & _ & Hvar).
  assert (def' = def) as -> by congruence.
  specialize (Hvar isDark isHighContrast).
  destruct (resolveColorForScheme_base _ _ _ _ _ _ _ Hroot Hvar) as (b & rb & Hb & HMb).
  cbn [ctx_resolved] in HMb.
  exists b, rb. split; [exact Hb |]. split; [exact HMb |].
  unfold resolveColorForScheme in Hvar. fold (isRoot def) in Hvar. rewrite Hroot in Hvar.
  unfold resolveDependentColor in Hvar. cbn [ctx_resolved ctx_saturation ctx_hue] in Hvar.
  rewrite Hb in Hvar. change (Some b ≫= (fun b0 : string => M !! b0)) with (M !! b) in Hvar.
  rewrite HMb, Hl, Hq, Hhalf in Hvar.
  cbn [parseRelativeOrAbsolute eval mbind Prog_bind bind mret Prog_ret] in Hvar.
  destruct isDark; cbn [andb negb] in Hvar |- *; injection Hvar as Hv; rewrite <- Hv;
    cbn [v_l]; apply clamp_percent.
Qed.

Lemma ensures_eval {A : Type} (p : Prog A) (Q : A -> Prop) (a : A) :
  ensures p Q -> eval p = Returned a -> Q a.
Proof.
  induction p as [a' | e | hh ss ll k IH]; cbn; intros Hp Hr.
  - congruence.
  - discriminate.
  - eapply IH; eauto.
Qed.

Lemma returns_eval {A : Type} (p : Prog A) (Q : A -> Prop) (a : A) :
  returns p Q -> eval p = Returned a -> Q a.
Proof. intros (a' & Ha & HQ) Hr. congruence. Qed.

(** Saturation and lightness of a variant lie in the unit range. *)
Lemma resolveColorForScheme_unit (cfg : GlazeConfig) (name : string) (def : ColorDef)
    (ctx : ResolveContext) (d h : bool) :
  ensures (resolveColorForScheme cfg name def ctx d h)
    (fun v => (0 <= v_s v /\ v_s v <= 1) /\ (0 <= v_l v /\ v_l v <= 1)).
Proof.
  unfold resolveColorForScheme.
  eapply ensures_bind; [apply ensures_True |].
  intros [lightL satFactor] _.
  match goal with
  | |- ensures (let '(finalL, finalSat) := ?e in _) _ => destruct e as [finalL finalSat]
  end.
  cbn [ensures mret Prog_ret v_s v_l]. split; apply clamp_bounds; qc_arith.
Qed.

Lemma Qc_mult_le_l (a b : Qc) : 0 <= a -> a <= 1 -> 0 <= b -> a * b <= b.
Proof.
  intros H0 H1 Hb.
  assert (Hp : 0 <= (1 - a) * b) by (apply Qc_mult_nonneg; [qc_arith | exact Hb]).
  replace ((1 - a) * b) with (b - a * b) in Hp by ring.
  revert Hp. generalize (a * b). intros t Hp. qc_arith.
Qed.

(** The saturation the solver is given lies in the unit range. *)
Lemma effective_saturation_unit (cfg : GlazeConfig) (satFactor saturation : Qc)
    (m : AdaptationMode) (d : bool) :
  0 <= satFactor -> satFactor <= 1 -> 0 <= saturation -> saturation <= qc 100 1 ->
  0 <= darkDesaturation cfg -> darkDesaturation cfg <= 1 ->
  let s := (satFactor * saturation) / qc 100 1 in
  let e := if d then mapSaturationDark cfg s m else s in
  0 <= e /\ e <= 1.
Proof.
  intros Hf0 Hf1 Hs0 Hs1 Hd0 Hd1. cbv zeta.
  pose proof (Qc_mult_nonneg _ _ Hf0 Hs0) as Hp0.
  pose proof (Qc_mult_le_l _ _ Hf0 Hf1 Hs0) as Hp1.
  revert Hp0 Hp1. generalize (satFactor * saturation). intros t Hp0 Hp1.
  assert (Hs : 0 <= t / qc 100 1 /\ t / qc 100 1 <= 1) by (split; qc_arith).
  destruct Hs as [Ht0 Ht1]. revert Ht0 Ht1. generalize (t / qc 100 1). intros u Hu0 Hu1.
  destruct d; [| auto]. unfold mapSaturationDark. destruct m; auto.
  - pose proof (Qc_mult_nonneg u (1 - darkDesaturation cfg) Hu0 ltac:(qc_arith)) as Hq0.
    pose proof (Qc_mult_nonneg u (darkDesaturation cfg) Hu0 Hd0) as Hq1.
    replace (u * (1 - darkDesaturation cfg)) with (u - u * darkDesaturation cfg) in * by ring.
    revert Hq0 Hq1. generalize (u * darkDesaturation cfg). intros w Hq0 Hq1. split; qc_arith.
  - pose proof (Qc_mult_nonneg u (1 - darkDesaturation cfg) Hu0 ltac:(qc_arith)) as Hq0.
    pose proof (Qc_mult_nonneg u (darkDesaturation cfg) Hu0 Hd0) as Hq1.
    replace (u * (1 - darkDesaturation cfg)) with (u - u * darkDesaturation cfg) in * by ring.
    revert Hq0 Hq1. generalize (u * darkDesaturation cfg). intros w Hq0 Hq1. split; qc_arith.
Qed.

End Corollaries.

Section Floor.
Context `{ColorMath}.

(** X14. A dependent colour with a contrast floor and a relative or
    absent lightness gets, in each scheme, the lightness the solver
    returns for the colour's own hue and saturation against the resolved
    variant of its base in that scheme, with the default range, epsilon
    and iterations, and with the offset lightness as the preferred one;
    when the solver reports [met], the contrast measured between the
    resolved variant and the resolved base reaches the floor.  (The seed
    saturation lies in [0, 100] and the dark desaturation in [0, 1].) *)
Theorem X14_contrast_floor_is_solved_against_the_base (cfg : GlazeConfig) (hue saturation : Qc)
    (defs : ColorMap) (c c' : Cache) (M : gmap string ResolvedColor)
    (x : string) (def : ColorDef) (rc : ResolvedColor)
    (q : HCPair MinContrast) (delta : Qc) (isDark isHighContrast : bool) :
  reachable c -> reachable c' ->
  (run (resolveAllColors cfg hue saturation defs) c).1 = Returned M ->
  lookupDef defs x = Some def -> M !! x = Some rc ->
  isRoot def = false -> contrast def = Some q ->
  (lightness def = None /\ delta = 0 \/
   exists p, lightness def = Some p /\
     (if isHighContrast then pairHC p else pairNormal p) = Rel delta) ->
  0 <= saturation -> saturation <= qc 100 1 ->
  0 <= darkDesaturation cfg -> darkDesaturation cfg <= 1 ->
  exists b rb r, base def = Some b /\ M !! b = Some rb /\
    let v := variantFor rc isDark isHighContrast in
    let vb := variantFor rb isDark isHighContrast in
    let floor := if isHighContrast then pairHC q else pairNormal q in
    (run (findLightnessForContrast
            {| o_hue := v_h v; o_saturation := v_s v;
               o_preferredLightness :=
                 clamp (v_l vb * qc 100 1 +
                        (if isDark && isAuto (modeOf def) then - delta else delta))
                       0 (qc 100 1) / qc 100 1;
               o_baseLinearRgb := okhslToLinearSrgb (v_h vb) (v_s vb) (v_l vb);
               o_contrast := floor;
               o_lightnessRange := None; o_epsilon := None; o_maxIterations := None |})
       c').1 = Returned r /\
    v_l v = r_lightness r /\
    (r_met r = true -> resolveMinContrast floor <= contrastBetween v vb).
Proof.
  intros Hc Hc' Hrun Hdef Hx Hroot Hq Hl Hs0 Hs1 Hd0 Hd1.
  apply run_Returned_eval in Hrun; [| exact Hc].
  destruct (resolveAllColors_consistent _ _ _ _ _ Hrun) as (_ & _ & _ & Hall).
  destruct (Hall x rc Hx) as (def' & Hdef' & _ & _ & Hvar).
  assert (def' = def) as -> by congruence.
  specialize (Hvar isDark isHighContrast).
  destruct (resolveColorForScheme_base _ _ _ _ _ _ _ Hroot Hvar) as (b & rb & Hb & HMb).
  cbn [ctx_resolved] in HMb.
  exists b, rb.
  (* the base variant lies in the unit range *)
  assert (Hvb : 0 <= v_l (variantFor rb isDark isHighContrast) /\
                v_l (variantFor rb isDark isHighContrast) <= 1).
  { destruct (Hall b rb HMb) as (defb & _ & _ & _ & Hvarb).
    apply (ensures_eval _ _ _ (resolveColorForScheme_unit _ _ _ _ _ _)
             (Hvarb isDark isHighContrast)). }
  set (vb := variantFor rb isDark isHighContrast) in *.
  unfold resolveColorForScheme in Hvar. fold (isRoot def) in Hvar. rewrite Hroot in Hvar.
  unfold resolveDependentColor in Hvar. cbn [ctx_resolved ctx_saturation ctx_hue] in Hvar.
  rewrite Hb in Hvar. change (Some b ≫= (fun b0 : string => M !! b0)) with (M !! b) in Hvar.
  rewrite HMb, Hq in Hvar. fold vb in Hvar.
  apply eval_bind_Returned in Hvar as ([lightL satFactor] & Hdep & Hfin).
  apply eval_bind_Returned in Hdep as (r & Hr & Hpair).
  cbn [eval mret Prog_ret] in Hpair. injection Hpair as <- <-.
  exists r. split; [exact Hb |]. split; [exact HMb |]. cbv zeta.
  (* the saturation given to the solver is the saturation of the variant *)
  match type of Hr with
  | context [clamp (default 1 ?f) 0 1] =>
      destruct (clamp_bounds (default 1 f) 0 1) as [Hf0 Hf1]; [qc_arith |]
  end.
  pose proof (effective_saturation_unit cfg _ saturation (modeOf def) isDark
                Hf0 Hf1 Hs0 Hs1 Hd0 Hd1) as Hsat. cbv zeta in Hsat.
  (* the preferred lightness *)
  match type of Hr with
  | eval (findLightnessForContrast ?o) = _ => set (opts := o) in *
  end.
  assert (Hpref : o_preferredLightness opts =
            clamp (v_l vb * qc 100 1 +
                   (if isDark && isAuto (modeOf def) then - delta else delta))
                  0 (qc 100 1) / qc 100 1).
  { subst opts. cbn [o_preferredLightness]. f_equal.
    destruct Hl as [[-> ->] | (p & -> & ->)]; [| reflexivity].
    destruct Hvb as [Hv0 Hv1].
    replace (if isDark && isAuto (modeOf def) then - 0 else 0) with (0 : Qc)
      by (destruct (isDark && isAuto (modeOf def)); apply Qc_is_canon; reflexivity).
    replace (v_l vb * qc 100 1 + 0) with (v_l vb * qc 100 1) by ring.
    symmetry. apply clamp_inside; revert Hv0 Hv1; generalize (v_l vb); intros; qc_arith. }
  assert (Hpref01 : 0 <= o_preferredLightness opts /\ o_preferredLightness opts <= 1).
  { rewrite Hpref.
    match goal with
    | |- context [clamp ?e 0 (qc 100 1)] =>
        destruct (clamp_bounds e 0 (qc 100 1)) as [Hp0 Hp1]; [qc_arith |];
        revert Hp0 Hp1; generalize (clamp e 0 (qc 100 1))
    end.
    intros t Hp0 Hp1. split; qc_arith. }
  (* the lightness of the result lies in the unit range *)
  pose proof (ensures_eval _ _ _ (findLightnessForContrast_inside opts) Hr) as [Hloc _].
  assert (Hr01 : 0 <= r_lightness r /\ r_lightness r <= 1).
  { unfold locatedByBranch, rangeOf in Hloc.
    change (o_lightnessRange opts) with (@None (Qc * Qc)) in Hloc.
    cbn [default fst snd] in Hloc. destruct Hpref01 as [Hp0 Hp1].
    revert Hloc Hp0 Hp1. generalize (o_preferredLightness opts). intros pref Hloc Hp0 Hp1.
    destruct (r_branch r); [destruct Hloc as [Ha Hb'] | destruct Hloc as [Ha Hb'] | rewrite Hloc];
      split; qc_arith. }
  pose proof (returns_eval _ _ _ (findLightnessForContrast_sound opts) Hr) as Hsound.
  (* the variant *)
  assert (Hv : variantFor rc isDark isHighContrast =
               {| v_h := o_hue opts; v_s := o_saturation opts; v_l := r_lightness r |}).
  { destruct Hsat as [Hs0' Hs1']. destruct Hr01 as [Hr0 Hr1].
    subst opts. cbn [o_hue o_saturation].
    assert (Hcl : clamp (r_lightness r * qc 100 1 / qc 100 1) 0 1 = r_lightness r).
    { replace (r_lightness r * qc 100 1 / qc 100 1) with (r_lightness r)
        by (generalize (r_lightness r); intros; qc_arith).
      apply clamp_inside; assumption. }
    destruct isDark; cbn [andb negb] in Hfin; cbn [eval mret Prog_ret] in Hfin;
      injection Hfin as <-; f_equal;
      try exact Hcl; apply clamp_inside; assumption. }
  rewrite Hv. cbn [v_h v_s v_l]. rewrite <- Hpref.
  split.
  - destruct (run_eval (findLightnessForContrast opts) c' (reachable_coherent c' Hc')) as [Hre _].
    rewrite <- Hr, <- Hre. reflexivity.
  - split; [reflexivity |]. intros Hmet. destruct (Hsound Hmet) as [Ht Hm].
    unfold contrastBetween. cbn [v_h v_s v_l].
    unfold targetOf in Ht. unfold measured, contrastAt, contrastOf, yBaseOf in Hm.
    rewrite Hm in Ht. exact Ht.
Qed.
End Floor.

Section LightSchemes.
Context `{ColorMath}.

(** A light scheme does not read the configuration. *)
Lemma resolveColorForScheme_light (cfg cfg' : GlazeConfig) (name : string) (def : ColorDef)
    (ctx : ResolveContext) (h : bool) :
  resolveColorForScheme cfg name def ctx false h =
  resolveColorForScheme cfg' name def ctx false h.
Proof.
  unfold resolveColorForScheme. destruct (isAbsoluteLightness (lightness def) && negb (truthy (base def))).
  - reflexivity.
  - unfold resolveDependentColor.
    destruct (base def ≫= (fun b => ctx_resolved ctx !! b)); reflexivity.
Qed.

(** X15. The light variants do not depend on the configuration: two
    [resolve] calls that differ in the dark window and the dark
    desaturation alone return the same [light] and [lightContrast] for
    every colour. *)
Theorem X15_light_schemes_ignore_the_configuration (cfg cfg' : GlazeConfig)
    (hue saturation : Qc) (defs : ColorMap) (c c' : Cache)
    (M M' : gmap string ResolvedColor) (x : string) (rc rc' : ResolvedColor) :
  reachable c -> reachable c' ->
  (run (resolveAllColors cfg hue saturation defs) c).1 = Returned M ->
  (run (resolveAllColors cfg' hue saturation defs) c').1 = Returned M' ->
  M !! x = Some rc -> M' !! x = Some rc' ->
  light rc = light rc' /\ lightContrast rc = lightContrast rc'.
Proof.
  intros Hc Hc' Hrun Hrun' Hx Hx'.
  apply run_Returned_eval in Hrun; [| exact Hc].
  apply run_Returned_eval in Hrun'; [| exact Hc'].
  destruct (resolveAllColors_consistent _ _ _ _ _ Hrun)
    as (_ & (order & Hnd & Hbf & Hdom) & _ & Hall).
  destruct (resolveAllColors_consistent _ _ _ _ _ Hrun') as (_ & _ & _ & Hall').
  enough (HP : forall h, variantFor rc false h = variantFor rc' false h)
    by (split; [exact (HP false) | exact (HP true)]).
  assert (Hin : x ∈ order) by (apply Hdom; eauto).
  revert rc rc' Hx Hx'.
  apply (order_ind order
           (fun x => forall rc rc', M !! x = Some rc -> M' !! x = Some rc' ->
                       forall h, variantFor rc false h = variantFor rc' false h));
    [| exact Hin].
  clear x Hin. intros l1 x l2 Hsplit IH rc rc' Hx Hx' h.
  destruct (Hall x rc Hx) as (def & Hdef & _ & _ & Hvar).
  destruct (Hall' x rc' Hx') as (def' & Hdef' & _ & _ & Hvar').
  assert (def' = def) as -> by congruence.
  pose proof (Hvar false h) as Hv. pose proof (Hvar' false h) as Hv'.
  rewrite (resolveColorForScheme_light cfg cfg') in Hv.
  eapply resolveColorForScheme_congr with (h' := h) (R' := M') (defs' := defs) in Hv.
  - congruence.
  - reflexivity.
  - reflexivity.
  - intros Hroot b rb Hb HM.
    destruct (resolveColorForScheme_base _ _ _ _ _ _ _ Hroot Hv') as (b' & rb' & Hb' & HM').
    cbn [ctx_resolved] in HM'. assert (b' = b) as -> by congruence.
    exists rb'. split; [exact HM' |].
    destruct (Hbf _ _ _ _ Hsplit Hdef Hroot) as (b'' & Hb'' & Hb1).
    assert (b'' = b) as -> by congruence.
    apply (IH b Hb1 rb rb' HM HM').
Qed.

End LightSchemes.

(* ===================================================================== *)
(** * [resolve] returns *)
(* ===================================================================== *)

Lemma NoDup_split_unique {A : Type} (l1 l2 k1 k2 : list A) (x : A) :
  NoDup (l1 ++ x :: l2) -> l1 ++ x :: l2 = k1 ++ x :: k2 -> l1 = k1.
Proof.
  revert k1. induction l1 as [| a l1 IH]; intros k1 Hnd Heq.
  - destruct k1 as [| b k1]; [reflexivity |]. exfalso.
    cbn in Heq. injection Heq as <- ->.
    apply list.NoDup_cons in Hnd as [Hx _]. apply Hx. set_solver.
  - destruct k1 as [| b k1].
    + exfalso. cbn in Heq. injection Heq as -> <-.
      apply list.NoDup_cons in Hnd as [Hx _]. apply Hx. set_solver.
    + cbn in Heq. injection Heq as <- Heq. f_equal.
      apply IH; [| exact Heq]. cbn in Hnd. apply list.NoDup_cons in Hnd as [_ Hnd]. exact Hnd.
Qed.

Section Totality.
Context `{ColorMath}.

(** A loop returns when each round returns and keeps an invariant of the
    items done so far. *)
Lemma eval_forEach_total {A S : Type} (xs : list A) (body : A -> S -> Prog S)
    (I : list A -> S -> Prop) (st0 : S) :
  I [] st0 ->
  (forall done x rest s, xs = done ++ x :: rest -> I done s ->
     exists s', eval (body x s) = Returned s' /\ I (done ++ [x]) s') ->
  exists st, eval (forEach xs body st0) = Returned st /\ I xs st.
Proof.
  intros H0 Hstep.
  enough (Hgen : forall todo done s, xs = done ++ todo -> I done s ->
            exists st, eval (forEach todo body s) = Returned st /\ I xs st)
    by (apply (Hgen xs [] st0); auto).
  induction todo as [| x todo IH]; intros done s Hxs Hs; cbn.
  - exists s. split; [reflexivity |]. rewrite app_nil_r in Hxs. subst xs. exact Hs.
  - destruct (Hstep done x todo s Hxs Hs) as (s' & Hb & Hs').
    change (eval (body x s ≫= forEach todo body)) with (eval (body x s ≫= fun st' => forEach todo body st')).
    rewrite eval_bind, Hb. apply (IH (done ++ [x]) s'); [rewrite <- app_assoc; exact Hxs | exact Hs'].
Qed.

(** A colour resolves once its base, if it needs one, is in the context. *)
Lemma resolveColorForScheme_returns (cfg : GlazeConfig) (name : string) (def : ColorDef)
    (ctx : ResolveContext) (d h : bool) :
  (isRoot def = false -> exists b rb, base def = Some b /\ ctx_resolved ctx !! b = Some rb) ->
  exists v, eval (resolveColorForScheme cfg name def ctx d h) = Returned v.
Proof.
  intros Hbase. destruct (isRoot def) eqn:Hroot.
  - rewrite resolveColorForScheme_root by exact Hroot. eauto.
  - destruct (Hbase eq_refl) as (b & rb & Hb & HR).
    unfold resolveColorForScheme. fold (isRoot def). rewrite Hroot.
    rewrite eval_bind. unfold resolveDependentColor. rewrite Hb.
    change (Some b ≫= (fun b0 : string => ctx_resolved ctx !! b0)) with (ctx_resolved ctx !! b).
    rewrite HR. cbv zeta.
    destruct (contrast def) as [q |].
    + rewrite eval_bind.
      match goal with
      | |- context [eval (findLightnessForContrast ?o)] =>
          destruct (findLightnessForContrast_sound o) as (r & -> & _)
      end.
      cbn [eval mret Prog_ret]. destruct d; cbn [andb negb]; eauto.
    + cbn [eval mret Prog_ret]. destruct d; cbn [andb negb]; eauto.
Qed.

Lemma eval_evaluatePass_total (cfg : GlazeConfig) (hue saturation : Qc) (defs : ColorMap)
    (d h : bool)
    (store : string -> ColorDef -> ResolvedColorVariant ->
             gmap string ResolvedColor -> Prog ResolvedColor)
    (name : string) (pm : gmap string ResolvedColorVariant) (R : gmap string ResolvedColor)
    (def : ColorDef) (v : ResolvedColorVariant) (e : ResolvedColor) :
  lookupDef defs name = Some def ->
  eval (resolveColorForScheme cfg name def (mkContext hue saturation defs R) d h) = Returned v ->
  eval (store name def v R) = Returned e ->
  eval (evaluatePass cfg hue saturation defs d h store name (pm, R))
    = Returned (<[name := v]> pm, <[name := e]> R).
Proof.
  intros Hdef Hv He. unfold evaluatePass.
  rewrite eval_bind, Hdef. cbn [nonNull eval mret Prog_ret].
  rewrite eval_bind, Hv. rewrite eval_bind, He. reflexivity.
Qed.

Section Pass.
Variables (cfg : GlazeConfig) (hue saturation : Qc) (defs : ColorMap).
Variable order : list string.
Hypothesis declared : forall x, x ∈ order -> is_Some (lookupDef defs x).
Hypothesis Hbf : basesFirst defs order.

Lemma pass_total (d h : bool)
    (store : string -> ColorDef -> ResolvedColorVariant ->
             gmap string ResolvedColor -> Prog ResolvedColor)
    (R0 : gmap string ResolvedColor) :
  (forall name def v R, name ∈ order ->
     (forall x, is_Some (R0 !! x) -> is_Some (R !! x)) ->
     exists e, eval (store name def v R) = Returned e) ->
  exists pm R,
    eval (forEach order (evaluatePass cfg hue saturation defs d h store) (∅, R0))
      = Returned (pm, R) /\
    (forall x, x ∈ order -> is_Some (pm !! x) /\ is_Some (R !! x)) /\
    (forall x, is_Some (R0 !! x) -> is_Some (R !! x)).
Proof.
  intros Hstore.
  destruct (eval_forEach_total order
              (evaluatePass cfg hue saturation defs d h store)
              (fun done st =>
                 (forall x, x ∈ done -> is_Some (st.1 !! x) /\ is_Some (st.2 !! x)) /\
                 (forall x, is_Some (R0 !! x) -> is_Some (st.2 !! x)))
              (∅, R0)) as ([pm R] & Hr & Hdone & Hkeep).
  - split; [intros x Hx; inversion Hx | auto].
  - intros done x rest [pm R] Hxs [Hdone Hkeep]. cbn in Hdone, Hkeep.
    assert (Hx : x ∈ order) by (rewrite Hxs; set_solver).
    destruct (declared x Hx) as [def Hdef].
    destruct (resolveColorForScheme_returns cfg x def (mkContext hue saturation defs R) d h)
      as [v Hv].
    { intros Hroot. destruct (Hbf _ _ _ _ Hxs Hdef Hroot) as (b & Hb & Hin).
      destruct (Hdone b Hin) as [_ [rb Hrb]]. exists b, rb. auto. }
    destruct (Hstore x def v R Hx Hkeep) as [e He].
    exists (<[x := v]> pm, <[x := e]> R).
    split; [apply eval_evaluatePass_total with (def := def); assumption |].
    split; cbn.
    + intros y Hy. rewrite !lookup_insert_is_Some.
      destruct (decide (x = y)) as [-> | Hne]; [auto |].
      apply elem_of_app in Hy as [Hy | Hy]; [| set_solver].
      destruct (Hdone y Hy). auto.
    + intros y Hy. rewrite lookup_insert_is_Some.
      destruct (decide (x = y)); auto.
  - exists pm, R. split; [exact Hr |]. split; [exact Hdone | exact Hkeep].
Qed.

End Pass.

(** A loop that writes the entry of each colour in turn. *)
Lemma update_loop_total {V : Type} (order : list string) (body : string -> gmap string V -> Prog (gmap string V))
    (R0 : gmap string V) :
  (forall x R, x ∈ order -> (forall y, is_Some (R0 !! y) -> is_Some (R !! y)) ->
     exists e, eval (body x R) = Returned (<[x := e]> R)) ->
  exists R, eval (forEach order body R0) = Returned R /\
    (forall y, is_Some (R0 !! y) -> is_Some (R !! y)) /\
    (forall x, x ∈ order -> is_Some (R !! x)).
Proof.
  intros Hbody.
  destruct (eval_forEach_total order body
              (fun done R =>
                 (forall y, is_Some (R0 !! y) -> is_Some (R !! y)) /\
                 (forall x, x ∈ done -> is_Some (R !! x)))
              R0) as (R & Hr & Hkeep & Hdone).
  - split; [auto | intros x Hx; inversion Hx].
  - intros done x rest R Hxs [Hkeep Hdone].
    assert (Hx : x ∈ order) by (rewrite Hxs; set_solver).
    destruct (Hbody x R Hx Hkeep) as [e He].
    exists (<[x := e]> R). split; [exact He |]. split.
    + intros y Hy. rewrite lookup_insert_is_Some. destruct (decide (x = y)); auto.
    + intros y Hy. rewrite lookup_insert_is_Some.
      destruct (decide (x = y)) as [-> | Hne]; [auto |].
      apply elem_of_app in Hy as [Hy | Hy]; [auto | set_solver].
  - eauto.
Qed.


Lemma resolveAllColors_returns (cfg : GlazeConfig) (hue saturation : Qc) (defs : ColorMap) :
  validateColorDefs defs = Returned tt -> rootsAndFollowers defs ->
  exists M, eval (resolveAllColors cfg hue saturation defs) = Returned M.
Proof.
  intros Hval Hrf.
  destruct (topoSort_sorted defs Hval) as (order & Hsort & Hnd & Hkeys & Hprec).
  assert (declared : forall x, x ∈ order -> is_Some (lookupDef defs x))
    by (intros x Hx; apply lookupDef_is_Some, Hkeys, Hx).
  assert (Hbf : basesFirst defs order).
  { intros l1 x l2 def Hsplit Hdef Hroot.
    destruct (Hrf x def Hdef) as [Hr | [b Hb]]; [congruence |].
    exists b. split.
    - unfold followedBase in Hb. destruct (truthy (base def) && _); [exact Hb | discriminate].
    - destruct (Hprec x b) as (k1 & k2 & Hk & Hin); [exists def; auto |].
      rewrite Hsplit in Hnd, Hk. rewrite (NoDup_split_unique _ _ _ _ _ Hnd Hk). exact Hin. }
  unfold resolveAllColors.
  rewrite eval_bind, Hval. cbn [liftOutcome eval mret Prog_ret].
  rewrite eval_bind, Hsort. cbn [liftOutcome eval mret Prog_ret].
  (* Pass 1 *)
  rewrite eval_bind.
  match goal with
  | |- context [eval (forEach order (evaluatePass _ _ _ _ ?d ?h ?store) (∅, ?R0))] =>
      destruct (pass_total cfg hue saturation defs order declared Hbf d h store R0)
        as (lightMap & R1 & -> & Hl1 & _)
  end.
  { intros name def v R _ _. cbn [eval mret Prog_ret]. eauto. }
  (* Pass 2 *)
  rewrite eval_bind.
  match goal with
  | |- context [eval (forEach order ?body R1)] =>
      destruct (update_loop_total order body R1) as (R2 & -> & Hk2 & Hd2)
  end.
  { intros x R Hx Hkeep.
    destruct (Hkeep x (proj2 (Hl1 x Hx))) as [r Hr]. destruct (proj1 (Hl1 x Hx)) as [lv Hlv].
    rewrite eval_bind, Hr. cbn [nonNull eval mret Prog_ret].
    rewrite eval_bind, Hlv. cbn [nonNull eval mret Prog_ret]. eauto. }
  rewrite eval_bind.
  match goal with
  | |- context [eval (forEach order (evaluatePass _ _ _ _ ?d ?h ?store) (∅, ?R0))] =>
      destruct (pass_total cfg hue saturation defs order declared Hbf d h store R0)
        as (lightHCMap & R3 & -> & Hl3 & _)
  end.
  { intros name def v R Hname Hkeep. destruct (Hkeep name (Hd2 name Hname)) as [r Hr].
    rewrite eval_bind, Hr. cbn [nonNull eval mret Prog_ret]. eauto. }
  (* Pass 3 *)
  rewrite eval_bind.
  match goal with
  | |- context [eval (forEach order ?body R3)] =>
      destruct (update_loop_total order body R3) as (R4 & -> & Hk4 & Hd4)
  end.
  { intros x R Hx Hkeep.
    destruct (declared x Hx) as [def Hdef].
    destruct (proj1 (Hl1 x Hx)) as [lv Hlv]. destruct (proj1 (Hl3 x Hx)) as [hv Hhv].
    rewrite eval_bind, Hdef. cbn [nonNull eval mret Prog_ret].
    rewrite eval_bind, Hlv. cbn [nonNull eval mret Prog_ret].
    rewrite eval_bind, Hhv. cbn [nonNull eval mret Prog_ret]. eauto. }
  rewrite eval_bind.
  match goal with
  | |- context [eval (forEach order (evaluatePass _ _ _ _ ?d ?h ?store) (∅, ?R0))] =>
      destruct (pass_total cfg hue saturation defs order declared Hbf d h store R0)
        as (darkMap & R5 & -> & Hl5 & _)
  end.
  { intros name def v R Hname Hkeep. destruct (Hkeep name (Hd4 name Hname)) as [r Hr].
    rewrite eval_bind, Hr. cbn [nonNull eval mret Prog_ret]. eauto. }
  (* Pass 4 *)
  rewrite eval_bind.
  match goal with
  | |- context [eval (forEach order ?body R5)] =>
      destruct (update_loop_total order body R5) as (R6 & -> & Hk6 & Hd6)
  end.
  { intros x R Hx Hkeep.
    destruct (Hkeep x (proj2 (Hl5 x Hx))) as [r Hr]. destruct (proj1 (Hl5 x Hx)) as [dv Hdv].
    rewrite eval_bind, Hr. cbn [nonNull eval mret Prog_ret].
    rewrite eval_bind, Hdv. cbn [nonNull eval mret Prog_ret]. eauto. }
  rewrite eval_bind.
  match goal with
  | |- context [eval (forEach order (evaluatePass _ _ _ _ ?d ?h ?store) (∅, ?R0))] =>
      destruct (pass_total cfg hue saturation defs order declared Hbf d h store R0)
        as (darkHCMap & R7 & -> & Hl7 & _)
  end.
  { intros name def v R Hname Hkeep. destruct (Hkeep name (Hd6 name Hname)) as [r Hr].
    rewrite eval_bind, Hr. cbn [nonNull eval mret Prog_ret]. eauto. }
  (* the result *)
  match goal with
  | |- context [eval (forEach order ?body ∅)] =>
      destruct (update_loop_total order body ∅) as (M & -> & _ & _)
  end.
  { intros x R Hx _.
    destruct (declared x Hx) as [def Hdef].
    destruct (proj1 (Hl1 x Hx)) as [lv Hlv]. destruct (proj1 (Hl3 x Hx)) as [hv Hhv].
    destruct (proj1 (Hl5 x Hx)) as [dv Hdv]. destruct (proj1 (Hl7 x Hx)) as [dhv Hdhv].
    rewrite eval_bind, Hdef. cbn [nonNull eval mret Prog_ret].
    rewrite eval_bind, Hlv. cbn [nonNull eval mret Prog_ret].
    rewrite eval_bind, Hdv. cbn [nonNull eval mret Prog_ret].
    rewrite eval_bind, Hhv. cbn [nonNull eval mret Prog_ret].
    rewrite eval_bind, Hdhv. cbn [nonNull eval mret Prog_ret]. eauto. }
  eauto.
Qed.

(** X16. [resolve] returns a map, with one entry for each declared name,
    for every map that passes validation and in which each colour is a
    root or follows its base (none has both an absolute lightness and a
    base, no base is the empty string). *)
Theorem X16_resolve_returns_for_roots_and_followers (cfg : GlazeConfig) (hue saturation : Qc)
    (defs : ColorMap) (c : Cache) :
  reachable c -> validateColorDefs defs = Returned tt -> rootsAndFollowers defs ->
  exists M, (run (resolveAllColors cfg hue saturation defs) c).1 = Returned M /\
    forall x, x ∈ keys defs <-> is_Some (M !! x).
Proof.
  intros Hc Hval Hrf.
  destruct (resolveAllColors_returns cfg hue saturation defs Hval Hrf) as [M HM].
  exists M. split.
  - destruct (run_eval (resolveAllColors cfg hue saturation defs) c (reachable_coherent c Hc))
      as [-> _]. exact HM.
  - destruct (resolveAllColors_consistent _ _ _ _ _ HM) as (_ & _ & Hkeys & _). exact Hkeys.
Qed.

End Totality.

(* ===================================================================== *)
(** * Hue overrides and the dark lightness window *)
(* ===================================================================== *)

Lemma ofZ_plus (a b : Z) : ofZ (a + b) = ofZ a + ofZ b.
Proof.
  apply Qc_is_canon. unfold ofZ. rewrite this_plus, !this_Q2Qc. rewrite inject_Z_plus. reflexivity.
Qed.

Lemma ofZ_opp (a : Z) : ofZ (- a) = - ofZ a.
Proof.
  apply Qc_is_canon. unfold ofZ. rewrite this_opp, !this_Q2Qc. rewrite inject_Z_opp. reflexivity.
Qed.

Lemma ofZ_1 : ofZ 1 = 1.
Proof. apply Qc_is_canon. reflexivity. Qed.

Lemma js_rem_multiple (a b : Qc) : exists k, js_rem a b = a - b * ofZ k.
Proof. exists (trunc (a / b)). reflexivity. Qed.

Lemma normalized_hue_multiple (a : Qc) :
  exists k, js_rem (js_rem a (qc 360 1) + qc 360 1) (qc 360 1) = a + qc 360 1 * ofZ k.
Proof.
  destruct (js_rem_multiple a (qc 360 1)) as [k1 ->].
  destruct (js_rem_multiple (a - qc 360 1 * ofZ k1 + qc 360 1) (qc 360 1)) as [k2 ->].
  exists (1 + - k1 + - k2)%Z. rewrite !ofZ_plus, !ofZ_opp, ofZ_1. ring.
Qed.

Lemma ofZ_small (k : Z) : - (1) < ofZ k -> ofZ k < 1 -> k = 0%Z.
Proof.
  unfold ofZ, Qclt. rewrite this_Q2Qc, this_opp.
  change (this 1) with (inject_Z 1). change (- inject_Z 1)%Q with (inject_Z (-1)).
  rewrite <- !Zlt_Qlt. lia.
Qed.

(** X17. A hue override is taken modulo 360: the effective hue lies in
    [0, 360), differs from the requested hue (the number given, or the
    seed hue plus the relative value) by a whole multiple of 360, and is
    the requested hue itself when that already lies in [0, 360). *)
Theorem X17_effective_hue_is_the_override_modulo_360 (seedHue : Qc) (d : NumberOrRelative) :
  (0 <= resolveEffectiveHue seedHue (Some d) /\
   resolveEffectiveHue seedHue (Some d) < qc 360 1) /\
  (exists k, resolveEffectiveHue seedHue (Some d) = requestedHue seedHue d + qc 360 1 * ofZ k) /\
  (0 <= requestedHue seedHue d -> requestedHue seedHue d < qc 360 1 ->
   resolveEffectiveHue seedHue (Some d) = requestedHue seedHue d).
Proof.
  assert (Hr : 0 <= resolveEffectiveHue seedHue (Some d) /\
               resolveEffectiveHue seedHue (Some d) < qc 360 1)
    by (destruct d; cbn; apply normalized_hue).
  assert (Hk : exists k, resolveEffectiveHue seedHue (Some d) =
                         requestedHue seedHue d + qc 360 1 * ofZ k)
    by (destruct d; cbn; apply normalized_hue_multiple).
  split; [exact Hr |]. split; [exact Hk |].
  intros H0 H1. destruct Hk as [k Hk]. destruct Hr as [Hr0 Hr1]. rewrite Hk in *.
  assert (k = 0%Z) as ->.
  { apply ofZ_small; revert H0 H1 Hr0 Hr1; generalize (requestedHue seedHue d) (ofZ k);
      intros; qc_arith. }
  replace (ofZ 0) with (0 : Qc) by (apply Qc_is_canon; reflexivity). ring.
Qed.

(** X18. With a dark window [lo <= hi] and a lightness in [0, 100],
    [mapLightnessDark] lands in the window for the modes fixed and auto;
    auto is fixed applied to the mirrored lightness [100 - l]; fixed keeps
    the order of two lightnesses and auto reverses it. *)
Theorem X18_dark_lightness_window (cfg : GlazeConfig) (l l' : Qc) :
  (darkLightness cfg).1 <= (darkLightness cfg).2 ->
  0 <= l -> l <= l' -> l' <= qc 100 1 ->
  ((darkLightness cfg).1 <= mapLightnessDark cfg l fixed /\
   mapLightnessDark cfg l fixed <= (darkLightness cfg).2) /\
  ((darkLightness cfg).1 <= mapLightnessDark cfg l auto /\
   mapLightnessDark cfg l auto <= (darkLightness cfg).2) /\
  mapLightnessDark cfg l auto = mapLightnessDark cfg (qc 100 1 - l) fixed /\
  mapLightnessDark cfg l fixed <= mapLightnessDark cfg l' fixed /\
  mapLightnessDark cfg l' auto <= mapLightnessDark cfg l auto.
Proof.
  unfold mapLightnessDark. destruct (darkLightness cfg) as [lo hi]. cbn [fst snd].
  intros Hw H0 Hll H1.
  assert (Hw' : 0 <= hi - lo) by qc_arith.
  assert (Ha : 0 <= l * (hi - lo)) by (apply Qc_mult_nonneg; [qc_arith | exact Hw']).
  assert (Hb : 0 <= (qc 100 1 - l) * (hi - lo)) by (apply Qc_mult_nonneg; [qc_arith | exact Hw']).
  assert (Hc : 0 <= (l' - l) * (hi - lo)) by (apply Qc_mult_nonneg; [qc_arith | exact Hw']).
  replace ((qc 100 1 - l) * (hi - lo)) with (qc 100 1 * (hi - lo) - l * (hi - lo)) in * by ring.
  replace ((qc 100 1 - l') * (hi - lo)) with (qc 100 1 * (hi - lo) - l' * (hi - lo)) by ring.
  replace ((l' - l) * (hi - lo)) with (l' * (hi - lo) - l * (hi - lo)) in Hc by ring.
  revert Ha Hb Hc. generalize (l * (hi - lo)) (l' * (hi - lo)). intros p p' Ha Hb Hc.
  repeat split; qc_arith.
Qed.

(* ===================================================================== *)
(** * The standalone colour token *)
(* ===================================================================== *)

Section ColorTokenResolves.
Context `{ColorMath}.

Lemma colorTokenDefs_valid (input : GlazeColorInput) :
  validateColorDefs (colorTokenDefs input) = Returned tt.
Proof.
  unfold colorTokenDefs, colorTokenDef. destruct (ci_lightness input); vm_compute; reflexivity.
Qed.

Lemma colorTokenDef_root (input : GlazeColorInput) : isRoot (colorTokenDef input) = true.
Proof. unfold isRoot, colorTokenDef. cbn. destruct (ci_lightness input); reflexivity. Qed.

(** X19. [resolve()] of a standalone colour token never throws: for every
    input it returns the colour ['__color__'], each of whose four variants
    is what a root colour with the input's lightness, saturation factor
    and mode resolves to under the input's hue and saturation. *)
Theorem X19_standalone_colour_always_resolves (cfg : GlazeConfig) (input : GlazeColorInput)
    (c : Cache) :
  reachable c ->
  (run (colorTokenResolve cfg input) c).1 =
  Returned (Some
    {| rc_name := "__color__";
       light := rootVariant cfg (ci_hue input) (ci_saturation input)
                  (colorTokenDef input) false false;
       dark := rootVariant cfg (ci_hue input) (ci_saturation input)
                 (colorTokenDef input) true false;
       lightContrast := rootVariant cfg (ci_hue input) (ci_saturation input)
                          (colorTokenDef input) false true;
       darkContrast := rootVariant cfg (ci_hue input) (ci_saturation input)
                         (colorTokenDef input) true true;
       rc_mode := default auto (ci_mode input) |}).
Proof.
  intros Hc.
  destruct (run_eval (colorTokenResolve cfg input) c (reachable_coherent c Hc)) as [-> _].
  assert (Hrf : rootsAndFollowers (colorTokenDefs input)).
  { intros x def. unfold colorTokenDefs, lookupDef.
    destruct (String.eqb "__color__" x); [| discriminate].
    intros [= <-]. left. apply colorTokenDef_root. }
  destruct (resolveAllColors_returns cfg (ci_hue input) (ci_saturation input)
              (colorTokenDefs input) (colorTokenDefs_valid input) Hrf) as [M HM].
  unfold colorTokenResolve. rewrite eval_bind, HM. cbn [eval mret Prog_ret].
  destruct (resolveAllColors_consistent _ _ _ _ _ HM) as (_ & _ & Hkeys & Hall).
  assert (Hdef : lookupDef (colorTokenDefs input) "__color__" = Some (colorTokenDef input))
    by reflexivity.
  destruct (proj1 (Hkeys "__color__") (lookupDef_keys _ _ _ Hdef)) as [rc Hrc].
  rewrite Hrc. do 2 f_equal.
  destruct (Hall _ rc Hrc) as (def & Hdef' & Hname & Hmode & _).
  assert (def = colorTokenDef input) as -> by congruence.
  pose proof (fun d h => resolved_root cfg _ _ _ M _ _ rc d h HM Hdef
                           (colorTokenDef_root input) Hrc) as Hv.
  destruct rc as [n l d lc dc m]. cbn in Hname, Hmode. subst n m.
  pose proof (Hv false false) as H1. pose proof (Hv true false) as H2.
  pose proof (Hv false true) as H3. pose proof (Hv true true) as H4.
  cbn [variantFor andb light dark lightContrast darkContrast] in H1, H2, H3, H4.
  subst l d lc dc. reflexivity.
Qed.

End ColorTokenResolves.

(* ===================================================================== *)
(** * The luminance cache: eviction *)
(* ===================================================================== *)

Section Eviction.
Context `{ColorMath}.

(** X20. A lookup evicts nothing but the oldest entry: a key that is
    cached and is not the first of [cacheOrder] is still cached, with the
    same luminance, after any call of [cachedLuminance]. *)
Theorem X20_only_the_oldest_entry_is_evicted (h s l : Qc) (c : Cache)
    (k : Qc * Qc * Qc) (y : Qc) :
  luminanceCache c !! k = Some y ->
  head (cacheOrder c) <> Some k ->
  luminanceCache (cachedLuminance h s l c).2 !! k = Some y.
Proof.
  intros Hk Hold. unfold cachedLuminance.
  destruct (luminanceCache c !! (h, s, round4 l)) as [y' |] eqn:Hhit; cbn; [exact Hk |].
  assert (Hne : (h, s, round4 l) <> k) by congruence.
  rewrite lookup_insert_ne by exact Hne.
  destruct c as [m o]; cbn in *. case_bool_decide; cbn; [| exact Hk].
  destruct o as [| evict rest]; cbn; [exact Hk |].
  rewrite lookup_delete_ne; [exact Hk |]. cbn in Hold. congruence.
Qed.

End Eviction.


(* ===================================================================== *)
(** * The theme: reading back, [extend] and [glaze.from] *)
(* ===================================================================== *)

Lemma keys_setProperty (entries : ColorMap) (name : string) (def : ColorDef) :
  keys (setProperty entries name def) =
  if bool_decide (name ∈ keys entries) then keys entries else keys entries ++ [name].
Proof.
  induction entries as [| [k d] rest IH]; cbn; [reflexivity |].
  destruct (String.eqb_spec k name) as [-> | Hne]; cbn.
  - rewrite bool_decide_eq_true_2 by apply list_elem_of_here. reflexivity.
  - fold (keys (setProperty rest name def)). fold (keys rest). rewrite IH.
    destruct (decide (name ∈ keys rest)) as [Hin | Hnin].
    + rewrite !bool_decide_eq_true_2; [reflexivity | by apply list_elem_of_further | exact Hin].
    + rewrite !bool_decide_eq_false_2; [reflexivity | | exact Hnin].
      intros [Heq | Hin]%elem_of_cons; [congruence | exact (Hnin Hin)].
Qed.

Lemma setProperty_new (entries : ColorMap) (name : string) (def : ColorDef) :
  name ∉ keys entries -> setProperty entries name def = entries ++ [(name, def)].
Proof.
  induction entries as [| [k d] rest IH]; cbn; intros Hnin; [reflexivity |].
  destruct (String.eqb_spec k name) as [-> | Hne].
  - exfalso. apply Hnin. apply list_elem_of_here.
  - rewrite IH; [reflexivity |]. intros Hin. apply Hnin. by apply list_elem_of_further.
Qed.

Lemma lookupDef_setProperty (entries : ColorMap) (name : string) (def : ColorDef) (m : string) :
  lookupDef (setProperty entries name def) m =
  if String.eqb name m then Some def else lookupDef entries m.
Proof.
  induction entries as [| [k d] rest IH]; cbn; [reflexivity |].
  destruct (String.eqb_spec k name) as [-> | Hne]; cbn.
  - destruct (String.eqb_spec name m); reflexivity.
  - rewrite IH. destruct (String.eqb_spec k m) as [-> | Hkm]; [| reflexivity].
    destruct (String.eqb_spec name m); [congruence | reflexivity].
Qed.

Lemma NoDup_keys_setProperty (entries : ColorMap) (name : string) (def : ColorDef) :
  NoDup (keys entries) -> NoDup (keys (setProperty entries name def)).
Proof.
  intros Hnd. rewrite keys_setProperty. case_bool_decide as Hin; [exact Hnd |].
  apply list.NoDup_app. split; [exact Hnd |]. split; [| apply NoDup_singleton].
  intros x Hx ->%list_elem_of_singleton. exact (Hin Hx).
Qed.

Lemma NoDup_keys_spread (a b : ColorMap) : NoDup (keys a) -> NoDup (keys (spread a b)).
Proof.
  revert a. induction b as [| [k d] b IH]; intros a Hnd; [exact Hnd |].
  cbn. apply IH. by apply NoDup_keys_setProperty.
Qed.

Lemma lookupDef_None (defs : ColorMap) (name : string) :
  name ∉ keys defs -> lookupDef defs name = None.
Proof.
  intros Hnin. destruct (lookupDef defs name) as [d |] eqn:Hl; [| reflexivity].
  exfalso. apply Hnin. exact (lookupDef_keys _ _ _ Hl).
Qed.

(** [{ ...a, ...b }[m]] is [b[m]] where [b] has [m], else [a[m]]. *)
Lemma lookupDef_spread (a b : ColorMap) (m : string) :
  NoDup (keys b) ->
  lookupDef (spread a b) m = match lookupDef b m with Some d => Some d | None => lookupDef a m end.
Proof.
  revert a. induction b as [| [k d] b IH]; intros a Hnd; [reflexivity |].
  cbn in Hnd. apply list.NoDup_cons in Hnd as [Hk Hnd].
  change (spread a ((k, d) :: b)) with (spread (setProperty a k d) b).
  rewrite (IH _ Hnd), lookupDef_setProperty. cbn.
  destruct (String.eqb_spec k m) as [-> | Hkm]; [| reflexivity].
  rewrite (lookupDef_None b m Hk). reflexivity.
Qed.

Lemma spread_app (a b : ColorMap) : NoDup (keys (a ++ b)) -> spread a b = a ++ b.
Proof.
  revert a. induction b as [| [k d] b IH]; intros a Hnd; [by rewrite app_nil_r |].
  change (spread a ((k, d) :: b)) with (spread (setProperty a k d) b).
  assert (Hk : k ∉ keys a).
  { unfold keys in Hnd. rewrite fmap_app in Hnd. apply list.NoDup_app in Hnd as (_ & Hd & _).
    intros Hin. apply (Hd k Hin). cbn. apply list_elem_of_here. }
  rewrite (setProperty_new a k d Hk), IH; [by rewrite <- app_assoc |].
  by rewrite <- app_assoc.
Qed.

(** A copy of an object has its entries, in their order. *)
Lemma spread_copy (entries : ColorMap) : NoDup (keys entries) -> spread [] entries = entries.
Proof. intros Hnd. by rewrite spread_app. Qed.

Lemma NoDup_keys_deleteProperty (entries : ColorMap) (name : string) :
  NoDup (keys entries) -> NoDup (keys (deleteProperty entries name)).
Proof.
  intros Hnd. apply (sublist_NoDup _ (keys entries)); [exact Hnd |].
  unfold keys, deleteProperty. apply fmap_sublist, sublist_filter.
Qed.

Lemma lookupDef_cons (k : string) (d : ColorDef) (rest : ColorMap) (m : string) :
  lookupDef ((k, d) :: rest) m = if String.eqb k m then Some d else lookupDef rest m.
Proof. reflexivity. Qed.

Lemma lookupDef_deleteProperty (entries : ColorMap) (name m : string) :
  lookupDef (deleteProperty entries name) m =
  if String.eqb name m then None else lookupDef entries m.
Proof.
  unfold deleteProperty.
  induction entries as [| [k d] rest IH].
  - cbn. by destruct (String.eqb name m).
  - rewrite (filter_cons _ (k, d) rest).
    destruct (decide _) as [Hkeep | Hdrop]; rewrite !lookupDef_cons.
    + destruct (String.eqb_spec k m) as [-> | Hkm]; [| exact IH].
      destruct (String.eqb_spec name m) as [-> | Hnm]; [| reflexivity].
      cbn in Hkeep. rewrite String.eqb_refl in Hkeep. destruct Hkeep.
    + destruct (String.eqb_spec k name) as [-> | Hne].
      * etrans; [exact IH |]. destruct (String.eqb_spec name m); reflexivity.
      * exfalso. apply Hdrop. cbn. apply String.eqb_neq in Hne. rewrite Hne. exact I.
Qed.

Lemma lookupDef_deleteAll (names : list string) (entries : ColorMap) (m : string) :
  lookupDef (foldl deleteProperty entries names) m =
  if bool_decide (m ∈ names) then None else lookupDef entries m.
Proof.
  revert entries. induction names as [| n names IH]; intros entries; cbn; [reflexivity |].
  rewrite IH, lookupDef_deleteProperty.
  destruct (String.eqb_spec n m) as [-> | Hne].
  - rewrite (bool_decide_eq_true_2 (m ∈ m :: names)) by apply list_elem_of_here.
    by case_bool_decide.
  - destruct (decide (m ∈ names)) as [Hin | Hnin].
    + rewrite !bool_decide_eq_true_2; [reflexivity | by apply list_elem_of_further | exact Hin].
    + rewrite !bool_decide_eq_false_2; [reflexivity | | exact Hnin].
      intros [Heq | Hin]%elem_of_cons; [congruence | exact (Hnin Hin)].
Qed.

Lemma NoDup_keys_deleteAll (names : list string) (entries : ColorMap) :
  NoDup (keys entries) -> NoDup (keys (foldl deleteProperty entries names)).
Proof.
  revert entries. induction names as [| n names IH]; intros entries Hnd; [exact Hnd |].
  cbn. apply IH. by apply NoDup_keys_deleteProperty.
Qed.

(** What a call makes of the theme's definitions. *)
Lemma call_definitions (c : ThemeCall) (st : Theme * gmap positive Obj) :
  definitions (call c st) =
  match c with
  | colors defs => spread (definitions st) defs
  | color name def => setProperty (definitions st) name def
  | remove names => foldl deleteProperty (definitions st) names
  | reset => []
  end.
Proof.
  destruct st as [theme heap]. unfold definitions.
  destruct c as [defs | name def | names |]; cbn.
  - pose proof (alloc_lookup_new (ColorMapObj (spread (entriesAt heap (colorDefs theme)) defs)) heap) as Hn.
    destruct (alloc _ heap) as [b heap']; cbn in *. unfold entriesAt at 1. by rewrite Hn.
  - unfold entriesAt at 1. by rewrite lookup_insert_eq.
  - unfold entriesAt at 1. by rewrite lookup_insert_eq.
  - pose proof (alloc_lookup_new (ColorMapObj []) heap) as Hn.
    destruct (alloc _ heap) as [b heap']; cbn in *. unfold entriesAt at 1. by rewrite Hn.
Qed.

Lemma createTheme_definitions (hue saturation : Qc) (initialColors : option ColorMap)
    (heap : gmap positive Obj) :
  definitions (createTheme hue saturation initialColors heap) =
  spread [] (default [] initialColors).
Proof.
  unfold createTheme, definitions.
  pose proof (alloc_lookup_new (ColorMapObj (spread [] (default [] initialColors))) heap) as Hn.
  destruct (alloc _ heap) as [a heap']; cbn in *. unfold entriesAt. by rewrite Hn.
Qed.

Lemma call_keys_NoDup (c : ThemeCall) (st : Theme * gmap positive Obj) :
  NoDup (keys (definitions st)) -> NoDup (keys (definitions (call c st))).
Proof.
  intros Hnd. rewrite call_definitions. destruct c as [defs | name def | names |].
  - by apply NoDup_keys_spread.
  - by apply NoDup_keys_setProperty.
  - by apply NoDup_keys_deleteAll.
  - apply NoDup_nil_2.
Qed.

Lemma calls_keys_NoDup (cs : list ThemeCall) (st : Theme * gmap positive Obj) :
  NoDup (keys (definitions st)) -> NoDup (keys (definitions (calls cs st))).
Proof.
  revert st. induction cs as [| c cs IH]; intros st Hnd; [exact Hnd |].
  cbn. unfold calls in IH. apply IH. by apply call_keys_NoDup.
Qed.

(** The theme of a program is an allocated object that lists each name
    once, and has the seed it was created with. *)
Lemma madeBy_sound (hue saturation : Qc) (initialColors : option ColorMap)
    (heap0 : gmap positive Obj) (cs : list ThemeCall) :
  let st := madeBy hue saturation initialColors heap0 cs in
  themeAllocated st /\ NoDup (keys (definitions st)) /\
  t_hue st.1 = hue /\ t_saturation st.1 = saturation.
Proof.
  unfold madeBy.
  destruct (createTheme_allocated hue saturation initialColors heap0) as (Ht0 & Hh0 & Hs0).
  destruct (calls_allocated cs _ Ht0) as (Ht & Hh & Hs).
  repeat split; [exact Ht | | congruence | congruence].
  apply calls_keys_NoDup. rewrite createTheme_definitions.
  apply NoDup_keys_spread. apply NoDup_nil_2.
Qed.

(** [createTheme] allocates the new theme's object and leaves the others. *)
Lemma createTheme_frame (hue saturation : Qc) (initialColors : option ColorMap)
    (heap : gmap positive Obj) :
  let r := createTheme hue saturation initialColors heap in
  (colorDefs r.1 ∉ dom heap) /\
  forall a, a ∈ dom heap -> a ∈ dom r.2 /\ r.2 !! a = heap !! a.
Proof.
  unfold createTheme.
  set (o := ColorMapObj (spread [] (default [] initialColors))).
  pose proof (alloc_fresh o heap) as Hf.
  pose proof (fun a => alloc_lookup_old o heap a) as Hl.
  pose proof (fun a => alloc_dom o heap a) as Hd.
  destruct (alloc o heap) as [a heap']; cbn in *. split; [exact Hf |].
  intros b Hb. split; [exact (Hd b Hb) | exact (Hl b Hb)].
Qed.

(** [export()] allocates its two objects and leaves the others; the
    object it returns reads as the theme's seed and a copy of its
    definitions. *)
Lemma export_frame (st : Theme * gmap positive Obj) :
  readExport (export st).2 (export st).1 =
    Some (t_hue st.1, t_saturation st.1, spread [] (definitions st)) /\
  forall a, a ∈ dom st.2 -> a ∈ dom (export st).2 /\ (export st).2 !! a = st.2 !! a.
Proof.
  destruct st as [theme heap]. unfold export, definitions. cbn [fst snd].
  set (o1 := ColorMapObj (spread [] (entriesAt heap (colorDefs theme)))).
  pose proof (alloc_lookup_new o1 heap) as Hn1.
  pose proof (alloc_new_dom o1 heap) as Hd1.
  pose proof (fun a => alloc_lookup_old o1 heap a) as Hl1.
  pose proof (fun a => alloc_dom o1 heap a) as Hdom1.
  destruct (alloc o1 heap) as [c heap1]; cbn in *.
  set (o2 := ExportObj (t_hue theme) (t_saturation theme) c).
  pose proof (alloc_lookup_new o2 heap1) as Hn2.
  pose proof (fun a => alloc_lookup_old o2 heap1 a) as Hl2.
  pose proof (fun a => alloc_dom o2 heap1 a) as Hdom2.
  destruct (alloc o2 heap1) as [e heap2]; cbn in *.
  split.
  - unfold readExport. rewrite Hn2. subst o2. cbn. rewrite (Hl2 c Hd1), Hn1. reflexivity.
  - intros a Ha. split; [exact (Hdom2 a (Hdom1 a Ha)) |].
    rewrite (Hl2 a (Hdom1 a Ha)). exact (Hl1 a Ha).
Qed.

(** Calls on one theme leave the definitions of another. *)
Lemma calls_leave_other (cs : list ThemeCall) (theme other : Theme) (heap : gmap positive Obj) :
  colorDefs other ∈ dom heap -> colorDefs other <> colorDefs theme ->
  entriesAt (calls cs (theme, heap)).2 (colorDefs other) = entriesAt heap (colorDefs other).
Proof.
  intros Hd Hne. unfold entriesAt.
  rewrite (calls_frame cs (theme, heap) (colorDefs other)); [reflexivity |].
  split; [exact Hd | exact Hne].
Qed.

Lemma has_lookup (name : string) (st : Theme * gmap positive Obj) :
  has name st =
  (isDefined (lookupDef (definitions st) name) || bool_decide (name ∈ Object_prototype)).
Proof.
  unfold has. f_equal.
  destruct (lookupDef (definitions st) name) as [d |] eqn:Hl; cbn.
  - apply bool_decide_eq_true_2. exact (lookupDef_keys _ _ _ Hl).
  - apply bool_decide_eq_false_2. intros Hin.
    apply lookupDef_is_Some in Hin as [d Hd]. congruence.
Qed.

(** X21. What is written is read back.  After [color(name, def)],
    [color(name)] returns [def] and [has(name)] holds, and every other
    name reads as before; after [colors(defs)], a name reads as in [defs]
    where [defs] has it and as before where not.  (The name ['__proto__']
    is apart: assigning to it sets the prototype of the object.) *)
Theorem X21_a_written_definition_reads_back (st : Theme * gmap positive Obj)
    (name : string) (def : ColorDef) (defs : ColorMap) (other : string) :
  name <> "__proto__" ->
  NoDup (keys defs) ->
  (getColor name (call (color name def) st) = OwnValue def /\
   has name (call (color name def) st) = true) /\
  (other <> name ->
   getColor other (call (color name def) st) = getColor other st /\
   has other (call (color name def) st) = has other st) /\
  getColor other (call (colors defs) st) =
    match lookupDef defs other with
    | Some d => OwnValue d
    | None => getColor other st
    end.
Proof.
  intros _ Hnd. rewrite !has_lookup. unfold getColor.
  rewrite !call_definitions, !lookupDef_setProperty, (lookupDef_spread _ _ _ Hnd).
  rewrite String.eqb_refl. cbn. split; [split; reflexivity |]. split.
  - intros Hne. destruct (String.eqb_spec name other); [congruence | auto].
  - destruct (lookupDef defs other); reflexivity.
Qed.

(** X22. After [remove(names)], [has(name)] is false for a removed name
    unless every object inherits it from [Object.prototype] (for such a
    name [has] stays true), and [color(name)] is [undefined] for a removed
    name that is not inherited; the names not removed read as before.
    After [reset()], [has] holds of the inherited names only, and [list()]
    is empty. *)
Theorem X22_removed_names_are_gone_unless_inherited (st : Theme * gmap positive Obj)
    (names : list string) (name : string) :
  (name ∈ names ->
   has name (call (remove names) st) = bool_decide (name ∈ Object_prototype) /\
   (name ∉ Object_prototype -> getColor name (call (remove names) st) = UndefinedValue)) /\
  (name ∉ names ->
   has name (call (remove names) st) = has name st /\
   getColor name (call (remove names) st) = getColor name st) /\
  has name (call reset st) = bool_decide (name ∈ Object_prototype) /\
  listNames (call reset st) = [].
Proof.
  rewrite !has_lookup. unfold getColor, listNames.
  rewrite !call_definitions, !lookupDef_deleteAll. cbn.
  split; [| split; [| split; reflexivity]].
  - intros Hin. rewrite bool_decide_eq_true_2 by exact Hin. split; [reflexivity |].
    intros Hni. rewrite bool_decide_eq_false_2 by exact Hni. reflexivity.
  - intros Hnin. rewrite bool_decide_eq_false_2 by exact Hnin. split; reflexivity.
Qed.

(** X23. [glaze.from(theme.export())] restores the theme: it has the same
    hue and saturation and the same definitions in the same order, so it
    resolves as the original does; the two are independent, calls that
    write to one leave the definitions of the other. *)
Theorem X23_from_export_restores_the_theme `{ColorMath} (hue saturation : Qc)
    (initialColors : option ColorMap) (heap0 : gmap positive Obj)
    (before after : list ThemeCall) :
  let st := madeBy hue saturation initialColors heap0 before in
  let exported := export st in
  exists restored,
    from exported.2 exported.1 = Some restored /\
    t_hue restored.1 = hue /\ t_saturation restored.1 = saturation /\
    definitions restored = definitions st /\
    (forall cfg, resolve cfg restored = resolve cfg st) /\
    entriesAt (calls after (st.1, restored.2)).2 (colorDefs restored.1) = definitions st /\
    entriesAt (calls after restored).2 (colorDefs st.1) = definitions st.
Proof.
  intros st exported.
  destruct (madeBy_sound hue saturation initialColors heap0 before) as (Ht & Hnd & Hh & Hs).
  fold st in Ht, Hnd, Hh, Hs.
  destruct (export_frame st) as [Hread Hframe]. fold exported in Hread, Hframe.
  rewrite Hh, Hs, (spread_copy _ Hnd) in Hread.
  destruct (Hframe _ Ht) as [Hdt Hlt].
  unfold from. rewrite Hread.
  set (restored := createTheme hue saturation (Some (definitions st)) exported.2).
  exists restored. split; [reflexivity |].
  destruct (createTheme_allocated hue saturation (Some (definitions st)) exported.2)
    as (Hra & Hrh & Hrs). fold restored in Hra, Hrh, Hrs.
  destruct (createTheme_frame hue saturation (Some (definitions st)) exported.2)
    as [Hfresh Hold]. fold restored in Hfresh, Hold.
  assert (Hdefs : definitions restored = definitions st).
  { unfold restored. rewrite createTheme_definitions. cbn. exact (spread_copy _ Hnd). }
  destruct (Hold _ Hdt) as [Hdt' Hlt'].
  assert (Hne : colorDefs restored.1 <> colorDefs st.1).
  { intros Heq. apply Hfresh. rewrite Heq. exact Hdt. }
  assert (Horig : entriesAt restored.2 (colorDefs st.1) = definitions st).
  { unfold definitions, entriesAt. rewrite Hlt', Hlt. reflexivity. }
  split; [exact Hrh |]. split; [exact Hrs |]. split; [exact Hdefs |].
  split; [intros cfg; unfold resolve; rewrite Hrh, Hrs, Hdefs, Hh, Hs; reflexivity |].
  split.
  - rewrite (calls_leave_other after st.1 restored.1 restored.2 Hra Hne). exact Hdefs.
  - destruct restored as [rt rh]. cbn [fst snd] in *.
    rewrite (calls_leave_other after rt st.1 rh Hdt'); [exact Horig | congruence].
Qed.

(** X24. [extend(options)] returns a theme with the hue and saturation of
    the options, the parent's where they give none, and with the
    definitions [{ ...parent, ...options.colors }]; parent and child are
    independent, calls that write to one leave the definitions of the
    other. *)
Theorem X24_extend_copies_and_overrides (hue saturation : Qc)
    (initialColors : option ColorMap) (heap0 : gmap positive Obj)
    (before after : list ThemeCall) (options : GlazeExtendOptions) :
  let st := madeBy hue saturation initialColors heap0 before in
  let child := extend options st in
  t_hue child.1 = default hue (x_hue options) /\
  t_saturation child.1 = default saturation (x_saturation options) /\
  definitions child = spread (definitions st) (default [] (x_colors options)) /\
  entriesAt (calls after (st.1, child.2)).2 (colorDefs child.1) = definitions child /\
  entriesAt (calls after child).2 (colorDefs st.1) = definitions st.
Proof.
  intros st child.
  destruct (madeBy_sound hue saturation initialColors heap0 before) as (Ht & Hnd & Hh & Hs).
  fold st in Ht, Hnd, Hh, Hs.
  set (merged := spread (definitions st) (default [] (x_colors options))).
  assert (Hmnd : NoDup (keys merged)) by (by apply NoDup_keys_spread).
  assert (Hm : match x_colors options with
               | Some cs => spread (definitions st) cs
               | None => spread [] (definitions st)
               end = merged).
  { unfold merged. destruct (x_colors options) as [cs |]; [reflexivity |].
    cbn. exact (spread_copy _ Hnd). }
  subst child. destruct st as [theme heap] eqn:Hst. unfold extend.
  unfold definitions in Hm, merged; cbn [fst snd] in Hm, merged, Ht, Hh, Hs |- *.
  unfold themeAllocated in Ht; cbn in Ht.
  rewrite Hm.
  pose proof (alloc_fresh (ColorMapObj merged) heap) as Hf1.
  pose proof (alloc_lookup_new (ColorMapObj merged) heap) as Hn1.
  pose proof (alloc_lookup_old (ColorMapObj merged) heap _ Ht) as Hl1.
  pose proof (alloc_dom (ColorMapObj merged) heap _ Ht) as Hd1.
  destruct (alloc (ColorMapObj merged) heap) as [m heap1]; cbn [fst snd] in *.
  assert (Hem : entriesAt heap1 m = merged) by (unfold entriesAt; by rewrite Hn1).
  rewrite Hem.
  set (child := createTheme _ _ (Some merged) heap1).
  destruct (createTheme_allocated (default (t_hue theme) (x_hue options))
              (default (t_saturation theme) (x_saturation options)) (Some merged) heap1)
    as (Hca & Hch & Hcs). fold child in Hca, Hch, Hcs.
  destruct (createTheme_frame (default (t_hue theme) (x_hue options))
              (default (t_saturation theme) (x_saturation options)) (Some merged) heap1)
    as [Hfresh Hold]. fold child in Hfresh, Hold.
  assert (Hdefs : definitions child = merged).
  { unfold child. rewrite createTheme_definitions. cbn. exact (spread_copy _ Hmnd). }
  destruct (Hold _ Hd1) as [Hdt' Hlt'].
  assert (Hne : colorDefs child.1 <> colorDefs theme).
  { intros Heq. apply Hfresh. rewrite Heq. exact Hd1. }
  assert (Horig : entriesAt child.2 (colorDefs theme) = entriesAt heap (colorDefs theme)).
  { unfold entriesAt. rewrite Hlt', Hl1. reflexivity. }
  split; [rewrite Hch, Hh; reflexivity |].
  split; [rewrite Hcs, Hs; reflexivity |].
  split; [exact Hdefs |]. split.
  - rewrite (calls_leave_other after theme child.1 child.2 Hca Hne). reflexivity.
  - destruct child as [ct ch]. cbn [fst snd] in *.
    rewrite (calls_leave_other after ct theme ch Hdt'); [exact Horig | congruence].
Qed.

(* ===================================================================== *)
(** * Token export *)
(* ===================================================================== *)

Lemma lastOf_snoc (l : list (string * ResolvedColor)) (n : string) (c : ResolvedColor)
    (name : string) :
  lastOf (l ++ [(n, c)]) name = if String.eqb n name then Some c else lastOf l name.
Proof. unfold lastOf. rewrite foldl_snoc. reflexivity. Qed.

Lemma lastOf_None (l : list (string * ResolvedColor)) (name : string) :
  name ∉ l.*1 -> lastOf l name = None.
Proof.
  induction l as [| [n c] l IH] using rev_ind; [reflexivity |].
  rewrite fmap_app, lastOf_snoc. cbn. intros Hnin.
  destruct (String.eqb_spec n name) as [-> | Hne].
  - exfalso. apply Hnin. apply elem_of_app. right. apply list_elem_of_here.
  - apply IH. intros Hin. apply Hnin. apply elem_of_app. by left.
Qed.

Lemma lastOf_elem (l : list (string * ResolvedColor)) (name : string) (c : ResolvedColor) :
  NoDup l.*1 -> (name, c) ∈ l -> lastOf l name = Some c.
Proof.
  induction l as [| [n c'] l IH] using rev_ind; [intros _ Hin; inversion Hin |].
  rewrite fmap_app, lastOf_snoc. cbn. intros Hnd Hin.
  apply list.NoDup_app in Hnd as (Hnd & Hdis & _).
  apply elem_of_app in Hin as [Hin | Hin].
  - destruct (String.eqb_spec n name) as [-> | Hne]; [| by apply IH].
    exfalso. apply (Hdis name); [| apply list_elem_of_here].
    apply list_elem_of_fmap. by exists (name, c).
  - apply list_elem_of_singleton in Hin as [= -> ->]. by rewrite String.eqb_refl.
Qed.

Lemma lastOf_is_Some (l : list (string * ResolvedColor)) (name : string) :
  is_Some (lastOf l name) <-> name ∈ l.*1.
Proof.
  split.
  - intros Hs. destruct (decide (name ∈ l.*1)) as [Hin | Hnin]; [exact Hin |].
    rewrite (lastOf_None l name Hnin) in Hs. by destruct Hs.
  - induction l as [| [n c] l IH] using rev_ind; [intros Hin; inversion Hin |].
    rewrite fmap_app, lastOf_snoc. cbn. intros Hin.
    destruct (String.eqb_spec n name) as [-> | Hne]; [eauto |].
    apply IH. apply elem_of_app in Hin as [Hin | Hin]; [exact Hin |].
    apply list_elem_of_singleton in Hin. congruence.
Qed.

Lemma lastOf_prefixed (prefix : string) (l : list (string * ResolvedColor)) (name : string) :
  foldl (fun acc nc => if String.eqb (prefix +:+ nc.1) (prefix +:+ name) then Some nc.2 else acc)
        None l = lastOf l name.
Proof.
  unfold lastOf. induction l as [| [n c] l IH] using rev_ind; [reflexivity |].
  rewrite !foldl_snoc, IH. cbn.
  destruct (String.eqb_spec n name) as [-> | Hne]; [by rewrite String.eqb_refl |].
  destruct (String.eqb_spec (prefix +:+ n) (prefix +:+ name)) as [Heq | _]; [| reflexivity].
  apply String.app_inj in Heq. congruence.
Qed.

Section TokenLemmas.
Variable formatters : GlazeColorFormat -> Qc -> Qc -> Qc -> string.
Variable modes : GlazeOutputModes.
Variable format : option GlazeColorFormat.

Ltac variant_cases variant :=
  destruct (String.eqb_spec variant "light") as [-> | ?];
  [| destruct (String.eqb_spec variant "dark") as [-> | ?];
     [| destruct (String.eqb_spec variant "lightContrast") as [-> | ?];
        [| destruct (String.eqb_spec variant "darkContrast") as [-> | ?]]]].

Ltac map_lookups :=
  repeat first
    [ rewrite lookup_insert_eq
    | rewrite lookup_insert_ne by congruence
    | rewrite lookup_singleton_eq
    | rewrite lookup_singleton_ne by congruence
    | rewrite lookup_alter_eq
    | rewrite lookup_alter_ne by congruence
    | rewrite lookup_empty ].

(** The entry [buildJsonMap] makes of a colour. *)
Lemma jsonEntry_lookup (c : ResolvedColor) (variant : string) :
  (let entry : gmap string string := {[ "light" := formatVariant formatters (light c) format ]} in
   let entry :=
     if m_dark modes then <["dark" := formatVariant formatters (dark c) format]> entry
     else entry in
   let entry :=
     if m_highContrast modes
     then <["lightContrast" := formatVariant formatters (lightContrast c) format]> entry
     else entry in
   let entry :=
     if m_dark modes && m_highContrast modes
     then <["darkContrast" := formatVariant formatters (darkContrast c) format]> entry
     else entry in
   entry) !! variant = formatted formatters modes format variant c.
Proof.
  unfold formatted, selected. cbv zeta.
  destruct (m_dark modes), (m_highContrast modes); cbn [andb];
    variant_cases variant; cbn; map_lookups; reflexivity.
Qed.

Lemma buildJsonMap_at2 (resolved : list (string * ResolvedColor)) (name variant : string) :
  at2 (buildJsonMap formatters resolved modes format) name variant =
  lastOf resolved name ≫= formatted formatters modes format variant.
Proof.
  unfold buildJsonMap, at2.
  induction resolved as [| [n c] l IH] using rev_ind; [reflexivity |].
  rewrite foldl_snoc, lastOf_snoc. cbn [fst snd].
  destruct (String.eqb_spec n name) as [-> | Hne].
  - rewrite lookup_insert_eq. cbn [mbind option_bind]. apply jsonEntry_lookup.
  - rewrite lookup_insert_ne by exact Hne. exact IH.
Qed.

Lemma keyed_snoc (prefix : string) (l : list (string * ResolvedColor)) (n : string)
    (c : ResolvedColor) (key : string) :
  keyed prefix (l ++ [(n, c)]) key =
  if String.eqb (prefix +:+ n) key then Some c else keyed prefix l key.
Proof. unfold keyed. rewrite foldl_snoc. reflexivity. Qed.

Lemma buildFlatTokenMap_done (resolved : list (string * ResolvedColor)) (prefix : string) :
  flatDone formatters modes format prefix resolved (buildFlatTokenMap formatters resolved prefix modes format).
Proof.
  unfold buildFlatTokenMap. cbv zeta.
  induction resolved as [| [n c] l IH] using rev_ind.
  - intros variant. unfold selected, keyed. cbn [foldl].
    destruct (m_dark modes), (m_highContrast modes); cbn [andb];
      variant_cases variant; cbn; map_lookups;
      first [ reflexivity | eexists; split; [reflexivity | intros key; map_lookups; reflexivity] ].
  - rewrite foldl_snoc. cbn [fst snd].
    match goal with |- flatDone _ _ _ _ _ ?R =>
      match R with context [foldl ?f ?r0 l] => set (R0 := foldl f r0 l) in * end end.
    clearbody R0. intros variant. specialize (IH variant).
    revert IH. unfold selected.
    destruct (m_dark modes), (m_highContrast modes); cbn [andb];
      variant_cases variant; cbn;
      try (intros (inner & Hin & Hkeys); map_lookups; rewrite Hin; cbn;
           eexists; split; [reflexivity |]; intros key; rewrite keyed_snoc;
           destruct (String.eqb_spec (prefix +:+ n) key) as [<- | Hk];
           [rewrite lookup_insert_eq; reflexivity
           | rewrite lookup_insert_ne by exact Hk; apply Hkeys]);
      try (intros Hnone; map_lookups; exact Hnone).
Qed.

Lemma buildFlatTokenMap_at2 (resolved : list (string * ResolvedColor))
    (prefix variant key : string) :
  at2 (buildFlatTokenMap formatters resolved prefix modes format) variant key =
  keyed prefix resolved key ≫= formatted formatters modes format variant.
Proof.
  pose proof (buildFlatTokenMap_done resolved prefix variant) as Hd.
  unfold at2, formatted. destruct (selected modes variant) as [pick |].
  - destruct Hd as (inner & -> & Hkeys). cbn. rewrite Hkeys.
    by destruct (keyed prefix resolved key).
  - rewrite Hd. cbn. by destruct (keyed prefix resolved key).
Qed.

End TokenLemmas.

Lemma length_append (a b : string) :
  String.length (a +:+ b) = (String.length a + String.length b)%nat.
Proof.
  induction a as [| ch a IH]; [reflexivity |].
  change (S (String.length (a +:+ b)) = S (String.length a + String.length b)).
  by rewrite IH.
Qed.

Section TokenTheorems.
Variable formatters : GlazeColorFormat -> Qc -> Qc -> Qc -> string.

(** X25. [buildJsonMap] holds, under the name of each colour of the map,
    the formatted variants the modes include and no other: [light]
    always, [dark] with [modes.dark], [lightContrast] with
    [modes.highContrast], [darkContrast] with both. *)
Theorem X25_json_holds_the_selected_variants (resolved : list (string * ResolvedColor))
    (modes : GlazeOutputModes) (format : option GlazeColorFormat)
    (name : string) (color : ResolvedColor) (variant : string) :
  NoDup resolved.*1 -> (name, color) ∈ resolved ->
  at2 (buildJsonMap formatters resolved modes format) name variant =
  (fun pick : ResolvedColor -> ResolvedColorVariant =>
     formatVariant formatters (pick color) format) <$> selected modes variant.
Proof.
  intros Hnd Hin. rewrite buildJsonMap_at2, (lastOf_elem _ _ _ Hnd Hin). reflexivity.
Qed.

(** X26. The flat token map is the JSON map transposed:
    [tokens[variant][prefix + name]] is [json[name][variant]], for every
    variant and name; the flat map has no key but the prefixed names of
    the map, and the JSON map no name but those of the map. *)
Theorem X26_tokens_are_json_transposed (resolved : list (string * ResolvedColor))
    (prefix : string) (modes : GlazeOutputModes) (format : option GlazeColorFormat)
    (variant name key : string) :
  at2 (buildFlatTokenMap formatters resolved prefix modes format) variant (prefix +:+ name) =
    at2 (buildJsonMap formatters resolved modes format) name variant /\
  ((forall n, n ∈ resolved.*1 -> key <> prefix +:+ n) ->
   at2 (buildFlatTokenMap formatters resolved prefix modes format) variant key = None) /\
  (name ∉ resolved.*1 -> buildJsonMap formatters resolved modes format !! name = None).
Proof.
  split; [| split].
  - rewrite buildFlatTokenMap_at2, buildJsonMap_at2. unfold keyed.
    rewrite lastOf_prefixed. reflexivity.
  - intros Hkey. rewrite buildFlatTokenMap_at2.
    assert (Hk : keyed prefix resolved key = None); [| by rewrite Hk].
    induction resolved as [| [n c] l IH] using rev_ind; [reflexivity |].
    rewrite keyed_snoc. destruct (String.eqb_spec (prefix +:+ n) key) as [<- | Hne].
    + exfalso. apply (Hkey n); [| reflexivity].
      rewrite fmap_app. apply elem_of_app. right. apply list_elem_of_here.
    + apply IH. intros n' Hn'. apply Hkey. rewrite fmap_app. apply elem_of_app. by left.
  - intros Hnin. unfold buildJsonMap.
    induction resolved as [| [n c] l IH] using rev_ind; [reflexivity |].
    rewrite foldl_snoc. cbn [fst snd]. rewrite fmap_app in Hnin. rewrite lookup_insert_ne.
    + apply IH. intros Hin. apply Hnin. apply elem_of_app. by left.
    + intros ->. apply Hnin. apply elem_of_app. right. apply list_elem_of_here.
Qed.

(** X27. With state aliases that are not empty and differ, the entry
    [buildTokenMap] makes for a colour, under ['#' + prefix + name], reads
    by state: [''] gives the light variant, [states.dark] the dark one
    when [modes.dark], [states.highContrast] the light high-contrast one
    when [modes.highContrast], and [dark & highContrast] the dark
    high-contrast one when both. *)
Theorem X27_tasty_entry_reads_by_state (resolved : list (string * ResolvedColor))
    (prefix : string) (states : StateAliases) (modes : GlazeOutputModes)
    (format : option GlazeColorFormat) (name : string) (color : ResolvedColor) :
  NoDup resolved.*1 -> (name, color) ∈ resolved ->
  s_dark states <> "" -> s_highContrast states <> "" ->
  s_dark states <> s_highContrast states ->
  exists entry,
    buildTokenMap formatters resolved prefix states modes format
      !! ("#" +:+ prefix +:+ name) = Some entry /\
    entry !! "" = Some (formatVariant formatters (light color) format) /\
    entry !! s_dark states =
      (if m_dark modes then Some (formatVariant formatters (dark color) format) else None) /\
    entry !! s_highContrast states =
      (if m_highContrast modes
       then Some (formatVariant formatters (lightContrast color) format) else None) /\
    entry !! (s_dark states +:+ " & " +:+ s_highContrast states) =
      (if m_dark modes && m_highContrast modes
       then Some (formatVariant formatters (darkContrast color) format) else None).
Proof.
  intros Hnd Hin Hd Hh Hdh. unfold buildTokenMap.
  set (both := s_dark states +:+ " & " +:+ s_highContrast states).
  assert (Hlen : String.length both =
                 (String.length (s_dark states) + 3 + String.length (s_highContrast states))%nat).
  { unfold both. rewrite !length_append. cbn. lia. }
  assert (Hb0 : both <> "") by (intros Heq; rewrite Heq in Hlen; cbn in Hlen; lia).
  assert (Hbd : both <> s_dark states) by (intros Heq; rewrite Heq in Hlen; lia).
  assert (Hbh : both <> s_highContrast states) by (intros Heq; rewrite Heq in Hlen; lia).
  clearbody both.
  induction resolved as [| [n c] l IH] using rev_ind; [inversion Hin |].
  rewrite foldl_snoc. cbn [fst snd].
  rewrite fmap_app in Hnd. apply list.NoDup_app in Hnd as (Hnd & Hdis & _).
  apply elem_of_app in Hin as [Hin | Hin].
  - rewrite lookup_insert_ne; [exact (IH Hnd Hin) |].
    intros Heq. apply String.app_inj in Heq. apply String.app_inj in Heq. subst n.
    apply (Hdis name); [| apply list_elem_of_here].
    apply list_elem_of_fmap. by exists (name, color).
  - apply list_elem_of_singleton in Hin as [= -> ->].
    rewrite lookup_insert_eq. eexists. split; [reflexivity |].
    destruct (m_dark modes), (m_highContrast modes); cbn [andb];
      repeat first
        [ rewrite lookup_insert_eq
        | rewrite lookup_insert_ne by congruence
        | rewrite lookup_singleton_eq
        | rewrite lookup_singleton_ne by congruence ];
      auto.
Qed.

End TokenTheorems.

(* ===================================================================== *)
(** * The global configuration *)
(* ===================================================================== *)

Lemma default_orElse {A : Type} (d : A) (a b : option A) :
  default d (orElse a b) = default (default d b) a.
Proof. destruct a; reflexivity. Qed.

(** X28. [configure] merges field by field.  Two calls in a row are one
    call with the later configuration laid over the earlier, the nested
    [states] and [modes] included; a call repeated changes nothing more,
    and a call that gives no field changes nothing.  The modes of an
    export are the call's own where it gives them, else the configured
    ones, else those in force before. *)
Theorem X28_configure_merges_field_by_field (earlier later : GlazeConfigInput)
    (globalConfig : GlazeConfigResolved) (override : option GlazeOutputModesOverride) :
  configure later (configure earlier globalConfig) =
    configure (overlay earlier later) globalConfig /\
  configure later (configure later globalConfig) = configure later globalConfig /\
  configure (mkConfigInput None None None None) globalConfig = globalConfig /\
  resolveModes (g_modes (configure later globalConfig)) override =
    {| m_dark :=
         default (default (m_dark (g_modes globalConfig)) (i_modes later ≫= om_dark))
                 (override ≫= om_dark);
       m_highContrast :=
         default (default (m_highContrast (g_modes globalConfig))
                          (i_modes later ≫= om_highContrast))
                 (override ≫= om_highContrast) |}.
Proof.
  split; [| split; [| split]].
  - unfold configure, overlay. cbn. rewrite !default_orElse. reflexivity.
  - unfold configure. cbn.
    destruct (i_darkLightness later), (i_darkDesaturation later),
      (i_states later ≫= so_dark), (i_states later ≫= so_highContrast),
      (i_modes later ≫= om_dark), (i_modes later ≫= om_highContrast); reflexivity.
  - destruct globalConfig as [[dl dd] [sd sh] [md mh]]. reflexivity.
  - reflexivity.
Qed.

(* ===================================================================== *)
(** * The further properties at concrete inputs *)
(* ===================================================================== *)

Lemma X1_witness :
  @reachable greyMath (@cachedLuminance greyMath 0 0 (qc 1 2) emptyCache).2 /\
  withinCapacity (@cachedLuminance greyMath 0 0 (qc 1 2) emptyCache).2.
Proof.
  assert (H1 : @reachable greyMath (@cachedLuminance greyMath 0 0 (qc 1 2) emptyCache).2)
    by (constructor; constructor).
  split; [exact H1 |].
  exact (@X1_cache_within_capacity greyMath _ H1).
Defined.

Lemma X2_witness :
  round4 (qc 50001 100000) = round4 (qc 1 2) /\
  @cachedLuminance greyMath 0 0 (qc 50001 100000)
    (@cachedLuminance greyMath 0 0 (qc 1 2) emptyCache).2 =
  @cachedLuminance greyMath 0 0 (qc 1 2) emptyCache.
Proof.
  assert (Hr : round4 (qc 50001 100000) = round4 (qc 1 2))
    by (apply Qc_is_canon; reflexivity).
  split; [exact Hr |].
  exact (@X2_cache_hit_repeats greyMath 0 0 (qc 1 2) (qc 50001 100000) emptyCache Hr).
Defined.

Lemma X3_witness :
  @reachable greyMath emptyCache /\
  exists r,
    (@run greyMath _ (@findLightnessForContrast greyMath (greyOptions (qc 1 2) black (qc 15 1)))
       emptyCache).1 = Returned r /\
    match r_branch r with
    | preferred => r_lightness r = o_preferredLightness (greyOptions (qc 1 2) black (qc 15 1))
    | darker =>
        (rangeOf (greyOptions (qc 1 2) black (qc 15 1))).1 <= r_lightness r /\
        r_lightness r <= o_preferredLightness (greyOptions (qc 1 2) black (qc 15 1))
    | lighter =>
        o_preferredLightness (greyOptions (qc 1 2) black (qc 15 1)) <= r_lightness r /\
        r_lightness r <= (rangeOf (greyOptions (qc 1 2) black (qc 15 1))).2
    end.
Proof.
  assert (H0 : @reachable greyMath emptyCache) by constructor.
  split; [exact H0 |].
  exact (@X3_solver_result_lies_in_its_branch greyMath (greyOptions (qc 1 2) black (qc 15 1))
           emptyCache H0).
Defined.

Lemma X4_witness :
  @reachable greyMath emptyCache /\
  exists r,
    (@run greyMath _ (@findLightnessForContrast greyMath (greyOptions (qc 1 2) black (qc 15 1)))
       emptyCache).1 = Returned r /\
    (r_met r = true <-> targetOf (greyOptions (qc 1 2) black (qc 15 1)) <= r_contrast r).
Proof.
  assert (H0 : @reachable greyMath emptyCache) by constructor.
  split; [exact H0 |].
  exact (@X4_solver_met_iff_target_reached greyMath (greyOptions (qc 1 2) black (qc 15 1))
           emptyCache H0).
Defined.

Lemma X5_witness :
  @reachable greyMath emptyCache /\
  exists r,
    (@run greyMath _ (@findLightnessForContrast greyMath (greyOptions (qc 1 2) black (qc 15 1)))
       emptyCache).1 = Returned r /\
    (r_met r = true ->
     (@run greyMath _
        (@findLightnessForContrast greyMath
           (withPreferred (greyOptions (qc 1 2) black (qc 15 1)) (r_lightness r)))
        emptyCache).1 =
     Returned {| r_lightness := r_lightness r; r_contrast := r_contrast r;
                 r_met := true; r_branch := preferred |}).
Proof.
  assert (H0 : @reachable greyMath emptyCache) by constructor.
  split; [exact H0 |].
  exact (@X5_solver_keeps_its_own_result greyMath (greyOptions (qc 1 2) black (qc 15 1))
           emptyCache emptyCache H0 H0).
Defined.

Lemma X7_witness :
  validateColorDefs surfaceAndBorder = Returned tt /\
  exists order, topoSort surfaceAndBorder = Returned order /\
    NoDup order /\
    (forall x, x ∈ order <-> x ∈ keys surfaceAndBorder) /\
    (forall x b, followedEdge surfaceAndBorder x b -> precedes order b x).
Proof.
  assert (Hv : validateColorDefs surfaceAndBorder = Returned tt) by (vm_compute; reflexivity).
  split; [exact Hv |].
  exact (X7_topoSort_bases_first surfaceAndBorder Hv).
Defined.

(** The runs the witnesses below refer to. *)
Lemma surfaceAndBorder_resolves :
  exists M rs rb,
    (@run greyMath _ (@resolveAllColors greyMath defaultConfig 0 0 surfaceAndBorder)
       emptyCache).1 = Returned M /\
    M !! "surface" = Some rs /\ M !! "border" = Some rb.
Proof.
  eexists _, _, _. split; [vm_compute; reflexivity |]. split; vm_compute; reflexivity.
Qed.

Lemma surfaceAndRelativeText_resolves :
  exists M rs rt,
    (@run greyMath _ (@resolveAllColors greyMath defaultConfig 0 0 surfaceAndRelativeText)
       emptyCache).1 = Returned M /\
    M !! "surface" = Some rs /\ M !! "text" = Some rt.
Proof.
  eexists _, _, _. split; [vm_compute; reflexivity |]. split; vm_compute; reflexivity.
Qed.

Lemma staticAccent_resolves :
  exists M rc,
    (@run greyMath _ (@resolveAllColors greyMath defaultConfig 0 0 [("accent", staticDef)])
       emptyCache).1 = Returned M /\
    M !! "accent" = Some rc.
Proof.
  eexists _, _. split; vm_compute; reflexivity.
Qed.

Lemma X8_witness :
  @reachable greyMath emptyCache /\
  exists M,
    (@run greyMath _ (@resolveAllColors greyMath defaultConfig 0 0 surfaceAndBorder)
       emptyCache).1 = Returned M /\
    (forall x, x ∈ keys surfaceAndBorder <-> is_Some (M !! x)) /\
    forall x rc, M !! x = Some rc ->
      rc_name rc = x /\
      exists def, lookupDef surfaceAndBorder x = Some def /\ rc_mode rc = modeOf def.
Proof.
  assert (H0 : @reachable greyMath emptyCache) by constructor.
  split; [exact H0 |].
  destruct surfaceAndBorder_resolves as (M & rs & rb & Hrun & _ & _).
  exists M. split; [exact Hrun |].
  exact (@X8_resolve_returns_the_declared_names greyMath defaultConfig 0 0 surfaceAndBorder
           emptyCache M H0 Hrun).
Defined.

Lemma X9_witness :
  @reachable greyMath emptyCache /\
  lookupDef surfaceAndBorder "border" = Some (dependentDef "surface" (Rel (qc (-10) 1))) /\
  exists M rc,
    (@run greyMath _ (@resolveAllColors greyMath defaultConfig 0 0 surfaceAndBorder)
       emptyCache).1 = Returned M /\
    M !! "border" = Some rc /\
    (@run greyMath _
       (@resolveColorForScheme greyMath defaultConfig "border"
          (dependentDef "surface" (Rel (qc (-10) 1)))
          (mkContext 0 0 surfaceAndBorder M) true false) emptyCache).1 =
    Returned (variantFor rc true false).
Proof.
  assert (H0 : @reachable greyMath emptyCache) by constructor.
  assert (Hd : lookupDef surfaceAndBorder "border" =
               Some (dependentDef "surface" (Rel (qc (-10) 1)))) by reflexivity.
  split; [exact H0 |]. split; [exact Hd |].
  destruct surfaceAndBorder_resolves as (M & rs & rc & Hrun & _ & Hr).
  exists M, rc. split; [exact Hrun |]. split; [exact Hr |].
  exact (@X9_resolve_result_is_consistent greyMath defaultConfig 0 0 surfaceAndBorder
           emptyCache emptyCache M "border" _ rc true false H0 H0 Hrun Hd Hr).
Defined.

Lemma X10_witness :
  @reachable greyMath emptyCache /\
  lookupDef surfaceAndBorder "surface" = Some (rootDef (qc 97 1)) /\
  isRoot (rootDef (qc 97 1)) = true /\
  exists M,
    (@run greyMath _ (@resolveAllColors greyMath defaultConfig 0 0 surfaceAndBorder)
       emptyCache).1 = Returned M /\
    exists rc, M !! "surface" = Some rc /\
      light rc = rootVariant defaultConfig 0 0 (rootDef (qc 97 1)) false false /\
      lightContrast rc = rootVariant defaultConfig 0 0 (rootDef (qc 97 1)) false true /\
      dark rc = rootVariant defaultConfig 0 0 (rootDef (qc 97 1)) true false /\
      darkContrast rc = rootVariant defaultConfig 0 0 (rootDef (qc 97 1)) true true.
Proof.
  assert (H0 : @reachable greyMath emptyCache) by constructor.
  assert (Hd : lookupDef surfaceAndBorder "surface" = Some (rootDef (qc 97 1))) by reflexivity.
  assert (Hroot : isRoot (rootDef (qc 97 1)) = true) by reflexivity.
  split; [exact H0 |]. split; [exact Hd |]. split; [exact Hroot |].
  destruct surfaceAndBorder_resolves as (M & rs & rb & Hrun & _ & _).
  exists M. split; [exact Hrun |].
  exact (@X10_root_colour_resolves_by_itself greyMath defaultConfig 0 0 surfaceAndBorder
           emptyCache M "surface" _ H0 Hrun Hd Hroot).
Defined.

Lemma X11_witness :
  @reachable greyMath emptyCache /\
  lookupDef [("accent", staticDef)] "accent" = Some staticDef /\
  isRoot staticDef = true /\ mode staticDef = Some static /\
  exists M rc,
    (@run greyMath _ (@resolveAllColors greyMath defaultConfig 0 0 [("accent", staticDef)])
       emptyCache).1 = Returned M /\
    M !! "accent" = Some rc /\
    dark rc = light rc /\ darkContrast rc = lightContrast rc.
Proof.
  assert (H0 : @reachable greyMath emptyCache) by constructor.
  assert (Hd : lookupDef [("accent", staticDef)] "accent" = Some staticDef) by reflexivity.
  assert (Hroot : isRoot staticDef = true) by reflexivity.
  assert (Hm : mode staticDef = Some static) by reflexivity.
  split; [exact H0 |]. split; [exact Hd |]. split; [exact Hroot |]. split; [exact Hm |].
  destruct staticAccent_resolves as (M & rc & Hrun & Hr).
  exists M, rc. split; [exact Hrun |]. split; [exact Hr |].
  exact (@X11_static_root_keeps_its_colour greyMath defaultConfig 0 0 _
           emptyCache M "accent" staticDef rc H0 Hrun Hd Hroot Hm Hr).
Defined.

Lemma surfaceAndRelativeText_samePair (y : string) (def : ColorDef) :
  lookupDef surfaceAndRelativeText y = Some def ->
  samePair (lightness def) /\ samePair (contrast def).
Proof.
  unfold surfaceAndRelativeText, lookupDef.
  destruct (String.eqb "surface" y); [| destruct (String.eqb "text" y); [| discriminate]];
    intros [= <-]; split; intros p [= <-]; reflexivity.
Qed.

Lemma X12_witness :
  @reachable greyMath emptyCache /\
  (forall y def, lookupDef surfaceAndRelativeText y = Some def ->
     samePair (lightness def) /\ samePair (contrast def)) /\
  exists M rc,
    (@run greyMath _ (@resolveAllColors greyMath defaultConfig 0 0 surfaceAndRelativeText)
       emptyCache).1 = Returned M /\
    M !! "text" = Some rc /\
    lightContrast rc = light rc /\ darkContrast rc = dark rc.
Proof.
  assert (H0 : @reachable greyMath emptyCache) by constructor.
  split; [exact H0 |]. split; [exact surfaceAndRelativeText_samePair |].
  destruct surfaceAndRelativeText_resolves as (M & rs & rc & Hrun & _ & Hr).
  exists M, rc. split; [exact Hrun |]. split; [exact Hr |].
  exact (@X12_without_pairs_high_contrast_is_normal greyMath defaultConfig 0 0
           surfaceAndRelativeText emptyCache M "text" rc H0 Hrun
           surfaceAndRelativeText_samePair Hr).
Defined.

Lemma X13_witness :
  @reachable greyMath emptyCache /\
  lookupDef surfaceAndBorder "border" = Some (dependentDef "surface" (Rel (qc (-10) 1))) /\
  isRoot (dependentDef "surface" (Rel (qc (-10) 1))) = false /\
  exists M rc,
    (@run greyMath _ (@resolveAllColors greyMath defaultConfig 0 0 surfaceAndBorder)
       emptyCache).1 = Returned M /\
    M !! "border" = Some rc /\
    exists b rb, base (dependentDef "surface" (Rel (qc (-10) 1))) = Some b /\
      M !! b = Some rb /\
      v_l (variantFor rc true false) =
      clamp (v_l (variantFor rb true false) * qc 100 1 +
             (if true && isAuto (modeOf (dependentDef "surface" (Rel (qc (-10) 1))))
              then - qc (-10) 1 else qc (-10) 1)) 0 (qc 100 1)
      / qc 100 1.
Proof.
  assert (H0 : @reachable greyMath emptyCache) by constructor.
  assert (Hd : lookupDef surfaceAndBorder "border" =
               Some (dependentDef "surface" (Rel (qc (-10) 1)))) by reflexivity.
  assert (Hroot : isRoot (dependentDef "surface" (Rel (qc (-10) 1))) = false) by reflexivity.
  split; [exact H0 |]. split; [exact Hd |]. split; [exact Hroot |].
  destruct surfaceAndBorder_resolves as (M & rs & rc & Hrun & _ & Hr).
  exists M, rc. split; [exact Hrun |]. split; [exact Hr |].
  exact (@X13_relative_lightness_offsets_the_base greyMath defaultConfig 0 0 surfaceAndBorder
           emptyCache M "border" _ rc (Single (Rel (qc (-10) 1))) (qc (-10) 1) true false
           H0 Hrun Hd Hr Hroot eq_refl eq_refl eq_refl).
Defined.

Lemma X14_witness :
  @reachable greyMath emptyCache /\
  (0 : Qc) <= 0 /\ (0 : Qc) <= qc 100 1 /\
  0 <= darkDesaturation defaultConfig /\ darkDesaturation defaultConfig <= 1 /\
  exists M rc,
    (@run greyMath _ (@resolveAllColors greyMath defaultConfig 0 0 surfaceAndRelativeText)
       emptyCache).1 = Returned M /\
    M !! "text" = Some rc /\
    exists b rb r, b = "surface" /\ M !! b = Some rb /\
      (@run greyMath _
         (@findLightnessForContrast greyMath
            {| o_hue := v_h (light rc); o_saturation := v_s (light rc);
               o_preferredLightness :=
                 clamp (v_l (light rb) * qc 100 1 + qc (-52) 1) 0 (qc 100 1) / qc 100 1;
               o_baseLinearRgb :=
                 @okhslToLinearSrgb greyMath (v_h (light rb)) (v_s (light rb)) (v_l (light rb));
               o_contrast := Preset AAA;
               o_lightnessRange := None; o_epsilon := None; o_maxIterations := None |})
         emptyCache).1 = Returned r /\
      v_l (light rc) = r_lightness r /\
      (r_met r = true ->
       resolveMinContrast (Preset AAA) <= @contrastBetween greyMath (light rc) (light rb)).
Proof.
  assert (H0 : @reachable greyMath emptyCache) by constructor.
  assert (Ha : (0 : Qc) <= 0) by (vm_compute; discriminate).
  assert (Hb : (0 : Qc) <= qc 100 1) by (vm_compute; discriminate).
  assert (Hc : 0 <= darkDesaturation defaultConfig) by (vm_compute; discriminate).
  assert (Hd : darkDesaturation defaultConfig <= 1) by (vm_compute; discriminate).
  repeat (split; [assumption |]).
  destruct surfaceAndRelativeText_resolves as (M & rs & rc & Hrun & _ & Hr).
  exists M, rc. split; [exact Hrun |]. split; [exact Hr |].
  destruct (@X14_contrast_floor_is_solved_against_the_base greyMath defaultConfig 0 0
              surfaceAndRelativeText emptyCache emptyCache M "text" _ rc
              (Single (Preset AAA)) (qc (-52) 1) false false
              H0 H0 Hrun eq_refl Hr eq_refl eq_refl
              (or_intror (ex_intro _ (Single (Rel (qc (-52) 1))) (conj eq_refl eq_refl)))
              Ha Hb Hc Hd)
    as (b & rb & r & Hbase & Hrb & Hsolve).
  exists b, rb, r. split; [injection Hbase as <-; reflexivity |]. split; [exact Hrb |].
  exact Hsolve.
Defined.

Lemma surfaceAndBorder_narrow_resolves :
  exists M rs rb,
    (@run greyMath _ (@resolveAllColors greyMath narrowConfig 0 0 surfaceAndBorder)
       emptyCache).1 = Returned M /\
    M !! "surface" = Some rs /\ M !! "border" = Some rb.
Proof.
  eexists _, _, _. split; [vm_compute; reflexivity |]. split; vm_compute; reflexivity.
Qed.

Lemma X15_witness :
  @reachable greyMath emptyCache /\
  exists M M' rc rc',
    (@run greyMath _ (@resolveAllColors greyMath defaultConfig 0 0 surfaceAndBorder)
       emptyCache).1 = Returned M /\
    (@run greyMath _ (@resolveAllColors greyMath narrowConfig 0 0 surfaceAndBorder)
       emptyCache).1 = Returned M' /\
    M !! "border" = Some rc /\ M' !! "border" = Some rc' /\
    light rc = light rc' /\ lightContrast rc = lightContrast rc'.
Proof.
  assert (H0 : @reachable greyMath emptyCache) by constructor.
  split; [exact H0 |].
  destruct surfaceAndBorder_resolves as (M & rs & rc & Hrun & _ & Hr).
  destruct surfaceAndBorder_narrow_resolves as (M' & rs' & rc' & Hrun' & _ & Hr').
  exists M, M', rc, rc'. repeat (split; [assumption |]).
  exact (@X15_light_schemes_ignore_the_configuration greyMath defaultConfig narrowConfig 0 0
           surfaceAndBorder emptyCache emptyCache M M' "border" rc rc'
           H0 H0 Hrun Hrun' Hr Hr').
Defined.

Lemma surfaceAndBorder_rootsAndFollowers : rootsAndFollowers surfaceAndBorder.
Proof.
  intros x def. unfold surfaceAndBorder, lookupDef.
  destruct (String.eqb "surface" x); [| destruct (String.eqb "border" x); [| discriminate]];
    intros [= <-]; [left; reflexivity | right; exists "surface"; reflexivity].
Qed.

Lemma X16_witness :
  @reachable greyMath emptyCache /\
  validateColorDefs surfaceAndBorder = Returned tt /\
  rootsAndFollowers surfaceAndBorder /\
  exists M,
    (@run greyMath _ (@resolveAllColors greyMath defaultConfig 0 0 surfaceAndBorder)
       emptyCache).1 = Returned M /\
    forall x, x ∈ keys surfaceAndBorder <-> is_Some (M !! x).
Proof.
  assert (H0 : @reachable greyMath emptyCache) by constructor.
  assert (Hv : validateColorDefs surfaceAndBorder = Returned tt) by (vm_compute; reflexivity).
  split; [exact H0 |]. split; [exact Hv |]. split; [exact surfaceAndBorder_rootsAndFollowers |].
  exact (@X16_resolve_returns_for_roots_and_followers greyMath defaultConfig 0 0
           surfaceAndBorder emptyCache H0 Hv surfaceAndBorder_rootsAndFollowers).
Defined.

Lemma X18_witness :
  (darkLightness defaultConfig).1 <= (darkLightness defaultConfig).2 /\
  0 <= qc 20 1 /\ qc 20 1 <= qc 70 1 /\ qc 70 1 <= qc 100 1 /\
  mapLightnessDark defaultConfig (qc 20 1) auto =
    mapLightnessDark defaultConfig (qc 100 1 - qc 20 1) fixed /\
  mapLightnessDark defaultConfig (qc 20 1) fixed <= mapLightnessDark defaultConfig (qc 70 1) fixed /\
  mapLightnessDark defaultConfig (qc 70 1) auto <= mapLightnessDark defaultConfig (qc 20 1) auto.
Proof.
  assert (Hw : (darkLightness defaultConfig).1 <= (darkLightness defaultConfig).2)
    by (vm_compute; discriminate).
  assert (H0 : 0 <= qc 20 1) by (vm_compute; discriminate).
  assert (H1 : qc 20 1 <= qc 70 1) by (vm_compute; discriminate).
  assert (H2 : qc 70 1 <= qc 100 1) by (vm_compute; discriminate).
  repeat (split; [assumption |]).
  exact (proj2 (proj2 (X18_dark_lightness_window defaultConfig (qc 20 1) (qc 70 1) Hw H0 H1 H2))).
Defined.

Lemma X19_witness :
  @reachable greyMath emptyCache /\
  exists rc,
    (@run greyMath _ (@colorTokenResolve greyMath defaultConfig accentInput) emptyCache).1 =
      Returned (Some rc) /\
    rc_name rc = "__color__" /\
    light rc = rootVariant defaultConfig (qc 280 1) (qc 80 1) (colorTokenDef accentInput)
                 false false /\
    darkContrast rc = rootVariant defaultConfig (qc 280 1) (qc 80 1)
                        (colorTokenDef accentInput) true true.
Proof.
  assert (H0 : @reachable greyMath emptyCache) by constructor.
  split; [exact H0 |]. eexists. split.
  - exact (@X19_standalone_colour_always_resolves greyMath defaultConfig accentInput
             emptyCache H0).
  - split; [reflexivity |]. split; reflexivity.
Defined.

Lemma X20_witness :
  let c := (@cachedLuminance greyMath 0 0 (qc 3 4)
              (@cachedLuminance greyMath 0 0 (qc 1 2) emptyCache).2).2 in
  let k := (0, 0, round4 (qc 3 4)) in
  exists y,
    luminanceCache c !! k = Some y /\
    head (cacheOrder c) <> Some k /\
    luminanceCache (@cachedLuminance greyMath 0 0 (qc 1 4) c).2 !! k = Some y.
Proof.
  intros c k.
  destruct (luminanceCache c !! k) as [y |] eqn:Hk; [| vm_compute in Hk; discriminate].
  assert (Ho : head (cacheOrder c) <> Some k) by (vm_compute; discriminate).
  exists y. split; [reflexivity |]. split; [exact Ho |].
  exact (@X20_only_the_oldest_entry_is_evicted greyMath 0 0 (qc 1 4) c k y Hk Ho).
Defined.

Lemma X21_witness :
  let st := createTheme 0 0 None ∅ in
  "text" <> "__proto__" /\
  NoDup (keys surfaceAndBorder) /\
  (getColor "text" (call (color "text" staticDef) st) = OwnValue staticDef /\
   has "text" (call (color "text" staticDef) st) = true) /\
  ("border" <> "text" ->
   getColor "border" (call (color "text" staticDef) st) = getColor "border" st /\
   has "border" (call (color "text" staticDef) st) = has "border" st) /\
  getColor "border" (call (colors surfaceAndBorder) st) =
    match lookupDef surfaceAndBorder "border" with
    | Some d => OwnValue d
    | None => getColor "border" st
    end.
Proof.
  intros st.
  assert (Hn : "text" <> "__proto__") by discriminate.
  assert (Hnd : NoDup (keys surfaceAndBorder)).
  { apply (bool_decide_unpack _). vm_compute. exact I. }
  split; [exact Hn |]. split; [exact Hnd |].
  exact (X21_a_written_definition_reads_back st "text" staticDef surfaceAndBorder "border"
           Hn Hnd).
Defined.

Lemma X25_witness :
  NoDup twoResolved.*1 /\ ("text", textResolved) ∈ twoResolved /\
  at2 (buildJsonMap plainFormatters twoResolved (resolveModes defaultModes None) None) "text" "dark" =
    Some "bright" /\
  at2 (buildJsonMap plainFormatters twoResolved (resolveModes defaultModes None) None) "text" "darkContrast" =
    None.
Proof.
  assert (Hnd : NoDup twoResolved.*1).
  { apply (bool_decide_unpack _). vm_compute. exact I. }
  assert (Hin : ("text", textResolved) ∈ twoResolved) by (repeat constructor).
  split; [exact Hnd |]. split; [exact Hin |]. split.
  - exact (X25_json_holds_the_selected_variants plainFormatters twoResolved (resolveModes defaultModes None) None
             "text" textResolved "dark" Hnd Hin).
  - exact (X25_json_holds_the_selected_variants plainFormatters twoResolved (resolveModes defaultModes None) None
             "text" textResolved "darkContrast" Hnd Hin).
Defined.

Lemma X27_witness :
  NoDup twoResolved.*1 /\ ("surface", surfaceResolved) ∈ twoResolved /\
  s_dark defaultStates <> "" /\ s_highContrast defaultStates <> "" /\
  s_dark defaultStates <> s_highContrast defaultStates /\
  exists entry,
    buildTokenMap plainFormatters twoResolved "brand-" defaultStates defaultModes None
      !! "#brand-surface" = Some entry /\
    entry !! "" = Some "bright" /\
    entry !! "@dark" = Some "dim" /\
    entry !! "@high-contrast" = None.
Proof.
  assert (Hnd : NoDup twoResolved.*1).
  { apply (bool_decide_unpack _). vm_compute. exact I. }
  assert (Hin : ("surface", surfaceResolved) ∈ twoResolved) by (repeat constructor).
  assert (Hd : s_dark defaultStates <> "") by discriminate.
  assert (Hh : s_highContrast defaultStates <> "") by discriminate.
  assert (Hdh : s_dark defaultStates <> s_highContrast defaultStates) by discriminate.
  repeat (split; [assumption |]).
  destruct (X27_tasty_entry_reads_by_state plainFormatters twoResolved "brand-" defaultStates
              defaultModes None "surface" surfaceResolved Hnd Hin Hd Hh Hdh)
    as (entry & He & H1 & H2 & H3 & _).
  exists entry. split; [exact He |]. split; [exact H1 |]. split; [exact H2 | exact H3].
Defined.
